(** * 2048-AI: the board engine and the search strategies

    A shallow embedding of [game_board.py] and [ai.py], and of the game
    loop of [main.py].

    Data.  A numpy 2-D array is a list of rows ([ndarray]); a cell holds a
    tile value, an integer ([Z]).  The source stores tiles in float64 arrays,
    but every value the game writes is 0, 2, 4 or the double of a tile, all
    of which float64 represents exactly, so tile arithmetic is integer
    arithmetic.  Heuristic scores ([eval_board] and the search on top of
    it) are genuine float computations; they go through the interface
    [float_ops], instantiated with IEEE binary64 where a value is computed.

    Loops.  [for j in range(n)] is a left fold over [seq 0 n]; an array
    written in a loop is the state of the fold, updated with stdpp's list
    insert.  In the loops of [merge] and [justify_left] reads and writes
    out of range do not occur on a well-formed board ([wf_board]); there a
    read gives 0 and a write does nothing.

    Objects.  The functions on boards take a board to a new board.  Where
    a property depends on which object a method changes, the methods are
    modelled a second time on a heap of array buffers and board objects
    ([clone_obj], [move_obj], [maximize_obj], ...), and shown to compute
    what the functions on boards compute. *)

From Stdlib Require Import ZArith QArith Qabs Lia Floats.
From stdpp Require Import base numbers list.

Local Open Scope Z_scope.

(** ** numpy arrays *)

Abbreviation ndarray := (list (list Z)).

(** [a.shape[0]] and [a.shape[1]]. *)
Definition shape0 (a : ndarray) : nat := length a.
Definition shape1 (a : ndarray) : nat :=
  match a with [] => 0%nat | r :: _ => length r end.

(** [np.zeros((n, m))]. *)
Definition np_zeros (n m : nat) : ndarray := replicate n (replicate m 0).

(** [r[j]] on a row and [a[i][j]] on an array. *)
Definition item (r : list Z) (j : nat) : Z := default 0 (r !! j).
Definition cell (a : ndarray) (i j : nat) : Z := item (default [] (a !! i)) j.

(** The views [a[:, ::-1]], [a[::-1, :]] and [a.T]. *)
Definition flip_cols (a : ndarray) : ndarray := reverse <$> a.
Definition flip_rows (a : ndarray) : ndarray := reverse a.
Definition transpose (a : ndarray) : ndarray :=
  (fun j => (fun r => item r j) <$> a) <$> seq 0 (shape1 a).

(** [(a == b).all()] on two arrays of one shape. *)
Definition row_all_eq (r s : list Z) : bool :=
  forallb (fun p => fst p =? snd p) (zip r s).
Definition np_all_eq (a b : ndarray) : bool :=
  forallb (fun p => row_all_eq (fst p) (snd p)) (zip a b).

(** A rectangular array of shape (n, m). *)
Definition has_shape (n m : nat) (a : ndarray) : Prop :=
  length a = n ∧ Forall (fun r => length r = m) a.

(** ** game_board.py *)

(** [generate_dirs]: 0 Up, 1 Down, 2 Left, 3 Right. *)
Definition generate_dirs (grid_len : nat) : list nat := seq 0 4.

Definition Up : nat := 0.
Definition Down : nat := 1.
Definition Left : nat := 2.
Definition Right : nat := 3.

(** *** merge *)

(** One iteration of the inner loop of [merge], on row [a[i]]. *)
Definition merge_step (r : list Z) (j : nat) : list Z :=
  if (item r j =? item r (j + 1)) && negb (item r j =? 0)
  then <[(j + 1)%nat := 0]> (<[j := item r j * 2]> r)
  else r.

Definition merge_row (m : nat) (r : list Z) : list Z :=
  foldl merge_step r (seq 0 (m - 1)).

Definition merge (a : ndarray) : ndarray := merge_row (shape1 a) <$> a.

(** *** justify_left *)

(** One iteration of the inner loop of [justify_left]: the state is the
    write position [c] and the row [out[i]]. *)
Definition justify_step (r : list Z) (st : nat * list Z) (j : nat)
  : nat * list Z :=
  if negb (item r j =? 0)
  then (S (fst st), <[fst st := item r j]> (snd st))
  else st.

Definition justify_row (m : nat) (r o : list Z) : list Z :=
  snd (foldl (justify_step r) (0%nat, o) (seq 0 m)).

(** Row [i] of [a] is packed into row [i] of [out]; the rows of [out]
    beyond [a.shape[0]] are returned as they are. *)
Fixpoint justify_rows (m : nat) (a out : ndarray) : ndarray :=
  match a, out with
  | r :: a', o :: out' => justify_row m r o :: justify_rows m a' out'
  | _, _ => out
  end.

Definition justify_left (a out : ndarray) : ndarray :=
  justify_rows (shape1 a) a out.

(** *** get_available_from_zeros *)

Record zero_scan := ZeroScan {
  uc : bool; dc : bool; lc : bool; rc : bool;
  v_saw_0 : list bool; v_saw_1 : list bool;
  saw_0 : bool; saw_1 : bool }.

Definition flag (v : list bool) (j : nat) : bool := default false (v !! j).

(** The branch [if a[i][j] == 0]. *)
Definition scan_zero (s : zero_scan) (j : nat) : zero_scan :=
  {| uc := uc s;
     dc := dc s || flag (v_saw_1 s) j;
     lc := lc s;
     rc := rc s || saw_1 s;
     v_saw_0 := <[j := true]> (v_saw_0 s);
     v_saw_1 := v_saw_1 s;
     saw_0 := true;
     saw_1 := saw_1 s |}.

(** The branch [if a[i][j] > 0]. *)
Definition scan_tile (s : zero_scan) (j : nat) : zero_scan :=
  {| uc := uc s || flag (v_saw_0 s) j;
     dc := dc s;
     lc := lc s || saw_0 s;
     rc := rc s;
     v_saw_0 := v_saw_0 s;
     v_saw_1 := <[j := true]> (v_saw_1 s);
     saw_0 := saw_0 s;
     saw_1 := true |}.

Definition scan_cell (r : list Z) (s : zero_scan) (j : nat) : zero_scan :=
  let s := if item r j =? 0 then scan_zero s j else s in
  if 0 <? item r j then scan_tile s j else s.

(** The body of the loop over [i]: the row flags are reset, then the row
    is scanned. *)
Definition scan_row (m : nat) (s : zero_scan) (r : list Z) : zero_scan :=
  foldl (scan_cell r)
        {| uc := uc s; dc := dc s; lc := lc s; rc := rc s;
           v_saw_0 := v_saw_0 s; v_saw_1 := v_saw_1 s;
           saw_0 := false; saw_1 := false |}
        (seq 0 m).

Definition scan_init (m : nat) : zero_scan :=
  {| uc := false; dc := false; lc := false; rc := false;
     v_saw_0 := replicate m false; v_saw_1 := replicate m false;
     saw_0 := false; saw_1 := false |}.

Definition get_available_from_zeros (a : ndarray) : list bool :=
  let s := foldl (scan_row (shape1 a)) (scan_init (shape1 a)) a in
  [uc s; dc s; lc s; rc s].

(** *** GameBoard *)

Record GameBoard := Board { grid_len : nat; grid : ndarray }.

(** [GameBoard(grid_len)]. *)
Definition new_board (n : nat) : GameBoard :=
  {| grid_len := n; grid := np_zeros n n |}.

(** [self.dirs], set once by the constructor. *)
Definition dirs (b : GameBoard) : list nat := generate_dirs (grid_len b).

(** [clone]: the copy shares nothing with the original, which a value
    already guarantees. *)
Definition clone (b : GameBoard) : GameBoard :=
  {| grid_len := grid_len b; grid := grid b |}.

Definition wf_board (b : GameBoard) : Prop :=
  has_shape (grid_len b) (grid_len b) (grid b).

(** [insert_tile]: [None] is numpy's IndexError for a position outside the
    grid.  Positions are naturals, as [get_available_cells] produces them;
    Python's negative indices are left out. *)
Definition insert_tile (b : GameBoard) (pos : nat * nat) (value : Z)
  : option GameBoard :=
  match grid b !! fst pos with
  | Some r =>
      if bool_decide (snd pos < length r)%nat
      then Some {| grid_len := grid_len b;
                   grid := <[fst pos := <[snd pos := value]> r]> (grid b) |}
      else None
  | None => None
  end.

(** [get_available_cells]: the empty cells, row by row. *)
Definition get_available_cells (b : GameBoard) : list (nat * nat) :=
  x ← seq 0 (grid_len b);
  y ← seq 0 (grid_len b);
  if cell (grid b) x y =? 0 then [(x, y)] else [].

(** [get_cell_value]: [None] is numpy's IndexError for a position outside
    the grid; positions are naturals, as for [insert_tile]. *)
Definition get_cell_value (b : GameBoard) (pos : nat * nat) : option Z :=
  match grid b !! fst pos with
  | Some r => r !! snd pos
  | None => None
  end.

(** The three calls shared by the four branches of [move]. *)
Definition compress (z1 z2 a : ndarray) : ndarray :=
  justify_left (merge (justify_left a z1)) z2.

(** [move(dir, get_avail_call)]: the board after the call, and the value
    returned: [Some changed] when [get_avail_call] is set, [None] (Python's
    None) otherwise. *)
Definition move (b : GameBoard) (dir : nat) (get_avail_call : bool)
  : GameBoard * option bool :=
  let clone_grid := grid (clone b) in
  let z1 := np_zeros (grid_len b) (grid_len b) in
  let z2 := np_zeros (grid_len b) (grid_len b) in
  let g :=
    match dir with
    | 0%nat => flip_cols (transpose (compress z1 z2 (transpose (flip_cols (grid b)))))
    | 1%nat => transpose (flip_cols (compress z1 z2 (flip_cols (transpose (grid b)))))
    | 2%nat => compress z1 z2 (grid b)
    | 3%nat => flip_rows (flip_cols (compress z1 z2 (flip_rows (flip_cols (grid b)))))
    | _ => grid b
    end in
  ({| grid_len := grid_len b; grid := g |},
   if get_avail_call then Some (negb (np_all_eq clone_grid g)) else None).

(** The board left by [move]. *)
Definition moved (b : GameBoard) (dir : nat) : GameBoard :=
  fst (move b dir false).

(** [get_available_moves()], with [dirs] left at its default. *)
Definition get_available_moves (b : GameBoard) : list nat :=
  let a1 := get_available_from_zeros (grid b) in
  foldl (fun available_moves x =>
           if negb (flag a1 x)
           then match snd (move (clone b) x true) with
                | Some true => available_moves ++ [x]
                | _ => available_moves
                end
           else available_moves ++ [x])
        [] (dirs b).

(** [calculate_move_score(original_grid)]. *)
Definition calculate_move_score (b : GameBoard) (original_grid : ndarray) : Z :=
  foldl (fun score i =>
    foldl (fun score j =>
      let current_value := cell (grid b) i j in
      let original_value := cell original_grid i j in
      if (original_value <? current_value) && negb (current_value =? 0)
      then score + current_value else score)
      score (seq 0 (grid_len b)))
    0 (seq 0 (grid_len b)).

(** The board left by [insert_tile].  The searches pass it cells that
    [get_available_cells] returned, which lie inside the grid
    ([insert_available_cell]); for any other position the source raises
    IndexError, and the board is returned as it is. *)
Definition inserted (b : GameBoard) (pos : nat * nat) (value : Z) : GameBoard :=
  default b (insert_tile b pos value).

(** ** ai.py *)

Inductive AIStrategy := EXPECTIMAX | MINIMAX | MCTS.

(** The arithmetic of the search: Python's [+], [-], [*], [/] on floats,
    the conversion of an int operand, and the literals [.9] and [.1]. *)
Record arith_ops (F : Type) := ArithOps {
  of_int : Z → F;
  lit_09 : F;
  lit_01 : F;
  fadd : F → F → F;
  fsub : F → F → F;
  fmul : F → F → F;
  fdiv : F → F → F }.

Arguments of_int {F}.
Arguments lit_09 {F}.
Arguments lit_01 {F}.
Arguments fadd {F}.
Arguments fsub {F}.
Arguments fmul {F}.
Arguments fdiv {F}.

(** The rest of float64 as [ai.py] uses it: the infinities, [x ** k],
    [np.sqrt], [np.abs], the comparisons [>=], [>], [<], and [np.sum] of a
    2-D array. *)
Record float_ops (F : Type) := FloatOps {
  arith :> arith_ops F;
  neg_inf : F;
  pos_inf : F;
  fpow : F → Z → F;
  fsqrt : F → F;
  fabs : F → F;
  fge : F → F → bool;
  fgt : F → F → bool;
  flt : F → F → bool;
  np_sum : list (list F) → F }.

Arguments arith {F}.
Arguments neg_inf {F}.
Arguments pos_inf {F}.
Arguments fpow {F}.
Arguments fsqrt {F}.
Arguments fabs {F}.
Arguments fge {F}.
Arguments fgt {F}.
Arguments flt {F}.
Arguments np_sum {F}.

(** The utility tuple; [ut0] is index 0. *)
Record utility_tuple (F : Type) := Ut { ut0 : F; ut1 : F; ut2 : F; ut3 : F }.

Arguments Ut {F}.
Arguments ut0 {F}.
Arguments ut1 {F}.
Arguments ut2 {F}.
Arguments ut3 {F}.

(** The candidate tile placements of [chance]: each empty cell with a 2
    and with a 4, and the weight of the placement. *)
Definition chance_weight {F} (A : arith_ops F) (p : F) (n_empty : nat) : F :=
  fmul A p (fdiv A (of_int A 1) (of_int A (Z.of_nat n_empty))).

Definition possible_tiles {F} (A : arith_ops F) (empty_cells : list (nat * nat))
  : list (nat * nat * Z * F) :=
  let n_empty := length empty_cells in
  let chance_2 := chance_weight A (lit_09 A) n_empty in
  let chance_4 := chance_weight A (lit_01 A) n_empty in
  empty_cell ← empty_cells;
  [(empty_cell, 2, chance_2); (empty_cell, 4, chance_4)].

Section search.
Context {F : Type} (ops : float_ops F).

Definition fitem (r : list F) (j : nat) : F := default (of_int ops 0) (r !! j).
Definition fcell (a : list (list F)) (i j : nat) : F :=
  fitem (default [] (a !! i)) j.

(** [eval_board(board, n_empty)]. *)
Definition eval_board (board : GameBoard) (n_empty : nat) : utility_tuple F :=
  let grid := grid board in
  let big_t := np_sum ops ((fun r : list Z => (fun v => fpow ops (of_int ops v) 2) <$> r) <$> grid) in
  let s_grid := (fun r : list Z => (fun v => fsqrt ops (of_int ops v)) <$> r) <$> grid in
  let smoothness :=
    foldl (fun smoothness i =>
      foldl (fun smoothness j =>
        fsub ops smoothness (fabs ops (fsub ops (fcell s_grid i j) (fcell s_grid i (j + 1)))))
        smoothness (seq 0 (shape1 grid - 1)))
      (of_int ops 0) (seq 0 (shape0 grid)) in
  let smoothness :=
    foldl (fun smoothness j =>
      foldl (fun smoothness i =>
        fsub ops smoothness (fabs ops (fsub ops (fcell s_grid i j) (fcell s_grid (i + 1) j))))
        smoothness (seq 0 (shape0 grid - 1)))
      smoothness (seq 0 (shape1 grid)) in
  let empty_w := 100000 in
  let smoothness_w := 3 in
  let empty_u := Z.of_nat n_empty * empty_w in
  let smooth_u := fpow ops smoothness smoothness_w in
  let big_t_u := big_t in
  let utility := fadd ops (of_int ops 0) big_t in
  let utility := fadd ops utility (of_int ops empty_u) in
  let utility := fadd ops utility smooth_u in
  Ut utility (of_int ops empty_u) smooth_u big_t_u.

(** [(float('-inf'), 0, 0, 0)] with no move, and [[0, 0, 0, 0]]. *)
Definition no_move : option nat * utility_tuple F :=
  (None, Ut (neg_inf ops) (of_int ops 0) (of_int ops 0) (of_int ops 0)).

Definition zero_utility : utility_tuple F :=
  Ut (of_int ops 0) (of_int ops 0) (of_int ops 0) (of_int ops 0).

(** The value [maximize] returns once [depth >= max_depth]. *)
Definition static_eval (board : GameBoard) : option nat * utility_tuple F :=
  (None, eval_board board (length (get_available_cells board))).

(** [utility_sum[i] += utility[i] * t[2]] for the four indices. *)
Definition accumulate (utility_sum utility : utility_tuple F) (w : F) : utility_tuple F :=
  Ut (fadd ops (ut0 utility_sum) (fmul ops (ut0 utility) w))
     (fadd ops (ut1 utility_sum) (fmul ops (ut1 utility) w))
     (fadd ops (ut2 utility_sum) (fmul ops (ut2 utility) w))
     (fadd ops (ut3 utility_sum) (fmul ops (ut3 utility) w)).

(** The adaptive depth limit of [chance]: [max(3, int(5 / (grid_len / 4)))],
    which is [max(3, 20 // grid_len)] for every [grid_len >= 1]. *)
Definition chance_max_depth (board : GameBoard) : nat :=
  Nat.max 3 (20 / grid_len board).

(** [maximize] and [chance] call each other with [depth] growing towards
    the limit 3; [fuel] bounds the number of nested calls, and
    [maximize_fuel_stable] and [chance_fuel_stable] show that the bound
    of [maximize] and [chance] below is never reached. *)
Fixpoint maximize_fuel (fuel : nat) (board : GameBoard) (depth max_depth : nat)
  : option nat * utility_tuple F :=
  match fuel with
  | O => static_eval board
  | S fuel =>
      if bool_decide (max_depth ≤ depth)%nat then static_eval board
      else
        let moves := get_available_moves board in
        let moves_boards := (fun m => (m, moved (clone board) m)) <$> moves in
        foldl (fun best mb =>
                 let utility := chance_fuel fuel (snd mb) (depth + 1) in
                 if fge ops (ut0 utility) (ut0 (snd best))
                 then (Some (fst mb), utility)
                 else best)
              no_move moves_boards
  end
with chance_fuel (fuel : nat) (board : GameBoard) (depth : nat) : utility_tuple F :=
  match fuel with
  | O => eval_board board (length (get_available_cells board))
  | S fuel =>
      let empty_cells := get_available_cells board in
      let n_empty := length empty_cells in
      let max_depth := chance_max_depth board in
      if bool_decide (grid_len board * 2 ≤ n_empty)%nat
         && bool_decide (max_depth ≤ depth)%nat
      then eval_board board n_empty
      else if bool_decide (n_empty = 0%nat)
      then snd (maximize_fuel fuel board (depth + 1) 3)
      else
        foldl (fun utility_sum t =>
                 let t_board := inserted (clone board) (fst (fst t)) (snd (fst t)) in
                 let utility := snd (maximize_fuel fuel t_board (depth + 1) 3) in
                 accumulate utility_sum utility (snd t))
              zero_utility (possible_tiles ops empty_cells)
  end.

Definition maximize (board : GameBoard) (depth max_depth : nat)
  : option nat * utility_tuple F :=
  maximize_fuel 8 board depth max_depth.

Definition chance (board : GameBoard) (depth : nat) : utility_tuple F :=
  chance_fuel 7 board depth.

(** Python's [max(a, b)] and [min(a, b)]: the first argument is kept
    unless the second is strictly beyond it. *)
Definition py_max (a b : F) : F := if fgt ops b a then b else a.
Definition py_min (a b : F) : F := if flt ops b a then b else a.

(** The inner function [minimax] of [minimax_move]. *)
Fixpoint minimax (board : GameBoard) (depth : nat) (is_maximizing : bool) : F :=
  match depth with
  | O => ut0 (eval_board board (length (get_available_cells board)))
  | S depth' =>
      if bool_decide (length (get_available_moves board) = 0%nat)
      then ut0 (eval_board board (length (get_available_cells board)))
      else if is_maximizing then
        foldl (fun max_eval move =>
                 let board_copy := moved (clone board) move in
                 let empty_cells := get_available_cells board_copy in
                 let board_copy :=
                   match empty_cells with
                   | worst_tile_pos :: _ => inserted board_copy worst_tile_pos 4
                   | [] => board_copy
                   end in
                 let eval_score := minimax board_copy depth' false in
                 py_max max_eval eval_score)
              (neg_inf ops) (get_available_moves board)
      else
        foldl (fun min_eval cell =>
                 let board_copy := inserted (clone board) cell 4 in
                 let eval_score := minimax board_copy depth' true in
                 py_min min_eval eval_score)
              (pos_inf ops) (get_available_cells board)
  end.

(** [minimax_move(board, max_depth)], for [max_depth >= 1]. *)
Definition minimax_move (board : GameBoard) (max_depth : nat) : option nat :=
  fst (foldl (fun best move =>
                let board_copy := moved (clone board) move in
                let empty_cells := get_available_cells board_copy in
                let board_copy :=
                  match empty_cells with
                  | worst_tile_pos :: _ => inserted board_copy worst_tile_pos 4
                  | [] => board_copy
                  end in
                let score := minimax board_copy (max_depth - 1) false in
                if fgt ops score (snd best) then (Some move, score) else best)
             (None, neg_inf ops) (get_available_moves board)).

(** [get_move].  [World] is what a call may read and change besides its
    arguments: the state of the random number generator and the clock.
    [mcts_move] runs until a wall-clock budget is used up and is taken as
    given.  The last branch of the source raises ValueError for a strategy
    that is no member of the enumeration; the type has no such value. *)
Context {World : Type} (mcts_move : GameBoard → World → option nat * World).

Definition get_move (strategy : AIStrategy) (board : GameBoard) (w : World)
  : option nat * World :=
  match strategy with
  | EXPECTIMAX => (fst (maximize board 0 3), w)
  | MINIMAX => (minimax_move board 3, w)
  | MCTS => mcts_move board w
  end.

End search.

(** *** IEEE binary64 *)

(** The float64 nearest to [m * 2^e], ties to even, and an infinity beyond
    the range of the format. *)
Definition float_round (m e : Z) : float :=
  SF2Prim (binary_normalize prec emax m e false).

(** The conversion of an integer operand to float64. *)
Definition float_of_int (z : Z) : float := float_round z 0.

(** [x ** k] for an integer [k]: the power taken exactly and rounded once,
    with the values of C's [pow] at zeros, infinities and NaN.  A power
    that float64 represents is returned as it is, as [pow] returns it. *)
Definition float_pow (x : float) (k : Z) : float :=
  if k =? 0 then PrimFloat.one
  else
    match Prim2SF x with
    | S754_nan => PrimFloat.nan
    | S754_zero s =>
        if 0 <? k then SF2Prim (S754_zero (s && Z.odd k))
        else SF2Prim (S754_infinity (s && Z.odd k))
    | S754_infinity s =>
        if 0 <? k then SF2Prim (S754_infinity (s && Z.odd k))
        else SF2Prim (S754_zero (s && Z.odd k))
    | S754_finite s m e =>
        if 0 <? k
        then SF2Prim (binary_round prec emax (s && Z.odd k)
                        (m ^ Z.to_pos k)%positive (e * k))
        else
          let '(mz, ez, lz) :=
            SFdiv_core_binary prec emax 1 0
              (Zpos (m ^ Z.to_pos (- k))%positive) (e * - k) in
          SF2Prim (binary_round_aux prec emax (s && Z.odd k) mz ez lz)
    end.

Definition binary64_arith : arith_ops float :=
  {| of_int := float_of_int;
     lit_09 := 0x1.ccccccccccccdp-1%float;
     lit_01 := 0x1.999999999999ap-4%float;
     fadd := PrimFloat.add;
     fsub := PrimFloat.sub;
     fmul := PrimFloat.mul;
     fdiv := PrimFloat.div |}.

(** float64 with Rocq's primitive floats, whose operations round as IEEE
    754 asks.  [np_sum] adds the cells left to right: on a board the cells
    summed are squares of tiles, and as long as their sum stays below 2^53
    every partial sum is exact, so that the order in which numpy adds them
    does not show.  [x ** k] is rounded once; C's [pow], which numpy
    calls, returns the same value whenever float64 represents the power
    and stays within one unit in the last place of it otherwise. *)
Definition binary64 : float_ops float :=
  {| arith := binary64_arith;
     neg_inf := PrimFloat.neg_infinity;
     pos_inf := PrimFloat.infinity;
     fpow := float_pow;
     fsqrt := PrimFloat.sqrt;
     fabs := PrimFloat.abs;
     fge := fun x y => PrimFloat.leb y x;
     fgt := fun x y => PrimFloat.ltb y x;
     flt := PrimFloat.ltb;
     np_sum := fun a => foldl PrimFloat.add PrimFloat.zero (concat a) |}.

(** ** Reference definitions for the properties *)

(** The value the merges of one move produce, read off the loop of
    [merge]: each time the loop doubles a tile, the doubled value is
    added. *)
Definition merge_gain_step (st : list Z * Z) (j : nat) : list Z * Z :=
  let r := fst st in
  if (item r j =? item r (j + 1)) && negb (item r j =? 0)
  then (merge_step r j, snd st + item r j * 2)
  else st.

Definition merge_gain_row (m : nat) (r : list Z) : Z :=
  snd (foldl merge_gain_step (r, 0) (seq 0 (m - 1))).

(** Merging as the specification words it: a tile equal to its right
    neighbour is doubled and the neighbour emptied, and the scan goes on
    behind the pair, so that no tile takes part in two merges. *)
Fixpoint merge_once (r : list Z) : list Z :=
  match r with
  | [] => []
  | x :: r' =>
      match r' with
      | [] => [x]
      | y :: t =>
          if (x =? y) && negb (x =? 0)
          then x * 2 :: 0 :: merge_once t
          else x :: merge_once r'
      end
  end.

(** The orientation [move] applies before compressing, and the one it
    applies after. *)
Definition orient (dir : nat) (a : ndarray) : ndarray :=
  match dir with
  | 0%nat => transpose (flip_cols a)
  | 1%nat => flip_cols (transpose a)
  | 2%nat => a
  | _ => flip_rows (flip_cols a)
  end.

Definition restore (dir : nat) (a : ndarray) : ndarray :=
  match dir with
  | 0%nat => flip_cols (transpose a)
  | 1%nat => transpose (flip_cols a)
  | 2%nat => a
  | _ => flip_rows (flip_cols a)
  end.

(** The total value of the tiles that the merges of [move(dir)] produce on
    board [b]. *)
Definition merged_total (b : GameBoard) (dir : nat) : Z :=
  let z1 := np_zeros (grid_len b) (grid_len b) in
  let a := justify_left (orient dir (grid b)) z1 in
  foldr Z.add 0 (merge_gain_row (shape1 a) <$> a).

(** A move is legal when it changes the grid of a clone of the board. *)
Definition legal (b : GameBoard) (dir : nat) : Prop :=
  grid (moved (clone b) dir) ≠ grid b.

(** The sum of the cells of a row and of an array. *)
Definition sumZ (r : list Z) : Z := foldr Z.add 0 r.
Definition grid_sum (a : ndarray) : Z := sumZ (sumZ <$> a).

(** The tiles of a row, in order. *)
Definition tiles (r : list Z) : list Z := filter (fun v => v ≠ 0) r.

(** A packed row: its tiles, then zeros up to length [m]. *)
Definition pack (m : nat) (r : list Z) : list Z :=
  tiles r ++ replicate (m - length (tiles r)) 0.

(** The move to the left on one row. *)
Definition left_row (n : nat) (r : list Z) : list Z :=
  pack n (merge_row n (pack n r)).

(** The first empty cell of a board in row-major order. *)
Definition is_empty_cell (b : GameBoard) (pos : nat * nat) : bool :=
  cell (grid b) (fst pos) (snd pos) =? 0.

Definition row_major (n : nat) : list (nat * nat) :=
  x ← seq 0 n; (fun y => (x, y)) <$> seq 0 n.

Definition first_empty_cell (b : GameBoard) : option (nat * nat) :=
  snd <$> list_find (fun pos => is_empty_cell b pos = true) (row_major (grid_len b)).

(** The opponent of the maximizing layer of Minimax: a 4 at the first
    empty cell, when there is one. *)
Definition worst_case_reply (b : GameBoard) : GameBoard :=
  match first_empty_cell b with
  | Some pos => inserted b pos 4
  | None => b
  end.










(** The score that the top-level loop of [minimax_move] gives a move. *)
Definition move_score {F} (ops : float_ops F) (b : GameBoard)
  (max_depth move : nat) : F :=
  minimax ops (worst_case_reply (moved (clone b) move)) (max_depth - 1) false.

(** A position is before another in row-major order. *)
Definition before (p q : nat * nat) : Prop :=
  (fst p < fst q)%nat ∨ (fst p = fst q ∧ snd p < snd q)%nat.


(** One iteration of a loop that keeps one candidate: the state is the
    candidate kept so far, and [c] replaces it when [beats] says so. *)
Definition keep_step {C S} (beats : S → C → bool) (kept : C → S) (st : S) (c : C) : S :=
  if beats st c then kept c else st.

(** *** The cells the zero scan has seen *)

(** A cell of an array whose rows may have different lengths: the cells
    scanned so far form such an array. *)
Definition lookup2 (P : ndarray) (i j : nat) : option Z :=
  P !! i ≫= (fun r : list Z => r !! j).

Definition zero_at (P : ndarray) (i j : nat) : Prop := lookup2 P i j = Some 0.
Definition tile_at (P : ndarray) (i j : nat) : Prop :=
  ∃ v, lookup2 P i j = Some v ∧ 0 < v.

(** An empty cell with a tile further along, in each direction. *)
Definition can_up (P : ndarray) : Prop :=
  ∃ i0 i1 j, (i0 < i1)%nat ∧ zero_at P i0 j ∧ tile_at P i1 j.
Definition can_down (P : ndarray) : Prop :=
  ∃ i0 i1 j, (i0 < i1)%nat ∧ tile_at P i0 j ∧ zero_at P i1 j.
Definition can_left (P : ndarray) : Prop :=
  ∃ i j0 j1, (j0 < j1)%nat ∧ zero_at P i j0 ∧ tile_at P i j1.
Definition can_right (P : ndarray) : Prop :=
  ∃ i j0 j1, (j0 < j1)%nat ∧ tile_at P i j0 ∧ zero_at P i j1.

(** [P'] has every cell of [P]. *)
Definition extends (P P' : ndarray) : Prop :=
  ∀ i j v, lookup2 P i j = Some v → lookup2 P' i j = Some v.

Record scan_inv (P : ndarray) (s : zero_scan) : Prop := ScanInv {
  inv_uc : uc s = true → can_up P;
  inv_dc : dc s = true → can_down P;
  inv_lc : lc s = true → can_left P;
  inv_rc : rc s = true → can_right P;
  inv_v0 : ∀ j, flag (v_saw_0 s) j = true → ∃ i, zero_at P i j;
  inv_v1 : ∀ j, flag (v_saw_1 s) j = true → ∃ i, tile_at P i j }.

Record row_inv (P : ndarray) (i : nat) (s : zero_scan) : Prop := RowInv {
  inv_s0 : saw_0 s = true → ∃ j, zero_at P i j;
  inv_s1 : saw_1 s = true → ∃ j, tile_at P i j }.


(** Boards used as examples. *)
Definition grid4 (r0 r1 r2 r3 : list Z) : GameBoard :=
  {| grid_len := 4; grid := [r0; r1; r2; r3] |}.

Definition empty_row : list Z := [0; 0; 0; 0].

(** Two legal moves, Left and Right; after either, the one empty cell is
    filled and no move remains. *)
Definition tie_board : GameBoard :=
  grid4 [8; 8; 32; 64] [128; 256; 128; 256] [256; 128; 256; 128] [128; 256; 128; 256].

(** ** More of game_board.py *)

(** [np.amax] of an array; [None] is the ValueError that numpy raises for
    an array with no element. *)
Definition np_amax (a : ndarray) : option Z :=
  match concat a with
  | [] => None
  | x :: l => Some (foldl Z.max x l)
  end.

(** [get_max_tile]. *)
Definition get_max_tile (b : GameBoard) : option Z := np_amax (grid b).

(** ** main.py *)

(** The fields of [GameGrid] that the game loop reads and writes; the
    widgets, the pause and step controls and the timers are left out. *)
Record GameGrid := MkGameGrid {
  board : GameBoard;
  score : Z;
  move_count : Z;
  max_tile : Z;
  game_over : bool }.

Section game.
Context {F : Type} (ops : float_ops F).
Context {World : Type} (mcts_move : GameBoard → World → option nat * World).

(** [randint(a, b)] of the module [random]: the integer drawn and the
    generator after the draw. *)
Context (randint : nat → nat → World → nat * World).

(** [add_random_tile]: the board, the value returned and the generator.
    [None] is an exception; with draws inside the bounds of [randint]
    there is none. *)
Definition add_random_tile (b : GameBoard) (w : World)
  : option (GameBoard * bool * World) :=
  let empty_cells := get_available_cells b in
  match empty_cells with
  | [] => Some (b, false, w)
  | _ :: _ =>
      let (r, w) := randint 0 10 w in
      let new_tile_value := if (r <? 9)%nat then 2 else 4 in
      let (k, w) := randint 0 (length empty_cells - 1) w in
      match empty_cells !! k with
      | Some chosen_cell =>
          match insert_tile b chosen_cell new_tile_value with
          | Some b' => Some (b', true, w)
          | None => None
          end
      | None => None
      end
  end.

(** [init_matrix]. *)
Definition init_matrix (grid_len : nat) (w : World) : option (GameBoard * World) :=
  match add_random_tile (new_board grid_len) w with
  | Some (b, _, w) =>
      match add_random_tile b w with
      | Some (b, _, w) => Some (b, w)
      | None => None
      end
  | None => None
  end.

(** One call of [run_game] in a game that is not paused: the state and the
    generator it leaves.  [None] is an exception inside the [try] block,
    after which the loop is not scheduled again.  [move(None)] matches no
    direction and leaves the board as it is. *)
Definition run_game (strategy : AIStrategy) (g : GameGrid) (w : World)
  : option (GameGrid * World) :=
  if game_over g then Some (g, w)
  else
    let original_grid := grid (board g) in
    let (move, w) := get_move ops mcts_move strategy (board g) w in
    let b := match move with
             | Some dir => moved (board g) dir
             | None => board g
             end in
    let gained := calculate_move_score b original_grid in
    match add_random_tile b w with
    | Some (b, _, w) =>
        match get_max_tile b with
        | Some current_max_tile =>
            Some ({| board := b;
                     score := score g + gained;
                     move_count := move_count g + 1;
                     max_tile := Z.max (max_tile g) current_max_tile;
                     game_over := bool_decide (length (get_available_moves b) = 0%nat) |},
                  w)
        | None => None
        end
    | None => None
    end.

End game.

(** ** Further reference definitions *)

(** What [justify_left] leaves in a row of [out]: the tiles of the row of
    [a], then what [out] held behind them. *)
Definition overwrite_row (r o : list Z) : list Z :=
  tiles r ++ drop (length (tiles r)) o.

(** The move to the right on one row: the move to the left on the
    reversed row. *)
Definition right_row (n : nat) (r : list Z) : list Z :=
  reverse (left_row n (reverse r)).

(** The flags of the zero scan only ever go from false to true. *)
Record scan_le (s s' : zero_scan) : Prop := ScanLe {
  le_uc : uc s = true → uc s' = true;
  le_dc : dc s = true → dc s' = true;
  le_lc : lc s = true → lc s' = true;
  le_rc : rc s = true → rc s' = true;
  le_v0 : ∀ j, flag (v_saw_0 s) j = true → flag (v_saw_0 s') j = true;
  le_v1 : ∀ j, flag (v_saw_1 s) j = true → flag (v_saw_1 s') j = true;
  le_len0 : length (v_saw_0 s') = length (v_saw_0 s);
  le_len1 : length (v_saw_1 s') = length (v_saw_1 s) }.

Record row_le (s s' : zero_scan) : Prop := RowLe {
  le_s0 : saw_0 s = true → saw_0 s' = true;
  le_s1 : saw_1 s = true → saw_1 s' = true }.

(** A row with a zero somewhere before a tile, and a row with two equal
    tiles side by side. *)
Definition has_gap (r : list Z) : Prop :=
  ∃ j0 j1 w, (j0 < j1)%nat ∧ r !! j0 = Some 0 ∧ r !! j1 = Some w ∧ w ≠ 0.

Definition has_pair (r : list Z) : Prop :=
  ∃ j x, r !! j = Some x ∧ r !! S j = Some x ∧ x ≠ 0.

(** An array with a row that has a zero before a tile, or two equal tiles
    side by side; [n] is the side of the array. *)
Definition row_gap (V : ndarray) (n : nat) : Prop :=
  ∃ i j0 j1, (i < n ∧ j0 < j1 ∧ j1 < n)%nat ∧ cell V i j0 = 0 ∧ cell V i j1 ≠ 0.

Definition row_pair (V : ndarray) (n : nat) : Prop :=
  ∃ i j, (i < n ∧ S j < n)%nat ∧ cell V i j ≠ 0 ∧ cell V i j = cell V i (S j).

(** The cells of a board that let tiles slide in a direction: an empty
    cell with a tile behind it. *)
Definition zero_above_tile (b : GameBoard) : Prop :=
  ∃ i0 i1 j, (i0 < i1 ∧ i1 < grid_len b ∧ j < grid_len b)%nat
             ∧ cell (grid b) i0 j = 0 ∧ cell (grid b) i1 j ≠ 0.

Definition tile_above_zero (b : GameBoard) : Prop :=
  ∃ i0 i1 j, (i0 < i1 ∧ i1 < grid_len b ∧ j < grid_len b)%nat
             ∧ cell (grid b) i0 j ≠ 0 ∧ cell (grid b) i1 j = 0.

Definition zero_left_of_tile (b : GameBoard) : Prop :=
  ∃ i j0 j1, (i < grid_len b ∧ j0 < j1 ∧ j1 < grid_len b)%nat
             ∧ cell (grid b) i j0 = 0 ∧ cell (grid b) i j1 ≠ 0.

Definition tile_left_of_zero (b : GameBoard) : Prop :=
  ∃ i j0 j1, (i < grid_len b ∧ j0 < j1 ∧ j1 < grid_len b)%nat
             ∧ cell (grid b) i j0 ≠ 0 ∧ cell (grid b) i j1 = 0.

(** Two equal tiles next to each other in a row, and in a column. *)
Definition equal_in_row (b : GameBoard) : Prop :=
  ∃ i j, (i < grid_len b ∧ S j < grid_len b)%nat
         ∧ cell (grid b) i j ≠ 0 ∧ cell (grid b) i j = cell (grid b) i (S j).

Definition equal_in_column (b : GameBoard) : Prop :=
  ∃ i j, (S i < grid_len b ∧ j < grid_len b)%nat
         ∧ cell (grid b) i j ≠ 0 ∧ cell (grid b) i j = cell (grid b) (S i) j.

Definition can_slide (b : GameBoard) (dir : nat) : Prop :=
  match dir with
  | 0%nat => zero_above_tile b
  | 1%nat => tile_above_zero b
  | 2%nat => zero_left_of_tile b
  | 3%nat => tile_left_of_zero b
  | _ => False
  end.

Definition can_merge (b : GameBoard) (dir : nat) : Prop :=
  match dir with
  | 0%nat | 1%nat => equal_in_column b
  | 2%nat | 3%nat => equal_in_row b
  | _ => False
  end.

(** Boards with no tile, with no empty cell, and with no two equal
    neighbours. *)
Definition all_empty (b : GameBoard) : Prop :=
  ∀ i j, (i < grid_len b)%nat → (j < grid_len b)%nat → cell (grid b) i j = 0.

Definition full (b : GameBoard) : Prop :=
  ∀ i j, (i < grid_len b)%nat → (j < grid_len b)%nat → cell (grid b) i j ≠ 0.

Definition no_equal_neighbours (b : GameBoard) : Prop :=
  (∀ i j, (i < grid_len b)%nat → (S j < grid_len b)%nat →
          cell (grid b) i j ≠ cell (grid b) i (S j))
  ∧ (∀ i j, (S i < grid_len b)%nat → (j < grid_len b)%nat →
            cell (grid b) i j ≠ cell (grid b) (S i) j).

(** A cell of the game holds 0 or a tile, a power of two from 2 on. *)
Definition tile_value (v : Z) : Prop := v = 0 ∨ ∃ k : nat, v = 2 ^ Z.of_nat (S k).

Definition all_cells (P : Z → Prop) (a : ndarray) : Prop := Forall (Forall P) a.

Definition valid_board (b : GameBoard) : Prop :=
  wf_board b ∧ all_cells tile_value (grid b).

(** What [randint(a, b)] promises: an integer N with a <= N <= b. *)
Definition randint_in_range {World}
  (randint : nat → nat → World → nat * World) : Prop :=
  ∀ a b w, (a ≤ b)%nat → (a ≤ fst (randint a b w) ≤ b)%nat.

(** A generator that draws the lower bound every time. *)
Definition lowest_draw (a b : nat) (w : unit) : nat * unit := (a, w).

(** A game in its first state on a given board. *)
Definition game_on (b : GameBoard) : GameGrid :=
  {| board := b; score := 0; move_count := 0; max_tile := 0; game_over := false |}.

(** A board on which the move Left leaves one empty cell, and on which a
    move is still available once that cell is filled. *)
Definition crowded_board : GameBoard :=
  grid4 [2; 2; 8; 16] [32; 64; 32; 64] [64; 32; 64; 32] [64; 128; 32; 64].

(** The number of empty cells of an array, as a sum of marks: 1 for an
    empty cell and 0 for a tile. *)
Definition empty_mark (v : Z) : Z := if v =? 0 then 1 else 0.
Definition marks (a : ndarray) : ndarray :=
  (fun r : list Z => empty_mark <$> r) <$> a.
Definition empty_count (a : ndarray) : Z := grid_sum (marks a).

(** ** The objects of the program *)

(** The pure functions above take a board to a new board.  The program
    has board objects instead, which [move] and [insert_tile] change in
    place and which [clone] copies, and arrays that several views can
    share.  This section models them: a heap of array buffers and of
    board objects, each known by its address, and next to it the state of
    the random number generator and of the clock. *)

(** A view of a buffer: [a[:, ::-1]], [a[::-1, :]] and [a.T] give a view
    of the buffer that [a] is a view of. *)
Inductive view_op := FlipCols | FlipRows | Transposed.

Definition apply_view (a : ndarray) (o : view_op) : ndarray :=
  match o with
  | FlipCols => flip_cols a
  | FlipRows => flip_rows a
  | Transposed => transpose a
  end.

Record View := MkView { base : nat; path : list view_op }.

(** The array that owns buffer [a], and a slice of a view. *)
Definition whole (a : nat) : View := MkView a [].
Definition sliced (v : View) (o : view_op) : View :=
  MkView (base v) (path v ++ [o]).

(** A [GameBoard] object: [grid_len] and the reference [grid]; [dirs] is
    set by the constructor to [generate_dirs(grid_len)] and never
    assigned again. *)
Record BoardObj := MkBoardObj { obj_grid_len : nat; obj_grid : View }.

Record Heap := MkHeap { arrays : list ndarray; boards : list BoardObj }.

(** What an array reads as through a view, and the buffer that makes a
    view read as a given array: the three operations undo themselves. *)
Definition seen (buffer : ndarray) (v : View) : ndarray :=
  foldl apply_view buffer (path v).
Definition unseen (a : ndarray) (v : View) : ndarray :=
  foldl apply_view a (reverse (path v)).

(** The board that the object at address [p] holds. *)
Definition snapshot (h : Heap) (p : nat) : option GameBoard :=
  match boards h !! p with
  | Some o =>
      match arrays h !! base (obj_grid o) with
      | Some buffer => Some {| grid_len := obj_grid_len o;
                               grid := seen buffer (obj_grid o) |}
      | None => None
      end
  | None => None
  end.

(** A computation on a state: [None] is an exception. *)
Definition M (S A : Type) : Type := S → option (A * S).

Definition ret {S A} (a : A) : M S A := fun s => Some (a, s).

Definition bind {S A B} (c : M S A) (f : A → M S B) : M S B :=
  fun s => match c s with
           | Some (a, s') => f a s'
           | None => None
           end.

Definition raise {S A} : M S A := fun _ => None.

Notation "'let*' x ':=' c1 'in' c2" := (bind c1 (fun x => c2))
  (at level 10, x name, c1 at level 100, c2 at level 200).

(** [for x in l], with the variables the loop assigns as its state. *)
Fixpoint for_each {S A B} (l : list B) (a : A) (body : A → B → M S A) : M S A :=
  match l with
  | [] => ret a
  | x :: l => let* a' := body a x in for_each l a' body
  end.

Section objects.
Context {F : Type} (ops : float_ops F) {World : Type}.

Definition Py (A : Type) : Type := M (Heap * World) A.

(** Allocation of a buffer and of an object, at the next free address. *)
Definition new_array (a : ndarray) : Py nat :=
  fun s => Some (length (arrays (fst s)),
                 (MkHeap (arrays (fst s) ++ [a]) (boards (fst s)), snd s)).

Definition new_object (o : BoardObj) : Py nat :=
  fun s => Some (length (boards (fst s)),
                 (MkHeap (arrays (fst s)) (boards (fst s) ++ [o]), snd s)).

(** The fields of [self], and the assignment [self.grid = v]. *)
Definition get_object (self : nat) : Py BoardObj :=
  fun s => match boards (fst s) !! self with
           | Some o => Some (o, s)
           | None => None
           end.

Definition set_grid (self : nat) (v : View) : Py unit :=
  fun s => match boards (fst s) !! self with
           | Some o =>
               Some (tt, (MkHeap (arrays (fst s))
                            (<[self := MkBoardObj (obj_grid_len o) v]> (boards (fst s))),
                          snd s))
           | None => None
           end.

(** An array read through a view, and written through it. *)
Definition read_array (v : View) : Py ndarray :=
  fun s => match arrays (fst s) !! base v with
           | Some buffer => Some (seen buffer v, s)
           | None => None
           end.

Definition write_array (v : View) (a : ndarray) : Py unit :=
  fun s => match arrays (fst s) !! base v with
           | Some _ =>
               Some (tt, (MkHeap (<[base v := unseen a v]> (arrays (fst s)))
                            (boards (fst s)),
                          snd s))
           | None => None
           end.

(** [a[i][j]] and [a[i][j] = x].  As in [justify_left] on arrays, an
    index outside the array reads 0 and writes nothing. *)
Definition get_item (a : View) (i j : nat) : Py Z :=
  let* va := read_array a in
  ret (cell va i j).

Definition set_item (a : View) (i j : nat) (x : Z) : Py unit :=
  let* va := read_array a in
  write_array a (<[i := <[j := x]> (default [] (va !! i))]> va).

(** The value of [self] for a method that only reads it. *)
Definition load (self : nat) : Py GameBoard :=
  let* o := get_object self in
  let* g := read_array (obj_grid o) in
  ret {| grid_len := obj_grid_len o; grid := g |}.

(** *** game_board.py on objects *)

(** [merge(a)] changes [a] in place and returns it; no other array takes
    part. *)
Definition merge_obj (a : View) : Py View :=
  let* va := read_array a in
  let* _ := write_array a (merge va) in
  ret a.

(** [justify_left(a, out)] reads [a] and writes [out] cell by cell, so
    that the two may be views of one buffer; it returns [out]. *)
Definition justify_left_obj (a out : View) : Py View :=
  let* va := read_array a in
  let* _ :=
    for_each (seq 0 (length va)) tt
      (fun _ i =>
         let* _ :=
           for_each (seq 0 (shape1 va)) 0%nat
             (fun c j =>
                let* x := get_item a i j in
                if negb (x =? 0)
                then
                  let* _ := set_item out i c x in
                  ret (S c)
                else ret c) in
         ret tt) in
  ret out.

(** [GameBoard(grid_len)]. *)
Definition init_obj (grid_len : nat) : Py nat :=
  let* a := new_array (np_zeros grid_len grid_len) in
  new_object (MkBoardObj grid_len (whole a)).

(** [clone]: [np.copy] makes a new buffer. *)
Definition clone_obj (self : nat) : Py nat :=
  let* o := get_object self in
  let* grid_copy := init_obj (obj_grid_len o) in
  let* g := read_array (obj_grid o) in
  let* a := new_array g in
  let* _ := set_grid grid_copy (whole a) in
  ret grid_copy.

(** [insert_tile]: the assignment goes through the view [self.grid] to
    its buffer. *)
Definition insert_tile_obj (self : nat) (pos : nat * nat) (value : Z) : Py unit :=
  let* o := get_object self in
  let* g := read_array (obj_grid o) in
  match g !! fst pos with
  | Some r =>
      if bool_decide (snd pos < length r)%nat
      then write_array (obj_grid o) (<[fst pos := <[snd pos := value]> r]> g)
      else raise
  | None => raise
  end.

Definition get_available_cells_obj (self : nat) : Py (list (nat * nat)) :=
  let* b := load self in
  ret (get_available_cells b).

(** [self.grid = f(self.grid)]. *)
Definition update_grid (self : nat) (f : View → Py View) : Py unit :=
  let* o := get_object self in
  let* g := f (obj_grid o) in
  set_grid self g.

(** The three calls shared by the four branches of [move], each assigned
    to [self.grid]. *)
Definition compress_obj (self : nat) (z1 z2 : nat) : Py unit :=
  let* _ := update_grid self (fun g => justify_left_obj g (whole z1)) in
  let* _ := update_grid self merge_obj in
  update_grid self (fun g => justify_left_obj g (whole z2)).

(** The body of [move] between its two tests of [get_avail_call]. *)
Definition move_grid_obj (self : nat) (dir : nat) : Py unit :=
  let* o := get_object self in
  let* z1 := new_array (np_zeros (obj_grid_len o) (obj_grid_len o)) in
  let* z2 := new_array (np_zeros (obj_grid_len o) (obj_grid_len o)) in
  match dir with
  | 0%nat =>
      let* _ := update_grid self (fun g => ret (sliced (sliced g FlipCols) Transposed)) in
      let* _ := compress_obj self z1 z2 in
      update_grid self (fun g => ret (sliced (sliced g Transposed) FlipCols))
  | 1%nat =>
      let* _ := update_grid self (fun g => ret (sliced (sliced g Transposed) FlipCols)) in
      let* _ := compress_obj self z1 z2 in
      update_grid self (fun g => ret (sliced (sliced g FlipCols) Transposed))
  | 2%nat => compress_obj self z1 z2
  | 3%nat =>
      let* _ := update_grid self (fun g => ret (sliced g FlipCols)) in
      let* _ := update_grid self (fun g => ret (sliced g FlipRows)) in
      let* _ := compress_obj self z1 z2 in
      let* _ := update_grid self (fun g => ret (sliced g FlipCols)) in
      update_grid self (fun g => ret (sliced g FlipRows))
  | _ => ret tt
  end.

(** [move(dir, get_avail_call)]. *)
Definition move_obj (self : nat) (dir : nat) (get_avail_call : bool)
  : Py (option bool) :=
  if get_avail_call
  then
    let* clone := clone_obj self in
    let* _ := move_grid_obj self dir in
    let* vc := load clone in
    let* vs := load self in
    ret (Some (negb (np_all_eq (grid vc) (grid vs))))
  else
    let* _ := move_grid_obj self dir in
    ret None.

(** [get_available_moves()], with [dirs] left at its default. *)
Definition get_available_moves_obj (self : nat) : Py (list nat) :=
  let* b := load self in
  let a1 := get_available_from_zeros (grid b) in
  for_each (generate_dirs (grid_len b)) []
    (fun available_moves x =>
       if negb (flag a1 x)
       then
         let* board_clone := clone_obj self in
         let* changed := move_obj board_clone x true in
         ret (match changed with
              | Some true => available_moves ++ [x]
              | _ => available_moves
              end)
       else ret (available_moves ++ [x])).

(** *** ai.py on objects *)

(** [eval_board] reads the grid of the board and changes nothing. *)
Definition eval_board_obj (board : nat) (n_empty : nat) : Py (utility_tuple F) :=
  let* b := load board in
  ret (eval_board ops b n_empty).

(** [maximize] and [chance], with the bound on nested calls of
    [maximize_fuel]. *)
Fixpoint maximize_obj (fuel : nat) (board : nat) (depth max_depth : nat)
  : Py (option nat * utility_tuple F) :=
  match fuel with
  | O =>
      let* cells := get_available_cells_obj board in
      let* u := eval_board_obj board (length cells) in
      ret (None, u)
  | S fuel =>
      if bool_decide (max_depth ≤ depth)%nat
      then
        let* cells := get_available_cells_obj board in
        let* u := eval_board_obj board (length cells) in
        ret (None, u)
      else
        let* moves := get_available_moves_obj board in
        let* moves_boards :=
          for_each moves []
            (fun moves_boards m =>
               let* m_board := clone_obj board in
               let* _ := move_obj m_board m false in
               ret (moves_boards ++ [(m, m_board)])) in
        for_each moves_boards (no_move ops)
          (fun best mb =>
             let* utility := chance_obj fuel (snd mb) (depth + 1) in
             ret (if fge ops (ut0 utility) (ut0 (snd best))
                  then (Some (fst mb), utility)
                  else best))
  end
with chance_obj (fuel : nat) (board : nat) (depth : nat) : Py (utility_tuple F) :=
  match fuel with
  | O =>
      let* cells := get_available_cells_obj board in
      eval_board_obj board (length cells)
  | S fuel =>
      let* empty_cells := get_available_cells_obj board in
      let n_empty := length empty_cells in
      let* b := load board in
      let max_depth := chance_max_depth b in
      if bool_decide (grid_len b * 2 ≤ n_empty)%nat
         && bool_decide (max_depth ≤ depth)%nat
      then eval_board_obj board n_empty
      else if bool_decide (n_empty = 0%nat)
      then
        let* r := maximize_obj fuel board (depth + 1) 3 in
        ret (snd r)
      else
        for_each (possible_tiles ops empty_cells) (zero_utility ops)
          (fun utility_sum t =>
             let* t_board := clone_obj board in
             let* _ := insert_tile_obj t_board (fst (fst t)) (snd (fst t)) in
             let* r := maximize_obj fuel t_board (depth + 1) 3 in
             ret (accumulate ops utility_sum (snd r) (snd t)))
  end.

(** [get_move]; the two other strategies are taken as given. *)
Context (minimax_move_obj mcts_move_obj : nat → Py (option nat)).

Definition get_move_obj (strategy : AIStrategy) (board : nat) : Py (option nat) :=
  match strategy with
  | EXPECTIMAX =>
      let* r := maximize_obj 8 board 0 3 in
      ret (fst r)
  | MINIMAX => minimax_move_obj board
  | MCTS => mcts_move_obj board
  end.

End objects.

(** *** What a call leaves on the heap *)

(** Every buffer and every object of [h] is in [h'], as it was. *)
Definition heap_le (h h' : Heap) : Prop :=
  arrays h `prefix_of` arrays h' ∧ boards h `prefix_of` boards h'.

(** The computation [c] returns from heap [h], leaves every buffer and
    every object of [h] as it was, and does not touch the generator and the
    clock [w]; [post] holds of the result and the heap left. *)
Definition returns {World A} (c : M (Heap * World) A) (h : Heap) (w : World)
  (post : A → Heap → Prop) : Prop :=
  ∃ a h', c (h, w) = Some (a, (h', w)) ∧ heap_le h h' ∧ post a h'.

(** * Properties of the board engine *)

(** A board given by its rows is well formed by inspection. *)
Ltac wf_concrete := split; [reflexivity | repeat constructor].

(** ** The four directions on examples *)

Example move_left_example :
  grid (moved (grid4 [2; 2; 4; 4] [0; 2; 0; 2] [4; 4; 4; 4] [2; 0; 0; 2]) Left)
  = [[4; 8; 0; 0]; [4; 0; 0; 0]; [8; 8; 0; 0]; [4; 0; 0; 0]].
Proof. reflexivity. Qed.

Example move_right_example :
  grid (moved (grid4 [2; 2; 4; 0] [2; 4; 0; 0] [0; 4; 0; 8] [0; 0; 0; 0]) Right)
  = [[0; 0; 4; 4]; [0; 0; 2; 4]; [0; 0; 4; 8]; [0; 0; 0; 0]].
Proof. reflexivity. Qed.

Example move_up_example :
  grid (moved (grid4 [2; 0; 0; 0] [2; 4; 0; 0] [0; 4; 0; 8] [0; 0; 0; 0]) Up)
  = [[4; 8; 0; 8]; [0; 0; 0; 0]; [0; 0; 0; 0]; [0; 0; 0; 0]].
Proof. reflexivity. Qed.

Example move_down_example :
  grid (moved (grid4 [2; 0; 0; 0] [2; 4; 0; 0] [0; 4; 0; 8] [0; 0; 0; 0]) Down)
  = [[0; 0; 0; 0]; [0; 0; 0; 0]; [0; 0; 0; 0]; [4; 8; 0; 8]].
Proof. reflexivity. Qed.

Example available_moves_example :
  get_available_from_zeros (grid (grid4 [2; 0; 0; 0] empty_row empty_row empty_row))
  = [false; true; false; true]
  ∧ get_available_moves (grid4 [2; 0; 0; 0] empty_row empty_row empty_row)
    = [Down; Right]
  ∧ get_available_from_zeros (grid tie_board) = [false; false; false; false]
  ∧ get_available_moves tie_board = [Left; Right].
Proof. split_and!; reflexivity. Qed.

(** ** Rows as arrays *)


Lemma item_lookup (r : list Z) j v : r !! j = Some v → item r j = v.
Proof. unfold item. by intros ->. Qed.

Lemma item_ge (r : list Z) j : (length r ≤ j)%nat → item r j = 0.
Proof. intros H. unfold item. by rewrite lookup_ge_None_2. Qed.

Lemma item_app_length (pre suf : list Z) x :
  item (pre ++ x :: suf) (length pre) = x.
Proof. unfold item. by rewrite list_lookup_middle. Qed.

Lemma item_nonzero_lt (r : list Z) j : item r j ≠ 0 → (j < length r)%nat.
Proof.
  intros H. destruct (decide (j < length r)%nat) as [|Hge]; [done|].
  exfalso. apply H, item_ge. lia.
Qed.

Lemma item_insert_eq (r : list Z) j v :
  (j < length r)%nat → item (<[j := v]> r) j = v.
Proof. intros H. unfold item. by rewrite list_lookup_insert_eq. Qed.

Lemma item_insert_ne (r : list Z) i j v :
  i ≠ j → item (<[i := v]> r) j = item r j.
Proof. intros H. unfold item. by rewrite list_lookup_insert_ne. Qed.

Lemma sumZ_app (r s : list Z) : sumZ (r ++ s) = sumZ r + sumZ s.
Proof. induction r as [|x r IH]; simpl; [done|]. rewrite IH. lia. Qed.

Lemma sumZ_replicate_0 n : sumZ (replicate n 0) = 0.
Proof. induction n as [|n IH]; simpl; [done|]. by rewrite IH. Qed.

Lemma sumZ_insert (r : list Z) j v :
  (j < length r)%nat → sumZ (<[j := v]> r) = sumZ r - item r j + v.
Proof.
  revert j. induction r as [|x r IH]; intros [|j] H; simpl in *; try lia.
  - unfold item. simpl. lia.
  - rewrite IH by lia. unfold item. simpl. lia.
Qed.

Lemma sumZ_reverse (r : list Z) : sumZ (reverse r) = sumZ r.
Proof.
  induction r as [|x r IH]; [done|].
  rewrite reverse_cons, sumZ_app, IH. simpl. lia.
Qed.

Lemma sumZ_tiles (r : list Z) : sumZ (tiles r) = sumZ r.
Proof.
  unfold tiles. induction r as [|x r IH]; [done|].
  rewrite filter_cons. destruct (decide (x ≠ 0)) as [|Hx]; simpl; rewrite IH; [done|].
  assert (x = 0) by (destruct (decide (x = 0)); [done|contradiction]). lia.
Qed.

Lemma length_tiles_le (r : list Z) : (length (tiles r) ≤ length r)%nat.
Proof. apply length_filter. Qed.

Lemma length_pack m (r : list Z) : (length r ≤ m)%nat → length (pack m r) = m.
Proof.
  intros H. unfold pack. rewrite length_app, length_replicate.
  pose proof (length_tiles_le r). lia.
Qed.

Lemma sumZ_pack m (r : list Z) : sumZ (pack m r) = sumZ r.
Proof. unfold pack. rewrite sumZ_app, sumZ_replicate_0, sumZ_tiles. lia. Qed.

(** ** The inner loop of justify_left *)

Lemma justify_fold (suf pre done : list Z) (k : nat) :
  (length (tiles suf) ≤ k)%nat →
  foldl (justify_step (pre ++ suf)) (length done, done ++ replicate k 0)
        (seq (length pre) (length suf))
  = ((length done + length (tiles suf))%nat,
     done ++ tiles suf ++ replicate (k - length (tiles suf)) 0).
Proof.
  revert pre done k. induction suf as [|x suf IH]; intros pre done k Hk.
  - simpl. f_equal; [lia|]. by rewrite Nat.sub_0_r.
  - simpl seq. simpl foldl. unfold justify_step at 2.
    rewrite item_app_length. simpl fst. simpl snd.
    unfold tiles in *. rewrite filter_cons in *.
    replace (pre ++ x :: suf) with ((pre ++ [x]) ++ suf) by (by rewrite <- app_assoc).
    replace (S (length pre)) with (length (pre ++ [x])) by (rewrite length_app; simpl; lia).
    destruct (decide (x ≠ 0)) as [Hx|Hx].
    + assert ((x =? 0) = false) as -> by (by apply Z.eqb_neq).
      simpl negb. cbv iota. simpl in Hk.
      destruct k as [|k]; [lia|].
      replace (<[length done:=x]> (done ++ replicate (S k) 0))
        with ((done ++ [x]) ++ replicate k 0).
      2:{ rewrite insert_app_r_alt by lia. rewrite Nat.sub_diag. simpl.
          by rewrite <- app_assoc. }
      replace (S (length done)) with (length (done ++ [x])) by (rewrite length_app; simpl; lia).
      rewrite IH by lia. rewrite length_app. simpl.
      f_equal; [lia|]. by rewrite <- app_assoc.
    + assert (x = 0) as -> by (destruct (decide (x = 0)); [done|contradiction]).
      simpl negb. cbv iota. by rewrite IH.
Qed.

Lemma justify_row_pack m (r : list Z) :
  length r = m → justify_row m r (replicate m 0) = pack m r.
Proof.
  intros <-. unfold justify_row.
  pose proof (justify_fold r [] [] (length r) (length_tiles_le r)) as H.
  simpl in H. rewrite H. done.
Qed.

(** ** The inner loop of merge *)

Lemma length_merge_step (r : list Z) j : length (merge_step r j) = length r.
Proof. unfold merge_step. case_match; [|done]. by rewrite !length_insert. Qed.

Lemma length_merge_row m (r : list Z) : length (merge_row m r) = length r.
Proof.
  unfold merge_row. generalize (seq 0 (m - 1)). intros js. revert r.
  induction js as [|j js IH]; intros r; simpl; [done|].
  by rewrite IH, length_merge_step.
Qed.

Lemma sumZ_merge_step (r : list Z) j : sumZ (merge_step r j) = sumZ r.
Proof.
  unfold merge_step. case_match eqn:Hc; [|done].
  apply andb_true_iff in Hc as [He Hn].
  apply Z.eqb_eq in He. apply negb_true_iff, Z.eqb_neq in Hn.
  assert (j + 1 < length r)%nat by (apply item_nonzero_lt; congruence).
  rewrite sumZ_insert by (rewrite length_insert; lia).
  rewrite item_insert_ne by lia.
  rewrite sumZ_insert by lia. lia.
Qed.

Lemma sumZ_merge_row m (r : list Z) : sumZ (merge_row m r) = sumZ r.
Proof.
  unfold merge_row. generalize (seq 0 (m - 1)). intros js. revert r.
  induction js as [|j js IH]; intros r; simpl; [done|].
  by rewrite IH, sumZ_merge_step.
Qed.

(** Iterations behind the first cell leave it alone. *)
Lemma merge_step_cons h (r : list Z) j :
  merge_step (h :: r) (S j) = h :: merge_step r j.
Proof.
  unfold merge_step.
  change (item (h :: r) (S j)) with (item r j).
  change (item (h :: r) (S j + 1)) with (item r (j + 1)).
  by destruct (_ && _).
Qed.

Lemma foldl_merge_step_cons h (r : list Z) s k :
  foldl merge_step (h :: r) (seq (S s) k) = h :: foldl merge_step r (seq s k).
Proof.
  revert s r. induction k as [|k IH]; intros s r; [done|].
  cbn [seq foldl]. by rewrite merge_step_cons, IH.
Qed.

Lemma merge_row_pair x (t : list Z) :
  x ≠ 0 →
  merge_row (length (x :: x :: t)) (x :: x :: t) = x * 2 :: 0 :: merge_row (length t) t.
Proof.
  intros Hx. unfold merge_row. cbn [length]. rewrite Nat.sub_succ, Nat.sub_0_r.
  cbn [seq foldl]. unfold merge_step at 2.
  change (item (x :: x :: t) 0) with x. change (item (x :: x :: t) (0 + 1)) with x.
  rewrite Z.eqb_refl. assert ((x =? 0) = false) as -> by (by apply Z.eqb_neq).
  cbn [andb negb]. change (<[(0 + 1)%nat:=0]> (<[0%nat:=x * 2]> (x :: x :: t)))
    with (x * 2 :: 0 :: t).
  rewrite foldl_merge_step_cons. f_equal.
  destruct t as [|y t]; [done|].
  cbn [length seq foldl]. rewrite Nat.sub_succ, Nat.sub_0_r.
  unfold merge_step at 2. change (item (0 :: y :: t) 0) with 0.
  rewrite (andb_comm _ (negb (0 =? 0))). cbn [Z.eqb negb andb].
  by rewrite foldl_merge_step_cons.
Qed.

Lemma merge_row_skip x y (t : list Z) :
  (x =? y) && negb (x =? 0) = false →
  merge_row (length (x :: y :: t)) (x :: y :: t)
  = x :: merge_row (length (y :: t)) (y :: t).
Proof.
  intros Hc. unfold merge_row. cbn [length]. rewrite !Nat.sub_succ, !Nat.sub_0_r.
  cbn [seq foldl]. unfold merge_step at 2.
  change (item (x :: y :: t) 0) with x. change (item (x :: y :: t) (0 + 1)) with y.
  rewrite Hc. by rewrite foldl_merge_step_cons.
Qed.

(** The loop of [merge] on a row is the merge of the specification: each
    tile merges at most once. *)
Lemma merge_row_once (r : list Z) : merge_row (length r) r = merge_once r.
Proof.
  remember (length r) as n eqn:Hn. revert r Hn.
  induction (lt_wf n) as [n _ IH]. intros r ->.
  destruct r as [|x [|y t]]; [done|done|]. cbn [merge_once].
  destruct ((x =? y) && negb (x =? 0)) eqn:Hc.
  - apply andb_true_iff in Hc as [->%Z.eqb_eq Hx%negb_true_iff%Z.eqb_neq].
    rewrite merge_row_pair by done. do 2 f_equal.
    apply (IH (length t)); [simpl; lia|done].
  - rewrite merge_row_skip by done. f_equal.
    apply (IH (length (y :: t))); [simpl; lia|done].
Qed.

(** ** Shapes *)

Lemma has_shape_lookup n m (a : ndarray) i r :
  has_shape n m a → a !! i = Some r → length r = m.
Proof. intros [_ H] Hi. by eapply (proj1 (Forall_lookup _ _) H). Qed.

Lemma has_shape_shape1 n m (a : ndarray) :
  has_shape n m a → (0 < n)%nat → shape1 a = m.
Proof.
  intros [Hn Hm] Hpos. destruct a as [|r a]; simpl in *; [lia|].
  by inversion Hm.
Qed.

Lemma has_shape_fmap n m m' (f : list Z → list Z) (a : ndarray) :
  (∀ r, length r = m → length (f r) = m') →
  has_shape n m a → has_shape n m' (f <$> a).
Proof.
  intros Hf [Hn Hm]. split; [by rewrite length_fmap|].
  apply Forall_fmap. eapply Forall_impl; [exact Hm|]. intros r Hr. by apply Hf.
Qed.

Lemma has_shape_zeros n m : has_shape n m (np_zeros n m).
Proof.
  split; [apply length_replicate|].
  apply Forall_replicate. apply length_replicate.
Qed.

Lemma has_shape_merge n m (a : ndarray) : has_shape n m a → has_shape n m (merge a).
Proof.
  apply has_shape_fmap. intros r Hr. by rewrite length_merge_row.
Qed.

Lemma has_shape_flip_cols n m (a : ndarray) :
  has_shape n m a → has_shape n m (flip_cols a).
Proof. apply has_shape_fmap. intros r Hr. by rewrite length_reverse. Qed.

Lemma has_shape_flip_rows n m (a : ndarray) :
  has_shape n m a → has_shape n m (flip_rows a).
Proof.
  intros [Hn Hm]. split; [by unfold flip_rows; rewrite length_reverse|].
  by apply Forall_reverse.
Qed.

Lemma has_shape_transpose n (a : ndarray) :
  has_shape n n a → has_shape n n (transpose a).
Proof.
  intros Ha. destruct (decide (n = 0)%nat) as [->|Hn].
  - destruct Ha as [Ha _]. destruct a; [|done]. by split.
  - unfold transpose. rewrite (has_shape_shape1 n n) by (done || lia).
    split; [by rewrite length_fmap, length_seq|].
    apply Forall_fmap, Forall_forall. intros j _. simpl.
    rewrite length_fmap. apply Ha.
Qed.

(** ** justify_left and merge, row by row *)

Lemma justify_rows_pack m (a : ndarray) :
  Forall (fun r => length r = m) a →
  justify_rows m a (replicate (length a) (replicate m 0)) = pack m <$> a.
Proof.
  induction a as [|r a IH]; intros H; [done|].
  inversion H as [|? ? Hr Ha]; subst. simpl.
  rewrite justify_row_pack by done. f_equal. by apply IH.
Qed.

Lemma justify_left_pack n (a : ndarray) :
  has_shape n n a → justify_left a (np_zeros n n) = pack n <$> a.
Proof.
  intros Ha. destruct (decide (n = 0)%nat) as [->|Hn].
  - destruct Ha as [Ha _]. by destruct a.
  - unfold justify_left, np_zeros.
    rewrite (has_shape_shape1 n n) by (done || lia).
    destruct Ha as [<- Ha]. by apply justify_rows_pack.
Qed.

Lemma has_shape_pack n (a : ndarray) :
  has_shape n n a → has_shape n n (pack n <$> a).
Proof. apply has_shape_fmap. intros r Hr. apply length_pack. lia. Qed.


Lemma compress_rows n (a : ndarray) :
  has_shape n n a →
  compress (np_zeros n n) (np_zeros n n) a = left_row n <$> a.
Proof.
  intros Ha. unfold compress.
  rewrite (justify_left_pack n a) by done.
  rewrite justify_left_pack by (by apply has_shape_merge, has_shape_pack).
  unfold merge. destruct (decide (n = 0)%nat) as [->|Hn].
  - destruct Ha as [Ha _]. by destruct a.
  - rewrite (has_shape_shape1 n n) by (by apply has_shape_pack || lia).
    rewrite <- !list_fmap_compose. done.
Qed.

(** The move to the left on a row, in the words of the specification:
    pack, merge each tile at most once, pack again. *)
Lemma left_row_spec n (r : list Z) :
  length r = n → left_row n r = pack n (merge_once (pack n r)).
Proof.
  intros Hr. unfold left_row. f_equal.
  rewrite <- merge_row_once. by rewrite length_pack by lia.
Qed.

Lemma has_shape_left_rows n (a : ndarray) :
  has_shape n n a → has_shape n n (left_row n <$> a).
Proof.
  apply has_shape_fmap. intros r Hr. unfold left_row.
  apply length_pack. rewrite length_merge_row, length_pack; lia.
Qed.

Lemma sumZ_left_row n r : sumZ (left_row n r) = sumZ r.
Proof. unfold left_row. by rewrite sumZ_pack, sumZ_merge_row, sumZ_pack. Qed.

(** ** Cells of the views *)

Lemma cell_lookup (a : ndarray) i j r v :
  a !! i = Some r → r !! j = Some v → cell a i j = v.
Proof. intros Hi Hj. unfold cell. rewrite Hi. simpl. by apply item_lookup. Qed.

Lemma has_shape_cell_lookup n m (a : ndarray) i j :
  has_shape n m a → (i < n)%nat → (j < m)%nat →
  ∃ r, a !! i = Some r ∧ r !! j = Some (cell a i j).
Proof.
  intros Ha Hi Hj.
  destruct (lookup_lt_is_Some_2 a i) as [r Hr]; [destruct Ha; lia|].
  exists r. split; [done|].
  pose proof (has_shape_lookup _ _ _ _ _ Ha Hr) as Hlen.
  destruct (lookup_lt_is_Some_2 r j) as [v Hv]; [lia|].
  by rewrite (cell_lookup _ _ _ _ _ Hr Hv).
Qed.

(** Two arrays of one shape with the same cells are equal. *)
Lemma ndarray_ext n m (a b : ndarray) :
  has_shape n m a → has_shape n m b →
  (∀ i j, (i < n)%nat → (j < m)%nat → cell a i j = cell b i j) → a = b.
Proof.
  intros Ha Hb H. apply list_eq_same_length with n; [apply Hb|apply Ha|].
  intros i r s Hi Hr Hs.
  apply list_eq_same_length with m;
    [by eapply (has_shape_lookup n m b)|by eapply (has_shape_lookup n m a)|].
  intros j x y Hj Hx Hy.
  rewrite <- (cell_lookup _ _ _ _ _ Hr Hx), <- (cell_lookup _ _ _ _ _ Hs Hy).
  by apply H.
Qed.

Lemma item_reverse (r : list Z) j :
  (j < length r)%nat → item (reverse r) j = item r (length r - S j).
Proof. intros H. unfold item. by rewrite reverse_lookup. Qed.

Lemma cell_flip_cols n m (a : ndarray) i j :
  has_shape n m a → (i < n)%nat → (j < m)%nat →
  cell (flip_cols a) i j = cell a i (m - S j).
Proof.
  intros Ha Hi Hj.
  destruct (has_shape_cell_lookup n m a i j Ha Hi Hj) as (r & Hr & _).
  pose proof (has_shape_lookup _ _ _ _ _ Ha Hr) as Hlen.
  unfold cell, flip_cols. rewrite list_lookup_fmap, Hr. simpl.
  rewrite item_reverse by lia. by rewrite Hlen.
Qed.

Lemma cell_flip_rows n m (a : ndarray) i j :
  has_shape n m a → (i < n)%nat →
  cell (flip_rows a) i j = cell a (n - S i) j.
Proof.
  intros [Hn _] Hi. unfold cell, flip_rows.
  rewrite reverse_lookup by lia. by rewrite Hn.
Qed.

Lemma cell_transpose n (a : ndarray) i j :
  has_shape n n a → (i < n)%nat → (j < n)%nat →
  cell (transpose a) i j = cell a j i.
Proof.
  intros Ha Hi Hj. unfold transpose.
  rewrite (has_shape_shape1 n n) by (done || lia).
  destruct (has_shape_cell_lookup n n a j i Ha Hj Hi) as (r & Hr & Hv).
  apply cell_lookup with ((fun r => item r i) <$> a).
  - rewrite list_lookup_fmap, lookup_seq_lt by done. done.
  - rewrite list_lookup_fmap, Hr. simpl. f_equal. by apply item_lookup.
Qed.

Lemma flip_cols_involutive (a : ndarray) : flip_cols (flip_cols a) = a.
Proof.
  unfold flip_cols. rewrite <- list_fmap_compose.
  rewrite <- (list_fmap_id a) at 2. apply list_fmap_ext.
  intros i r _. simpl. apply reverse_involutive.
Qed.

Lemma flip_rows_involutive (a : ndarray) : flip_rows (flip_rows a) = a.
Proof. apply reverse_involutive. Qed.

Lemma flip_rows_cols_comm (a : ndarray) :
  flip_rows (flip_cols a) = flip_cols (flip_rows a).
Proof. unfold flip_rows, flip_cols. by rewrite fmap_reverse. Qed.

Lemma transpose_involutive n (a : ndarray) :
  has_shape n n a → transpose (transpose a) = a.
Proof.
  intros Ha. apply (ndarray_ext n n); [by do 2 apply has_shape_transpose|done|].
  intros i j Hi Hj.
  rewrite (cell_transpose n) by (by apply has_shape_transpose || done).
  by rewrite (cell_transpose n).
Qed.

(** ** Array comparison *)

Lemma row_all_eq_true (r s : list Z) :
  length r = length s → row_all_eq r s = true ↔ r = s.
Proof.
  revert s. induction r as [|x r IH]; intros [|y s] Hlen; simpl in *; try lia.
  - done.
  - unfold row_all_eq in *. simpl. rewrite andb_true_iff, Z.eqb_eq, IH by lia.
    split; [intros [-> ->]; done|]. intros [= -> ->]. done.
Qed.

Lemma np_all_eq_true n m (a b : ndarray) :
  has_shape n m a → has_shape n m b → np_all_eq a b = true ↔ a = b.
Proof.
  revert n b. induction a as [|r a IH]; intros n [|s b] [Hn Ha] [Hn' Hb];
    simpl in *; try lia.
  - done.
  - inversion Ha; inversion Hb; subst.
    unfold np_all_eq in *. simpl.
    rewrite andb_true_iff, row_all_eq_true by congruence.
    rewrite (IH (length a) b) by (split; (done || lia)).
    split; [intros [-> ->]; done|]. intros [= -> ->]. done.
Qed.

(** ** What the zero scan establishes *)

Lemma lookup2_lt (P : ndarray) i j v : lookup2 P i j = Some v → (i < length P)%nat.
Proof.
  unfold lookup2. intros H. destruct (P !! i) as [r|] eqn:Hr; [|done].
  by eapply lookup_lt_Some.
Qed.

Lemma extends_app (P Q : ndarray) : extends P (P ++ Q).
Proof.
  intros i j v H. pose proof (lookup2_lt _ _ _ _ H).
  unfold lookup2 in *. by rewrite lookup_app_l.
Qed.

Lemma extends_take (P : ndarray) (r : list Z) k k' :
  (k ≤ k')%nat → extends (P ++ [take k r]) (P ++ [take k' r]).
Proof.
  intros Hk i j v H. pose proof (lookup2_lt _ _ _ _ H) as Hlt.
  rewrite length_app in Hlt. simpl in Hlt. unfold lookup2 in *.
  destruct (decide (i < length P)%nat).
  - rewrite lookup_app_l in * by done. done.
  - assert (i = length P) as -> by lia.
    rewrite list_lookup_middle in * by done. simpl in *.
    apply lookup_take_Some in H as [H ?]. rewrite lookup_take_lt by lia. done.
Qed.

Lemma tile_at_extends P P' i j : extends P P' → tile_at P i j → tile_at P' i j.
Proof. intros HE (v & H & Hv). exists v. split; [by apply HE|done]. Qed.

Lemma scan_inv_extends P P' s : extends P P' → scan_inv P s → scan_inv P' s.
Proof.
  intros HE [Hu Hd Hl Hr H0 H1]. split.
  - intros H. destruct (Hu H) as (i0 & i1 & j & ? & ? & ?).
    exists i0, i1, j. split_and!; [done|by apply HE|by eapply tile_at_extends].
  - intros H. destruct (Hd H) as (i0 & i1 & j & ? & ? & ?).
    exists i0, i1, j. split_and!; [done|by eapply tile_at_extends|by apply HE].
  - intros H. destruct (Hl H) as (i & j0 & j1 & ? & ? & ?).
    exists i, j0, j1. split_and!; [done|by apply HE|by eapply tile_at_extends].
  - intros H. destruct (Hr H) as (i & j0 & j1 & ? & ? & ?).
    exists i, j0, j1. split_and!; [done|by eapply tile_at_extends|by apply HE].
  - intros j H. destruct (H0 j H) as [i ?]. exists i. by apply HE.
  - intros j H. destruct (H1 j H) as [i ?]. exists i. by eapply tile_at_extends.
Qed.

Lemma row_inv_extends P P' i s : extends P P' → row_inv P i s → row_inv P' i s.
Proof.
  intros HE [H0 H1]. split.
  - intros H. destruct (H0 H) as [j ?]. exists j. by apply HE.
  - intros H. destruct (H1 H) as [j ?]. exists j. by eapply tile_at_extends.
Qed.

Lemma flag_insert (v : list bool) j j' :
  flag (<[j := true]> v) j' = true → j' = j ∨ flag v j' = true.
Proof.
  intros H. destruct (decide (j' = j)) as [|Hne]; [by left|right].
  unfold flag in *. by rewrite list_lookup_insert_ne in H.
Qed.

Section scan_step.
(** The scan reaches cell [(last, k)] of value [v]; [P] holds the cells up
    to and including it. *)
Variables (P : ndarray) (last k : nat) (v : Z).
Hypothesis P_rows : length P = S last.
Hypothesis P_last : ∀ j w, lookup2 P last j = Some w → (j ≤ k)%nat.
Hypothesis P_cell : lookup2 P last k = Some v.

Lemma other_row i w : lookup2 P i k = Some w → w ≠ v → (i < last)%nat.
Proof.
  intros H Hw. pose proof (lookup2_lt _ _ _ _ H).
  destruct (decide (i = last)) as [->|]; [|lia]. congruence.
Qed.

Lemma earlier_cell j w : lookup2 P last j = Some w → w ≠ v → (j < k)%nat.
Proof.
  intros H Hw. pose proof (P_last _ _ H).
  destruct (decide (j = k)) as [->|]; [|lia]. congruence.
Qed.

Lemma scan_zero_inv s :
  v = 0 → scan_inv P s → row_inv P last s →
  scan_inv P (scan_zero s k) ∧ row_inv P last (scan_zero s k).
Proof.
  intros Hz [Hu Hd Hl Hr H0 H1] [Hs0 Hs1].
  assert (zero_at P last k) as Hc by (unfold zero_at; by rewrite P_cell, Hz).
  split; split; simpl; try done.
  - intros [H|H]%orb_true_iff; [by apply Hd|].
    destruct (H1 k H) as (i & w & Hw & Hpos).
    exists i, last, k. split_and!; [|by exists w|done].
    eapply other_row; [done|lia].
  - intros [H|H]%orb_true_iff; [by apply Hr|].
    destruct (Hs1 H) as (j & w & Hw & Hpos).
    exists last, j, k. split_and!; [|by exists w|done].
    eapply earlier_cell; [done|lia].
  - intros j [->|H]%flag_insert; [by exists last|by apply H0].
  - intros _. by exists k.
Qed.

Lemma scan_tile_inv s :
  0 < v → scan_inv P s → row_inv P last s →
  scan_inv P (scan_tile s k) ∧ row_inv P last (scan_tile s k).
Proof.
  intros Hv [Hu Hd Hl Hr H0 H1] [Hs0 Hs1]. split; split; simpl; try done.
  - intros [H|H]%orb_true_iff; [by apply Hu|].
    destruct (H0 k H) as (i & Hw).
    exists i, last, k. split_and!; [|done|by exists v].
    eapply other_row; [done|lia].
  - intros [H|H]%orb_true_iff; [by apply Hl|].
    destruct (Hs0 H) as (j & Hw).
    exists last, j, k. split_and!; [|done|by exists v].
    eapply earlier_cell; [done|lia].
  - intros j [->|H]%flag_insert; [by exists last, v|by apply H1].
  - intros _. by exists k, v.
Qed.
End scan_step.

Lemma scan_cell_inv (done : ndarray) (r : list Z) k v s :
  r !! k = Some v →
  scan_inv (done ++ [take k r]) s → row_inv (done ++ [take k r]) (length done) s →
  scan_inv (done ++ [take (S k) r]) (scan_cell r s k)
  ∧ row_inv (done ++ [take (S k) r]) (length done) (scan_cell r s k).
Proof.
  intros Hv HI HR.
  apply (scan_inv_extends _ _ _ (extends_take done r k (S k) ltac:(lia))) in HI.
  apply (row_inv_extends _ _ _ _ (extends_take done r k (S k) ltac:(lia))) in HR.
  assert (length (done ++ [take (S k) r]) = S (length done)) as Hlen
    by (rewrite length_app; simpl; lia).
  assert (∀ j w, lookup2 (done ++ [take (S k) r]) (length done) j = Some w → (j ≤ k)%nat)
    as Hlast.
  { intros j w. unfold lookup2. rewrite list_lookup_middle by done. simpl.
    intros [_ ?]%lookup_take_Some. lia. }
  assert (lookup2 (done ++ [take (S k) r]) (length done) k = Some v) as Hcell.
  { unfold lookup2. rewrite list_lookup_middle by done. simpl.
    rewrite lookup_take_lt by lia. done. }
  unfold scan_cell. rewrite (item_lookup _ _ _ Hv).
  destruct (Z.eqb_spec v 0) as [Hz|Hz].
  - simpl. destruct (Z.ltb_spec 0 v) as [Hp|Hp]; [lia|].
    by apply (scan_zero_inv _ _ _ v).
  - destruct (Z.ltb_spec 0 v) as [Hp|Hp]; [|done].
    by apply (scan_tile_inv _ _ _ v).
Qed.

Lemma scan_cells_inv (done : ndarray) (r : list Z) s n k :
  (k + n ≤ length r)%nat →
  scan_inv (done ++ [take k r]) s → row_inv (done ++ [take k r]) (length done) s →
  scan_inv (done ++ [take (k + n) r]) (foldl (scan_cell r) s (seq k n)).
Proof.
  revert k s. induction n as [|n IH]; intros k s Hk HI HR; simpl.
  - by rewrite Nat.add_0_r.
  - destruct (lookup_lt_is_Some_2 r k) as [v Hv]; [lia|].
    destruct (scan_cell_inv done r k v s Hv HI HR) as [HI' HR'].
    replace (k + S n)%nat with (S k + n)%nat by lia.
    apply IH; [lia|done|done].
Qed.

Lemma scan_row_inv (done : ndarray) (r : list Z) s :
  scan_inv done s → scan_inv (done ++ [r]) (scan_row (length r) s r).
Proof.
  intros HI. unfold scan_row.
  rewrite <- (firstn_all r) at 1.
  apply (scan_cells_inv done r _ (length r) 0); [lia| |].
  - apply (scan_inv_extends done); [apply extends_app|].
    destruct HI. by split.
  - by split.
Qed.

Lemma scan_rows_inv m (rest done : ndarray) s :
  Forall (fun r => length r = m) rest →
  scan_inv done s → scan_inv (done ++ rest) (foldl (scan_row m) s rest).
Proof.
  revert done s. induction rest as [|r rest IH]; intros done s Hm HI; simpl.
  - by rewrite app_nil_r.
  - inversion Hm as [|? ? Hr Hrest]; subst.
    replace (done ++ r :: rest) with ((done ++ [r]) ++ rest)
      by (by rewrite <- app_assoc).
    apply IH; [done|]. by apply scan_row_inv.
Qed.

Lemma scan_init_inv m : scan_inv [] (scan_init m).
Proof.
  split; simpl; try done.
  - intros j. unfold flag. destruct (replicate m false !! j) eqn:E; [|done].
    apply lookup_replicate in E as [-> _]. done.
  - intros j. unfold flag. destruct (replicate m false !! j) eqn:E; [|done].
    apply lookup_replicate in E as [-> _]. done.
Qed.

(** Each flag of the fast scan, when set, is backed by an empty cell with
    a tile behind it in that direction. *)
Lemma get_available_from_zeros_sound n (a : ndarray) :
  has_shape n n a →
  (flag (get_available_from_zeros a) Up = true → can_up a)
  ∧ (flag (get_available_from_zeros a) Down = true → can_down a)
  ∧ (flag (get_available_from_zeros a) Left = true → can_left a)
  ∧ (flag (get_available_from_zeros a) Right = true → can_right a).
Proof.
  intros Ha. destruct (decide (n = 0)%nat) as [->|Hn].
  - destruct Ha as [Ha _]. destruct a; [|done]. by cbv.
  - pose proof (has_shape_shape1 n n a Ha ltac:(lia)) as Hm.
    unfold get_available_from_zeros. rewrite Hm.
    destruct (scan_rows_inv n a [] (scan_init n) (proj2 Ha) (scan_init_inv n))
      as [Hu Hd Hl Hr _ _].
    simpl in *. unfold flag. simpl. done.
Qed.

(** ** A row with a gap is moved *)

Lemma lookup2_cell n m (a : ndarray) i j v :
  has_shape n m a →
  lookup2 a i j = Some v ↔ (i < n)%nat ∧ (j < m)%nat ∧ cell a i j = v.
Proof.
  intros Ha. split.
  - intros H. unfold lookup2 in H.
    destruct (a !! i) as [r|] eqn:Hr; [simpl in H|done].
    pose proof (has_shape_lookup _ _ _ _ _ Ha Hr) as Hlen.
    pose proof (lookup_lt_Some _ _ _ Hr). pose proof (lookup_lt_Some _ _ _ H).
    destruct Ha as [Hn _].
    split_and!; [lia|lia|by eapply cell_lookup].
  - intros (Hi & Hj & <-).
    destruct (has_shape_cell_lookup n m a i j Ha Hi Hj) as (r & Hr & Hv).
    unfold lookup2. by rewrite Hr.
Qed.

Lemma tiles_nonzero (r : list Z) j w : tiles r !! j = Some w → w ≠ 0.
Proof.
  intros H. apply list_elem_of_lookup_2 in H.
  unfold tiles in H. by apply list_elem_of_filter in H as [? _].
Qed.

(** In a packed row nothing but zeros follows a zero. *)
Lemma pack_after_zero m (r : list Z) j0 j1 w :
  (j0 < j1)%nat → pack m r !! j0 = Some 0 → pack m r !! j1 = Some w → w = 0.
Proof.
  unfold pack. intros Hj H0 H1.
  destruct (decide (j0 < length (tiles r))%nat) as [Hlt|Hge].
  - rewrite lookup_app_l in H0 by done. by apply tiles_nonzero in H0.
  - rewrite lookup_app_r in H1 by lia.
    by apply lookup_replicate in H1 as [-> _].
Qed.

Lemma left_row_gap n (r : list Z) j0 j1 w :
  (j0 < j1)%nat → r !! j0 = Some 0 → r !! j1 = Some w → 0 < w →
  left_row n r ≠ r.
Proof.
  intros Hj H0 H1 Hw Heq. unfold left_row in Heq.
  rewrite <- Heq in H0, H1.
  pose proof (pack_after_zero _ _ _ _ _ Hj H0 H1). lia.
Qed.

Lemma can_left_changes n (a : ndarray) : can_left a → left_row n <$> a ≠ a.
Proof.
  intros (i & j0 & j1 & Hj & H0 & (w & H1 & Hw)) Heq.
  unfold zero_at, lookup2 in *.
  destruct (a !! i) as [r|] eqn:Hr; [simpl in *|done].
  assert ((left_row n <$> a) !! i = Some (left_row n r)) as Hi
    by (by rewrite list_lookup_fmap, Hr).
  rewrite Heq, Hr in Hi. injection Hi as Hi.
  by eapply (left_row_gap n r j0 j1 w).
Qed.

(** The orientation of each direction turns its gap into a gap to the
    left. *)
Lemma can_up_view n (a : ndarray) :
  has_shape n n a → can_up a → can_left (transpose (flip_cols a)).
Proof.
  intros Ha (i0 & i1 & j & Hi & H0 & (w & H1 & Hw)).
  apply (lookup2_cell n n) in H0 as (? & ? & H0); [|done].
  apply (lookup2_cell n n) in H1 as (? & ? & H1); [|done].
  pose proof (has_shape_flip_cols _ _ _ Ha) as Hf.
  pose proof (has_shape_transpose _ _ Hf) as Ht.
  exists (n - S j)%nat, i0, i1. split_and!; [done| |exists w; split; [|done]].
  - apply (lookup2_cell n n); [done|]. split_and!; [lia|lia|].
    rewrite (cell_transpose n), (cell_flip_cols n n) by (done || lia).
    rewrite <- H0. f_equal. lia.
  - apply (lookup2_cell n n); [done|]. split_and!; [lia|lia|].
    rewrite (cell_transpose n), (cell_flip_cols n n) by (done || lia).
    rewrite <- H1. f_equal. lia.
Qed.

Lemma can_down_view n (a : ndarray) :
  has_shape n n a → can_down a → can_left (flip_cols (transpose a)).
Proof.
  intros Ha (i0 & i1 & j & Hi & (w & H0 & Hw) & H1).
  apply (lookup2_cell n n) in H0 as (? & ? & H0); [|done].
  apply (lookup2_cell n n) in H1 as (? & ? & H1); [|done].
  pose proof (has_shape_transpose _ _ Ha) as Ht.
  pose proof (has_shape_flip_cols _ _ _ Ht) as Hf.
  exists j, (n - S i1)%nat, (n - S i0)%nat.
  split_and!; [lia| |exists w; split; [|done]].
  - apply (lookup2_cell n n); [done|]. split_and!; [lia|lia|].
    rewrite (cell_flip_cols n n), (cell_transpose n) by (done || lia).
    rewrite <- H1. f_equal. lia.
  - apply (lookup2_cell n n); [done|]. split_and!; [lia|lia|].
    rewrite (cell_flip_cols n n), (cell_transpose n) by (done || lia).
    rewrite <- H0. f_equal. lia.
Qed.

Lemma can_right_view n (a : ndarray) :
  has_shape n n a → can_right a → can_left (flip_rows (flip_cols a)).
Proof.
  intros Ha (i & j0 & j1 & Hj & (w & H0 & Hw) & H1).
  apply (lookup2_cell n n) in H0 as (? & ? & H0); [|done].
  apply (lookup2_cell n n) in H1 as (? & ? & H1); [|done].
  pose proof (has_shape_flip_cols _ _ _ Ha) as Hf.
  pose proof (has_shape_flip_rows _ _ _ Hf) as Hr.
  exists (n - S i)%nat, (n - S j1)%nat, (n - S j0)%nat.
  split_and!; [lia| |exists w; split; [|done]].
  - apply (lookup2_cell n n); [done|]. split_and!; [lia|lia|].
    rewrite (cell_flip_rows n n), (cell_flip_cols n n) by (done || lia).
    rewrite <- H1. f_equal; lia.
  - apply (lookup2_cell n n); [done|]. split_and!; [lia|lia|].
    rewrite (cell_flip_rows n n), (cell_flip_cols n n) by (done || lia).
    rewrite <- H0. f_equal; lia.
Qed.

(** ** The four moves through the move to the left *)


Lemma has_shape_orient n dir (a : ndarray) :
  has_shape n n a → has_shape n n (orient dir a).
Proof.
  intros Ha. destruct dir as [|[|[|dir]]]; simpl; [| |done|].
  - by apply has_shape_transpose, has_shape_flip_cols.
  - by apply has_shape_flip_cols, has_shape_transpose.
  - by apply has_shape_flip_rows, has_shape_flip_cols.
Qed.

Lemma has_shape_restore n dir (a : ndarray) :
  has_shape n n a → has_shape n n (restore dir a).
Proof.
  intros Ha. destruct dir as [|[|[|dir]]]; simpl; [| |done|].
  - by apply has_shape_flip_cols, has_shape_transpose.
  - by apply has_shape_transpose, has_shape_flip_cols.
  - by apply has_shape_flip_rows, has_shape_flip_cols.
Qed.

Lemma restore_orient n dir (a : ndarray) :
  has_shape n n a → restore dir (orient dir a) = a.
Proof.
  intros Ha. destruct dir as [|[|[|dir]]]; simpl; [| |done|].
  - rewrite (transpose_involutive n) by by apply has_shape_flip_cols.
    apply flip_cols_involutive.
  - rewrite flip_cols_involutive. by apply (transpose_involutive n).
  - rewrite <- flip_rows_cols_comm, flip_rows_involutive.
    apply flip_cols_involutive.
Qed.

Lemma orient_restore n dir (a : ndarray) :
  has_shape n n a → orient dir (restore dir a) = a.
Proof.
  intros Ha. destruct dir as [|[|[|dir]]]; simpl; [| |done|].
  - rewrite flip_cols_involutive. by apply (transpose_involutive n).
  - rewrite (transpose_involutive n) by by apply has_shape_flip_cols.
    apply flip_cols_involutive.
  - rewrite <- flip_rows_cols_comm, flip_rows_involutive.
    apply flip_cols_involutive.
Qed.

Lemma grid_moved (b : GameBoard) dir :
  wf_board b → (dir < 4)%nat →
  grid (moved b dir)
  = restore dir (left_row (grid_len b) <$> orient dir (grid b)).
Proof.
  intros Hb Hd. unfold moved, move. simpl.
  destruct dir as [|[|[|[|dir]]]]; [| | | |lia]; simpl;
    rewrite compress_rows; try done.
  - by apply has_shape_transpose, has_shape_flip_cols.
  - by apply has_shape_flip_cols, has_shape_transpose.
  - by apply has_shape_flip_rows, has_shape_flip_cols.
Qed.

Lemma wf_moved (b : GameBoard) dir : wf_board b → wf_board (moved b dir).
Proof.
  intros Hb. destruct (decide (dir < 4)%nat) as [Hd|Hd].
  - unfold wf_board. rewrite grid_moved by done. simpl.
    by apply has_shape_restore, has_shape_left_rows, has_shape_orient.
  - unfold moved, move. simpl.
    destruct dir as [|[|[|[|dir]]]]; try lia. done.
Qed.

Lemma moved_fixed_iff (b : GameBoard) dir :
  wf_board b → (dir < 4)%nat →
  grid (moved b dir) = grid b
  ↔ left_row (grid_len b) <$> orient dir (grid b) = orient dir (grid b).
Proof.
  intros Hb Hd. rewrite grid_moved by done. split; intros H.
  - apply (f_equal (orient dir)) in H.
    rewrite (orient_restore (grid_len b)) in H; [done|].
    by apply has_shape_left_rows, has_shape_orient.
  - rewrite H. by apply (restore_orient (grid_len b)).
Qed.


Lemma clone_eq (b : GameBoard) : clone b = b.
Proof. by destruct b. Qed.

Lemma move_changed (b : GameBoard) dir :
  wf_board b →
  snd (move b dir true) = Some (bool_decide (grid (moved b dir) ≠ grid b)).
Proof.
  intros Hb. pose proof (wf_moved b dir Hb) as Hm.
  unfold moved in *. unfold move in *. simpl in *. f_equal.
  match goal with |- negb (np_all_eq _ ?g) = _ => set (g' := g) in * end.
  destruct (np_all_eq (grid b) g') eqn:E.
  - apply (np_all_eq_true (grid_len b) (grid_len b)) in E; [|done..].
    simpl. symmetry. apply bool_decide_eq_false. intros H. by apply H.
  - simpl. symmetry. apply bool_decide_eq_true. intros H.
    assert (np_all_eq (grid b) g' = true) as E'
      by (by apply (np_all_eq_true (grid_len b) (grid_len b))).
    congruence.
Qed.

Lemma fast_flag_legal (b : GameBoard) dir :
  wf_board b → (dir < 4)%nat →
  flag (get_available_from_zeros (grid b)) dir = true → legal b dir.
Proof.
  intros Hb Hd Hf. unfold legal. rewrite clone_eq.
  rewrite moved_fixed_iff by done. apply can_left_changes.
  destruct (get_available_from_zeros_sound _ _ Hb) as (Hu & Hdn & Hl & Hr).
  destruct dir as [|[|[|[|dir]]]]; [| | | |lia]; simpl.
  - by apply (can_up_view (grid_len b)), Hu.
  - by apply (can_down_view (grid_len b)), Hdn.
  - by apply Hl.
  - by apply (can_right_view (grid_len b)), Hr.
Qed.

(** The body of the loop of [get_available_moves] keeps [x] exactly when
    the move is legal. *)
Lemma available_step (b : GameBoard) (acc : list nat) x :
  wf_board b → (x < 4)%nat →
  (if negb (flag (get_available_from_zeros (grid b)) x)
   then match snd (move (clone b) x true) with
        | Some true => acc ++ [x]
        | _ => acc
        end
   else acc ++ [x])
  = if decide (legal b x) then acc ++ [x] else acc.
Proof.
  intros Hb Hx.
  assert (wf_board (clone b)) as Hc by (by rewrite clone_eq).
  rewrite (move_changed (clone b) x Hc).
  destruct (flag (get_available_from_zeros (grid b)) x) eqn:Hf; cbn [negb].
  - by rewrite decide_True by (by apply fast_flag_legal).
  - destruct (decide (legal b x)) as [H|H].
    + by rewrite bool_decide_true by exact H.
    + by rewrite bool_decide_false by exact H.
Qed.

(** ** Sums of cells *)

Lemma grid_sum_fmap (f : list Z → list Z) (a : ndarray) :
  (∀ r, sumZ (f r) = sumZ r) → grid_sum (f <$> a) = grid_sum a.
Proof.
  intros Hf. unfold grid_sum. rewrite <- list_fmap_compose. f_equal.
  apply list_fmap_ext. intros i r _. simpl. apply Hf.
Qed.

Lemma grid_sum_flip_cols (a : ndarray) : grid_sum (flip_cols a) = grid_sum a.
Proof. apply grid_sum_fmap, sumZ_reverse. Qed.

Lemma grid_sum_flip_rows (a : ndarray) : grid_sum (flip_rows a) = grid_sum a.
Proof.
  unfold grid_sum, flip_rows. by rewrite fmap_reverse, sumZ_reverse.
Qed.

Lemma sumZ_cons x (r : list Z) : sumZ (x :: r) = x + sumZ r.
Proof. reflexivity. Qed.

Lemma sumZ_fmap_add {A} (f g : A → Z) (l : list A) :
  sumZ ((fun x => f x + g x) <$> l) = sumZ (f <$> l) + sumZ (g <$> l).
Proof.
  induction l as [|x l IH]; [done|].
  rewrite !fmap_cons, !sumZ_cons, IH. lia.
Qed.

Lemma sumZ_fmap_0 {A} (l : list A) : sumZ ((fun _ => 0) <$> l) = 0.
Proof.
  induction l as [|x l IH]; [done|]. by rewrite fmap_cons, sumZ_cons, IH.
Qed.

Lemma sumZ_item_seq (r : list Z) :
  sumZ ((fun j => item r j) <$> seq 0 (length r)) = sumZ r.
Proof.
  induction r as [|x r IH]; [done|].
  cbn [length seq]. rewrite fmap_cons, !sumZ_cons.
  rewrite <- fmap_S_seq, <- list_fmap_compose. f_equal. by rewrite <- IH.
Qed.

(** The sum taken column by column. *)
Lemma sumZ_columns m (a : ndarray) :
  Forall (fun r => length r = m) a →
  sumZ ((fun j => sumZ ((fun r => item r j) <$> a)) <$> seq 0 m) = grid_sum a.
Proof.
  induction a as [|r a IH]; intros H.
  - apply sumZ_fmap_0.
  - inversion H as [|? ? Hr Ha]; subst.
    unfold grid_sum. rewrite fmap_cons, sumZ_cons. fold (grid_sum a).
    rewrite <- IH by done. rewrite <- (sumZ_item_seq r).
    rewrite <- sumZ_fmap_add. f_equal.
Qed.

Lemma grid_sum_transpose n (a : ndarray) :
  has_shape n n a → grid_sum (transpose a) = grid_sum a.
Proof.
  intros Ha. destruct (decide (n = 0)%nat) as [->|Hn].
  - destruct Ha as [Ha _]. by destruct a.
  - unfold transpose. rewrite (has_shape_shape1 n n) by (done || lia).
    unfold grid_sum at 1. rewrite <- list_fmap_compose.
    apply (sumZ_columns n). apply Ha.
Qed.

Lemma grid_sum_orient n dir (a : ndarray) :
  has_shape n n a → grid_sum (orient dir a) = grid_sum a.
Proof.
  intros Ha. destruct dir as [|[|[|dir]]]; simpl; [| |done|].
  - rewrite (grid_sum_transpose n) by by apply has_shape_flip_cols.
    apply grid_sum_flip_cols.
  - rewrite grid_sum_flip_cols. by apply (grid_sum_transpose n).
  - by rewrite grid_sum_flip_rows, grid_sum_flip_cols.
Qed.

Lemma grid_sum_restore n dir (a : ndarray) :
  has_shape n n a → grid_sum (restore dir a) = grid_sum a.
Proof.
  intros Ha. destruct dir as [|[|[|dir]]]; simpl; [| |done|].
  - rewrite grid_sum_flip_cols. by apply (grid_sum_transpose n).
  - rewrite (grid_sum_transpose n) by by apply has_shape_flip_cols.
    apply grid_sum_flip_cols.
  - by rewrite grid_sum_flip_rows, grid_sum_flip_cols.
Qed.

(** * The claims about the board *)

(** C1.  [get_available_moves()] returns exactly the directions whose move,
    applied to a clone of the board, changes the grid, listed in the
    order Up, Down, Left, Right: the fast scan with its fallback agrees
    with simulating every direction. *)
Theorem get_available_moves_simulated (b : GameBoard) :
  wf_board b →
  get_available_moves b = filter (legal b) [Up; Down; Left; Right].
Proof.
  intros Hb. unfold get_available_moves, dirs, generate_dirs.
  cbn [seq foldl].
  rewrite !available_step by (done || unfold Up, Down, Left, Right; lia).
  unfold Up, Down, Left, Right.
  rewrite !filter_cons, filter_nil.
  repeat case_decide; reflexivity.
Qed.

Lemma get_available_moves_simulated_witness :
  wf_board (grid4 [2; 0; 0; 0] [2; 4; 0; 0] [8; 4; 0; 8] [16; 32; 64; 128])
  ∧ get_available_moves (grid4 [2; 0; 0; 0] [2; 4; 0; 0] [8; 4; 0; 8] [16; 32; 64; 128])
    = filter (legal (grid4 [2; 0; 0; 0] [2; 4; 0; 0] [8; 4; 0; 8] [16; 32; 64; 128]))
             [Up; Down; Left; Right].
Proof.
  assert (wf_board (grid4 [2; 0; 0; 0] [2; 4; 0; 0] [8; 4; 0; 8] [16; 32; 64; 128]))
    as Hb by (wf_concrete).
  split; [exact Hb|].
  exact (get_available_moves_simulated _ Hb).
Defined.

Lemma grid_moved_left (b : GameBoard) :
  wf_board b → grid (moved b Left) = left_row (grid_len b) <$> grid b.
Proof. intros Hb. rewrite grid_moved by (done || (unfold Left; lia)). done. Qed.

(** C2.  On a board of side 4, a row [2,2,4,4] becomes [4,8,0,0] when the
    board is moved Left: the doubled 4 on the left does not merge again
    with the 4 next to it.  A second move Left, with no tile inserted in
    between, leaves that row as it is. *)
Theorem move_left_2244 (b : GameBoard) (i : nat) :
  wf_board b → grid_len b = 4%nat → grid b !! i = Some [2; 2; 4; 4] →
  grid (moved b Left) !! i = Some [4; 8; 0; 0]
  ∧ grid (moved (moved b Left) Left) !! i = Some [4; 8; 0; 0].
Proof.
  intros Hb Hn Hi.
  assert (grid (moved b Left) !! i = Some [4; 8; 0; 0]) as H1.
  { rewrite grid_moved_left by done.
    rewrite list_lookup_fmap, Hi, Hn. reflexivity. }
  split; [done|].
  rewrite (grid_moved_left (moved b Left)) by (by apply wf_moved).
  rewrite list_lookup_fmap, H1.
  change (grid_len (moved b Left)) with (grid_len b). rewrite Hn. reflexivity.
Qed.

Lemma move_left_2244_witness :
  grid (moved (grid4 [2; 2; 4; 4] empty_row empty_row empty_row) Left) !! 0%nat
  = Some [4; 8; 0; 0]
  ∧ grid (moved (moved (grid4 [2; 2; 4; 4] empty_row empty_row empty_row) Left) Left)
      !! 0%nat
    = Some [4; 8; 0; 0].
Proof.
  apply (move_left_2244 (grid4 [2; 2; 4; 4] empty_row empty_row empty_row) 0).
  - wf_concrete.
  - reflexivity.
  - reflexivity.
Defined.

(** The same on whole grids: the three calls of the Left branch on the
    1x4 array, and the board whose other rows are empty, where the second
    move reports no change. *)
Example compress_2244 :
  compress (np_zeros 1 4) (np_zeros 1 4) [[2; 2; 4; 4]] = [[4; 8; 0; 0]]
  ∧ compress (np_zeros 1 4) (np_zeros 1 4) [[4; 8; 0; 0]] = [[4; 8; 0; 0]].
Proof. split; reflexivity. Qed.

Example move_left_twice_2244 :
  move (grid4 [2; 2; 4; 4] empty_row empty_row empty_row) Left true
  = (grid4 [4; 8; 0; 0] empty_row empty_row empty_row, Some true)
  ∧ move (grid4 [4; 8; 0; 0] empty_row empty_row empty_row) Left true
    = (grid4 [4; 8; 0; 0] empty_row empty_row empty_row, Some false).
Proof. split; reflexivity. Qed.

(** C3, as the claim states it, fails: called as [move(direction)], the
    method returns None although the grid has changed. *)
Lemma move_returns_none :
  snd (move (grid4 [2; 2; 0; 0] empty_row empty_row empty_row) Left false) = None
  ∧ grid (fst (move (grid4 [2; 2; 0; 0] empty_row empty_row empty_row) Left false))
    = [[4; 0; 0; 0]; empty_row; empty_row; empty_row]
  ∧ grid (fst (move (grid4 [2; 2; 0; 0] empty_row empty_row empty_row) Left false))
    ≠ grid (grid4 [2; 2; 0; 0] empty_row empty_row empty_row).
Proof. split_and!; [reflexivity|reflexivity|discriminate]. Qed.

(** C3, amended.  [move(direction, get_avail_call=True)] replaces the grid
    of the board and returns a boolean that is true exactly when the new
    grid differs from the old one; [move(direction)] replaces the grid in
    the same way and returns None. *)
Theorem move_reports_change (b : GameBoard) (dir : nat) :
  wf_board b →
  fst (move b dir true) = moved b dir
  ∧ (snd (move b dir true) = Some true ↔ grid (moved b dir) ≠ grid b)
  ∧ (snd (move b dir true) = Some false ↔ grid (moved b dir) = grid b)
  ∧ move b dir false = (moved b dir, None).
Proof.
  intros Hb. rewrite move_changed by done. split_and!.
  - reflexivity.
  - split.
    + intros [= H]. by apply bool_decide_eq_true in H.
    + intros H. by rewrite bool_decide_true.
  - split.
    + intros [= H]. apply bool_decide_eq_false in H.
      destruct (decide (grid (moved b dir) = grid b)); [done|contradiction].
    + intros H. rewrite bool_decide_false; [done|]. intros H'. by apply H'.
  - reflexivity.
Qed.

Lemma move_reports_change_witness :
  fst (move (grid4 [2; 2; 0; 0] empty_row empty_row empty_row) Left true)
  = moved (grid4 [2; 2; 0; 0] empty_row empty_row empty_row) Left
  ∧ (snd (move (grid4 [2; 2; 0; 0] empty_row empty_row empty_row) Left true) = Some true
     ↔ grid (moved (grid4 [2; 2; 0; 0] empty_row empty_row empty_row) Left)
       ≠ grid (grid4 [2; 2; 0; 0] empty_row empty_row empty_row))
  ∧ (snd (move (grid4 [2; 2; 0; 0] empty_row empty_row empty_row) Left true) = Some false
     ↔ grid (moved (grid4 [2; 2; 0; 0] empty_row empty_row empty_row) Left)
       = grid (grid4 [2; 2; 0; 0] empty_row empty_row empty_row))
  ∧ move (grid4 [2; 2; 0; 0] empty_row empty_row empty_row) Left false
    = (moved (grid4 [2; 2; 0; 0] empty_row empty_row empty_row) Left, None).
Proof.
  apply (move_reports_change (grid4 [2; 2; 0; 0] empty_row empty_row empty_row) Left).
  wf_concrete.
Defined.

(** C10.  A move leaves the sum of the cells of the grid as it was. *)
Theorem move_preserves_sum (b : GameBoard) (dir : nat) :
  wf_board b → grid_sum (grid (moved b dir)) = grid_sum (grid b).
Proof.
  intros Hb. destruct (decide (dir < 4)%nat) as [Hd|Hd].
  - rewrite grid_moved by done.
    rewrite (grid_sum_restore (grid_len b))
      by (by apply has_shape_left_rows, has_shape_orient).
    rewrite grid_sum_fmap by apply sumZ_left_row.
    by apply (grid_sum_orient (grid_len b)).
  - unfold moved, move. simpl.
    destruct dir as [|[|[|[|dir]]]]; (lia || done).
Qed.

Lemma move_preserves_sum_witness :
  grid_sum (grid (moved (grid4 [2; 2; 4; 4] [0; 2; 0; 2] [4; 4; 4; 4] [2; 0; 0; 2]) Up))
  = grid_sum (grid (grid4 [2; 2; 4; 4] [0; 2; 0; 2] [4; 4; 4; 4] [2; 0; 0; 2])).
Proof.
  apply (move_preserves_sum (grid4 [2; 2; 4; 4] [0; 2; 0; 2] [4; 4; 4; 4] [2; 0; 0; 2]) Up).
  wf_concrete.
Defined.

(** C4.  The score that [calculate_move_score] returns is not the value
    of the merged tiles: a tile that slides into an empty cell is counted
    although nothing merged.  Here the move Left is legal, no merge takes
    place, and the score is 2. *)
Theorem calculate_move_score_counts_slide :
  legal (grid4 [0; 2; 0; 0] empty_row empty_row empty_row) Left
  ∧ grid (moved (grid4 [0; 2; 0; 0] empty_row empty_row empty_row) Left)
    = [[2; 0; 0; 0]; empty_row; empty_row; empty_row]
  ∧ merged_total (grid4 [0; 2; 0; 0] empty_row empty_row empty_row) Left = 0
  ∧ calculate_move_score
      (moved (grid4 [0; 2; 0; 0] empty_row empty_row empty_row) Left)
      (grid (grid4 [0; 2; 0; 0] empty_row empty_row empty_row)) = 2.
Proof. split_and!; [discriminate|reflexivity..]. Qed.

(** A merge is missed when the merged tile lands on a cell that held at
    least as much, and the slide beside it is counted instead: the merge
    produces 4, the score is 8. *)
Example calculate_move_score_misses_merge :
  grid (moved (grid4 [0; 8; 2; 2] empty_row empty_row empty_row) Left)
  = [[8; 4; 0; 0]; empty_row; empty_row; empty_row]
  ∧ merged_total (grid4 [0; 8; 2; 2] empty_row empty_row empty_row) Left = 4
  ∧ calculate_move_score
      (moved (grid4 [0; 8; 2; 2] empty_row empty_row empty_row) Left)
      (grid (grid4 [0; 8; 2; 2] empty_row empty_row empty_row)) = 8.
Proof. split_and!; reflexivity. Qed.

(** The two examples of the specification, where the score and the value
    of the merges agree. *)
Example calculate_move_score_2200 :
  merged_total (grid4 [2; 2; 0; 0] empty_row empty_row empty_row) Left = 4
  ∧ calculate_move_score
      (moved (grid4 [2; 2; 0; 0] empty_row empty_row empty_row) Left)
      (grid (grid4 [2; 2; 0; 0] empty_row empty_row empty_row)) = 4.
Proof. split; reflexivity. Qed.

Example calculate_move_score_4444 :
  merged_total (grid4 [4; 4; 4; 4] empty_row empty_row empty_row) Left = 16
  ∧ calculate_move_score
      (moved (grid4 [4; 4; 4; 4] empty_row empty_row empty_row) Left)
      (grid (grid4 [4; 4; 4; 4] empty_row empty_row empty_row)) = 16.
Proof. split; reflexivity. Qed.

(** ** insert_tile and the empty cells *)

Lemma cell_insert (a : ndarray) (r : list Z) i j v i' j' :
  a !! i = Some r → (j < length r)%nat →
  cell (<[i := <[j := v]> r]> a) i' j'
  = if decide ((i', j') = (i, j)) then v else cell a i' j'.
Proof.
  intros Hr Hj. pose proof (lookup_lt_Some _ _ _ Hr) as Hi. unfold cell.
  destruct (decide (i' = i)) as [->|Hne].
  - rewrite list_lookup_insert_eq by done. rewrite Hr. simpl.
    destruct (decide (j' = j)) as [->|Hnj].
    + rewrite decide_True by done. by apply item_insert_eq.
    + rewrite decide_False by congruence. by apply item_insert_ne.
  - rewrite list_lookup_insert_ne by done.
    rewrite decide_False by congruence. done.
Qed.

(** Inside the grid [insert_tile] succeeds and writes one cell. *)
Lemma insert_tile_inside (b : GameBoard) (pos : nat * nat) (value : Z) :
  wf_board b → (fst pos < grid_len b)%nat → (snd pos < grid_len b)%nat →
  ∃ b', insert_tile b pos value = Some b'
        ∧ wf_board b'
        ∧ grid_len b' = grid_len b
        ∧ ∀ i j, cell (grid b') i j
                 = if decide ((i, j) = pos) then value else cell (grid b) i j.
Proof.
  intros Hb Hi Hj. destruct pos as [i j]. simpl in *.
  destruct (has_shape_cell_lookup _ _ _ i j Hb Hi Hj) as (r & Hr & _).
  pose proof (has_shape_lookup _ _ _ _ _ Hb Hr) as Hlen.
  unfold insert_tile. simpl. rewrite Hr.
  rewrite bool_decide_true by lia.
  eexists. split; [reflexivity|]. split_and!; simpl.
  - destruct Hb as [Hn Hrows]. split; simpl; [by rewrite length_insert|].
    apply Forall_insert; [done|]. by rewrite length_insert.
  - done.
  - intros i' j'. apply cell_insert; [done|lia].
Qed.

(** C6, as the claim states it, fails: [insert_tile] on an occupied cell
    returns normally, and the cell holds the new value. *)
Lemma insert_tile_overwrites :
  cell (grid (grid4 [2; 0; 0; 0] empty_row empty_row empty_row)) 0 0 = 2
  ∧ insert_tile (grid4 [2; 0; 0; 0] empty_row empty_row empty_row) (0%nat, 0%nat) 4
    = Some (grid4 [4; 0; 0; 0] empty_row empty_row empty_row).
Proof. split; reflexivity. Qed.

(** C6, amended.  [insert_tile(pos, value)] with [pos] inside the grid
    returns normally, whatever the cell holds: afterwards the cell holds
    [value] and every other cell is as before. *)
Theorem insert_tile_sets_cell (b : GameBoard) (pos : nat * nat) (value : Z) :
  wf_board b → (fst pos < grid_len b)%nat → (snd pos < grid_len b)%nat →
  ∃ b', insert_tile b pos value = Some b'
        ∧ wf_board b'
        ∧ grid_len b' = grid_len b
        ∧ ∀ i j, cell (grid b') i j
                 = if decide ((i, j) = pos) then value else cell (grid b) i j.
Proof. apply insert_tile_inside. Qed.

Lemma insert_tile_sets_cell_witness :
  ∃ b', insert_tile (grid4 [2; 0; 0; 0] empty_row empty_row empty_row) (0%nat, 0%nat) 4
        = Some b'
        ∧ wf_board b'
        ∧ grid_len b' = grid_len (grid4 [2; 0; 0; 0] empty_row empty_row empty_row)
        ∧ ∀ i j, cell (grid b') i j
                 = if decide ((i, j) = (0%nat, 0%nat)) then 4
                   else cell (grid (grid4 [2; 0; 0; 0] empty_row empty_row empty_row)) i j.
Proof.
  apply (insert_tile_sets_cell (grid4 [2; 0; 0; 0] empty_row empty_row empty_row)
           (0%nat, 0%nat) 4).
  - wf_concrete.
  - simpl. lia.
  - simpl. lia.
Defined.

(** The one error of [insert_tile]: a position outside the grid. *)
Lemma insert_tile_outside (b : GameBoard) (pos : nat * nat) (value : Z) :
  wf_board b → (grid_len b ≤ fst pos ∨ grid_len b ≤ snd pos)%nat →
  insert_tile b pos value = None.
Proof.
  intros Hb Hpos. unfold insert_tile.
  destruct (grid b !! fst pos) as [r|] eqn:Hr; [|done].
  pose proof (has_shape_lookup _ _ _ _ _ Hb Hr) as Hlen.
  pose proof (lookup_lt_Some _ _ _ Hr) as Hlt.
  destruct Hb as [Hn _].
  rewrite bool_decide_false; [done|lia].
Qed.

Lemma elem_of_available_cells (b : GameBoard) (pos : nat * nat) :
  pos ∈ get_available_cells b
  ↔ (fst pos < grid_len b)%nat ∧ (snd pos < grid_len b)%nat
    ∧ cell (grid b) (fst pos) (snd pos) = 0.
Proof.
  unfold get_available_cells. rewrite list_elem_of_bind. split.
  - intros (x & Hy & Hx). apply list_elem_of_bind in Hy as (y & Hp & Hy).
    apply elem_of_seq in Hx, Hy.
    destruct (Z.eqb_spec (cell (grid b) x y) 0) as [Hz|Hz];
      [|by apply elem_of_nil in Hp].
    apply list_elem_of_singleton in Hp as ->. simpl. split_and!; (lia || done).
  - intros (Hx & Hy & Hz). destruct pos as [x y]. simpl in *.
    exists x. split; [|apply elem_of_seq; lia].
    apply list_elem_of_bind. exists y. split; [|apply elem_of_seq; lia].
    rewrite Hz. simpl. by apply list_elem_of_singleton.
Qed.

(** A cell that [get_available_cells] returned lies inside the grid:
    [insert_tile] on it succeeds. *)
Lemma insert_available_cell (b : GameBoard) (pos : nat * nat) (value : Z) :
  wf_board b → pos ∈ get_available_cells b →
  insert_tile b pos value = Some (inserted b pos value).
Proof.
  intros Hb (Hx & Hy & _)%elem_of_available_cells.
  destruct (insert_tile_inside b pos value Hb Hx Hy) as (b' & H & _).
  unfold inserted. by rewrite H.
Qed.

Lemma wf_inserted (b : GameBoard) (pos : nat * nat) (value : Z) :
  wf_board b → wf_board (inserted b pos value).
Proof.
  intros Hb. unfold inserted.
  destruct (decide (fst pos < grid_len b ∧ snd pos < grid_len b)%nat) as [[Hx Hy]|Hout].
  - destruct (insert_tile_inside b pos value Hb Hx Hy) as (b' & -> & Hb' & _).
    exact Hb'.
  - rewrite insert_tile_outside by (done || lia). exact Hb.
Qed.

Lemma bind_filter_singleton {A B} (p : A → bool) (g : A → B) (l : list A) :
  (y ← l; if p y then [g y] else []) = g <$> filter (fun y => p y = true) l.
Proof.
  induction l as [|y l IH]; [done|].
  rewrite bind_cons, filter_cons, IH.
  destruct (p y) eqn:Hp.
  - by rewrite decide_True.
  - by rewrite decide_False by congruence.
Qed.

Lemma filter_bind {A B} (P : B → Prop) `{∀ x, Decision (P x)}
  (f : A → list B) (l : list A) :
  filter P (l ≫= f) = l ≫= (fun x => filter P (f x)).
Proof.
  induction l as [|x l IH]; [done|].
  by rewrite !bind_cons, filter_app, IH.
Qed.

Lemma filter_fmap_pair {A B} (p : B → bool) (g : A → B) (l : list A) :
  filter (fun y => p y = true) (g <$> l) = g <$> filter (fun x => p (g x) = true) l.
Proof.
  induction l as [|x l IH]; [done|].
  rewrite fmap_cons, !filter_cons, IH. simpl.
  destruct (p (g x)) eqn:Hp.
  - by rewrite !decide_True.
  - by rewrite !decide_False by congruence.
Qed.

(** [get_available_cells] lists the empty cells in row-major order. *)
Lemma get_available_cells_row_major (b : GameBoard) :
  get_available_cells b
  = filter (fun pos => is_empty_cell b pos = true) (row_major (grid_len b)).
Proof.
  unfold get_available_cells, row_major. rewrite filter_bind.
  apply list_bind_ext; [|done]. intros x.
  rewrite (filter_fmap_pair (is_empty_cell b) (fun y => (x, y))).
  by rewrite <- (bind_filter_singleton (fun y => is_empty_cell b (x, y))).
Qed.

(** * Properties of the searches *)

Lemma foldl_ext_in {A B} (f g : A → B → A) (l : list B) (a : A) :
  (∀ a x, x ∈ l → f a x = g a x) → foldl f a l = foldl g a l.
Proof.
  revert a. induction l as [|x l IH]; intros a H; [done|]. simpl.
  rewrite H by apply list_elem_of_here.
  apply IH. intros a' y Hy. apply H. by apply list_elem_of_further.
Qed.

(** ** A loop that keeps one candidate *)

Section keep_one.
(** The state of the loop is the candidate kept so far; a candidate replaces
    it when [beats] says so. *)
Context {C S : Type} (beats : S → C → bool) (kept : C → S).

Lemma keep_prefix (l : list C) (st0 : S) :
  foldl (keep_step beats kept) st0 l = st0 ∨ ∃ c, c ∈ l ∧ foldl (keep_step beats kept) st0 l = kept c.
Proof.
  revert st0. induction l as [|c l IH]; intros st0; [by left|]. simpl.
  destruct (IH (keep_step beats kept st0 c)) as [H|(c' & Hc' & H)].
  - rewrite H. unfold keep_step. destruct (beats st0 c); [|by left].
    right. exists c. split; [apply list_elem_of_here|done].
  - right. exists c'. split; [by apply list_elem_of_further|done].
Qed.

Lemma keep_suffix (l : list C) (c : C) :
  (∀ c', c' ∈ l → beats (kept c) c' = false) →
  foldl (keep_step beats kept) (kept c) l = kept c.
Proof.
  induction l as [|c' l IH]; intros H; [done|]. simpl.
  unfold keep_step at 2. rewrite H by apply list_elem_of_here.
  apply IH. intros c'' Hc''. apply H. by apply list_elem_of_further.
Qed.

(** The candidate kept in the end: it beats the initial state and every
    candidate before it, and no candidate after it beats it. *)
Lemma keep_last_best (l1 l2 : list C) (c : C) (st0 : S) :
  beats st0 c = true →
  (∀ c', c' ∈ l1 → beats (kept c') c = true) →
  (∀ c', c' ∈ l2 → beats (kept c) c' = false) →
  foldl (keep_step beats kept) st0 (l1 ++ c :: l2) = kept c.
Proof.
  intros H0 H1 H2. rewrite foldl_app. cbn [foldl].
  assert (keep_step beats kept (foldl (keep_step beats kept) st0 l1) c = kept c) as ->.
  { destruct (keep_prefix l1 st0) as [->|(c' & Hc' & ->)]; unfold keep_step.
    - by rewrite H0.
    - by rewrite H1. }
  by apply keep_suffix.
Qed.
End keep_one.

Section search_facts.
Context {F : Type} (ops : float_ops F).

(** ** The recursion of Expectimax ends before the fuel does *)

Lemma maximize_fuel_leaf fuel (b : GameBoard) depth max_depth :
  (max_depth ≤ depth)%nat → maximize_fuel ops fuel b depth max_depth = static_eval ops b.
Proof. intros H. destruct fuel; simpl; [done|]. by rewrite bool_decide_true. Qed.

Lemma fuel_stable_step k :
  (∀ f1 f2 b depth, (3 - (depth + 1) ≤ k)%nat → (2 * k + 2 ≤ f1)%nat → (2 * k + 2 ≤ f2)%nat →
     chance_fuel ops f1 b depth = chance_fuel ops f2 b depth) →
  ∀ f1 f2 b depth, (3 - depth ≤ S k)%nat → (2 * S k + 1 ≤ f1)%nat → (2 * S k + 1 ≤ f2)%nat →
     maximize_fuel ops f1 b depth 3 = maximize_fuel ops f2 b depth 3.
Proof.
  intros HQ f1 f2 b depth Hd H1 H2.
  destruct f1 as [|f1]; [lia|]. destruct f2 as [|f2]; [lia|]. simpl.
  case_bool_decide; [done|].
  apply foldl_ext_in. intros best mb _.
  rewrite (HQ f1 f2) by lia. done.
Qed.

Lemma fuel_stable_chance k :
  (∀ f1 f2 b depth, (3 - depth ≤ k)%nat → (2 * k + 1 ≤ f1)%nat → (2 * k + 1 ≤ f2)%nat →
     maximize_fuel ops f1 b depth 3 = maximize_fuel ops f2 b depth 3) →
  ∀ f1 f2 b depth, (3 - (depth + 1) ≤ k)%nat → (2 * k + 2 ≤ f1)%nat → (2 * k + 2 ≤ f2)%nat →
     chance_fuel ops f1 b depth = chance_fuel ops f2 b depth.
Proof.
  intros HP f1 f2 b depth Hd H1 H2.
  destruct f1 as [|f1]; [lia|]. destruct f2 as [|f2]; [lia|]. simpl.
  destruct (_ && _); [done|].
  case_bool_decide.
  - rewrite (HP f1 f2) by lia. done.
  - apply foldl_ext_in. intros us t _.
    rewrite (HP f1 f2) by lia. done.
Qed.

Lemma maximize_fuel_stable k f1 f2 (b : GameBoard) depth :
  (3 - depth ≤ k)%nat → (2 * k + 1 ≤ f1)%nat → (2 * k + 1 ≤ f2)%nat →
  maximize_fuel ops f1 b depth 3 = maximize_fuel ops f2 b depth 3.
Proof.
  revert f1 f2 b depth. induction k as [|k IH]; intros f1 f2 b depth Hd H1 H2.
  - rewrite !maximize_fuel_leaf by lia. done.
  - apply (fuel_stable_step k); try done.
    by apply fuel_stable_chance.
Qed.

Lemma chance_fuel_stable k f1 f2 (b : GameBoard) depth :
  (3 - (depth + 1) ≤ k)%nat → (2 * k + 2 ≤ f1)%nat → (2 * k + 2 ≤ f2)%nat →
  chance_fuel ops f1 b depth = chance_fuel ops f2 b depth.
Proof.
  apply fuel_stable_chance. intros g1 g2 b' d'. apply maximize_fuel_stable.
Qed.

(** More fuel than [maximize] and [chance] start with changes nothing. *)
Lemma maximize_enough_fuel fuel (b : GameBoard) depth :
  (7 ≤ fuel)%nat → maximize_fuel ops fuel b depth 3 = maximize ops b depth 3.
Proof.
  intros H. unfold maximize. apply (maximize_fuel_stable 3); lia.
Qed.


Lemma chance_enough_fuel fuel (b : GameBoard) depth :
  (6 ≤ fuel)%nat → chance_fuel ops fuel b depth = chance ops b depth.
Proof.
  intros H. unfold chance. apply (chance_fuel_stable 2); lia.
Qed.

(** ** The equations of maximize and chance *)

Lemma maximize_unfold (b : GameBoard) depth max_depth :
  maximize ops b depth max_depth
  = if bool_decide (max_depth ≤ depth)%nat then static_eval ops b
    else foldl (fun best mb =>
                  let utility := chance ops (snd mb) (depth + 1) in
                  if fge ops (ut0 utility) (ut0 (snd best))
                  then (Some (fst mb), utility) else best)
               (no_move ops)
               ((fun m => (m, moved (clone b) m)) <$> get_available_moves b).
Proof. reflexivity. Qed.

Lemma maximize_fuel_S fuel (b : GameBoard) depth max_depth :
  maximize_fuel ops (S fuel) b depth max_depth
  = if bool_decide (max_depth ≤ depth)%nat then static_eval ops b
    else foldl (fun best mb =>
                  let utility := chance_fuel ops fuel (snd mb) (depth + 1) in
                  if fge ops (ut0 utility) (ut0 (snd best))
                  then (Some (fst mb), utility) else best)
               (no_move ops)
               ((fun m => (m, moved (clone b) m)) <$> get_available_moves b).
Proof. reflexivity. Qed.

Lemma chance_fuel_S fuel (b : GameBoard) depth :
  chance_fuel ops (S fuel) b depth
  = let empty_cells := get_available_cells b in
    let n_empty := length empty_cells in
    if bool_decide (grid_len b * 2 ≤ n_empty)%nat
       && bool_decide (chance_max_depth b ≤ depth)%nat
    then eval_board ops b n_empty
    else if bool_decide (n_empty = 0%nat)
    then snd (maximize_fuel ops fuel b (depth + 1) 3)
    else foldl (fun utility_sum t =>
                  accumulate ops utility_sum
                    (snd (maximize_fuel ops fuel
                            (inserted (clone b) (fst (fst t)) (snd (fst t)))
                            (depth + 1) 3))
                    (snd t))
               (zero_utility ops) (possible_tiles ops empty_cells).
Proof. reflexivity. Qed.

End search_facts.

(** * The claims about the searches *)

Lemma wf_tie_board : wf_board tie_board.
Proof. wf_concrete. Qed.

(** C5, as the claim states it, fails.  On [tie_board] the legal moves are
    Left and Right, in this order, their utility tuples have the same
    first component, and [maximize] returns Right, the later one.  After
    either move the board has one empty cell, and with a 2 or a 4 in it no
    move is left: [maximize] at depth 2 returns minus infinity without
    evaluating a board. *)
Lemma maximize_first_tie_loses :
  get_available_moves tie_board = [Left; Right]
  ∧ ut0 (chance binary64 (moved (clone tie_board) Left) 1)
    = ut0 (chance binary64 (moved (clone tie_board) Right) 1)
  ∧ fst (maximize binary64 tie_board 0 3) = Some Right.
Proof. split_and!; vm_compute; reflexivity. Qed.

(** C5, amended.  When two legal moves have utility tuples with equal first
    components and that component is the greatest among the legal moves,
    [maximize] keeps and returns the later of the two.  In general, below
    the depth limit it returns the legal move [m] whose first component is
    greater than or equal to that of every legal move before it (and to
    minus infinity) while every legal move after it has a strictly smaller
    one. *)
Theorem maximize_keeps_last_tie {F} (ops : float_ops F) (b : GameBoard)
  (depth max_depth : nat) (l1 l2 : list nat) (m : nat) :
  wf_board b → (depth < max_depth)%nat →
  get_available_moves b = l1 ++ m :: l2 →
  fge ops (ut0 (chance ops (moved (clone b) m) (depth + 1))) (neg_inf ops) = true →
  (∀ m', m' ∈ l1 →
     fge ops (ut0 (chance ops (moved (clone b) m) (depth + 1)))
             (ut0 (chance ops (moved (clone b) m') (depth + 1))) = true) →
  (∀ m', m' ∈ l2 →
     fge ops (ut0 (chance ops (moved (clone b) m') (depth + 1)))
             (ut0 (chance ops (moved (clone b) m) (depth + 1))) = false) →
  maximize ops b depth max_depth
  = (Some m, chance ops (moved (clone b) m) (depth + 1)).
Proof.
  intros _ Hd Hmoves H0 H1 H2.
  rewrite maximize_unfold, bool_decide_false by lia.
  rewrite Hmoves, fmap_app, fmap_cons.
  apply (keep_last_best
           (fun st mb => fge ops (ut0 (chance ops (snd mb) (depth + 1))) (ut0 (snd st)))
           (fun mb => (Some (fst mb), chance ops (snd mb) (depth + 1)))).
  - exact H0.
  - intros c' (m' & -> & Hm')%list_elem_of_fmap. simpl. by apply H1.
  - intros c' (m' & -> & Hm')%list_elem_of_fmap. simpl. by apply H2.
Qed.

Lemma maximize_keeps_last_tie_witness :
  maximize binary64 tie_board 0 3
  = (Some Right, chance binary64 (moved (clone tie_board) Right) (0 + 1)).
Proof.
  apply (maximize_keeps_last_tie binary64 tie_board 0 3 [Left] [] Right).
  - exact wf_tie_board.
  - lia.
  - vm_compute. reflexivity.
  - vm_compute. reflexivity.
  - intros m' ->%list_elem_of_singleton. vm_compute. reflexivity.
  - intros m' Hm'. by apply elem_of_nil in Hm'.
Defined.

(** ** The weighted sum of chance *)


(** In float64 the weight [.9 * (1 / n)] and the quotient [.9 / n] can
    differ in the last bit; they do for [n = 5]. *)
Example chance_weight_rounding :
  chance_weight binary64 (lit_09 binary64) 5 = 0x1.70a3d70a3d70bp-3%float
  ∧ fdiv binary64 (lit_09 binary64) (of_int binary64 5) = 0x1.70a3d70a3d70ap-3%float.
Proof. split; vm_compute; reflexivity. Qed.

Section weighted.
Context {F : Type} (ops : float_ops F).



End weighted.

(** ** The weights of chance in float64 *)







(** ** The first empty cell *)

Lemma head_filter_list_find {A} (P : A → Prop) `{∀ x, Decision (P x)} (l : list A) :
  head (filter P l) = snd <$> list_find P l.
Proof.
  induction l as [|x l IH]; [done|].
  rewrite filter_cons. cbn [list_find]. destruct (decide (P x)); [done|].
  rewrite IH. by destruct (list_find P l) as [[i y]|].
Qed.

(** The reply that the code computes from [get_available_cells] is a 4 at
    the first empty cell in row-major order. *)
Lemma worst_case_reply_code (b : GameBoard) :
  match get_available_cells b with
  | worst_tile_pos :: _ => inserted b worst_tile_pos 4
  | [] => b
  end = worst_case_reply b.
Proof.
  unfold worst_case_reply, first_empty_cell.
  rewrite <- head_filter_list_find, <- get_available_cells_row_major.
  by destruct (get_available_cells b).
Qed.

Lemma rows_lookup n c s k i j :
  (seq s c ≫= (fun x => (fun y => (x, y)) <$> seq 0 n)) !! k = Some (i, j)
  ↔ ∃ i0, (i0 < c)%nat ∧ i = (s + i0)%nat ∧ (j < n)%nat ∧ k = (i0 * n + j)%nat.
Proof.
  revert s k. induction c as [|c IH]; intros s k.
  - simpl. split; [done|]. intros (i0 & ? & _). lia.
  - cbn [seq]. rewrite bind_cons.
    destruct (decide (k < n)%nat) as [Hk|Hk].
    + rewrite lookup_app_l by (by rewrite length_fmap, length_seq).
      rewrite list_lookup_fmap, lookup_seq_lt by done. simpl. split.
      * intros [= <- <-]. exists 0%nat. split_and!; lia.
      * intros (i0 & Hi0 & -> & Hj & ->).
        assert (i0 = 0)%nat as -> by nia.
        do 2 f_equal; lia.
    + rewrite lookup_app_r by (rewrite length_fmap, length_seq; lia).
      rewrite length_fmap, length_seq, IH. split.
      * intros (i0 & Hi0 & -> & Hj & Hk'). exists (S i0). split_and!; (lia || nia).
      * intros (i0 & Hi0 & -> & Hj & ->).
        destruct i0 as [|i0]; [lia|].
        exists i0. split_and!; (lia || nia).
Qed.

Lemma row_major_lookup n k i j :
  row_major n !! k = Some (i, j)
  ↔ (i < n)%nat ∧ (j < n)%nat ∧ k = (i * n + j)%nat.
Proof.
  unfold row_major. rewrite rows_lookup. split.
  - intros (i0 & ? & -> & ? & ->). split_and!; lia.
  - intros (? & ? & ->). exists i. split_and!; lia.
Qed.

Lemma is_empty_cell_true (b : GameBoard) i j :
  is_empty_cell b (i, j) = true ↔ cell (grid b) i j = 0.
Proof. unfold is_empty_cell. simpl. apply Z.eqb_eq. Qed.

Lemma first_empty_cell_Some (b : GameBoard) (pos : nat * nat) :
  first_empty_cell b = Some pos →
  (fst pos < grid_len b)%nat ∧ (snd pos < grid_len b)%nat
  ∧ cell (grid b) (fst pos) (snd pos) = 0
  ∧ ∀ i j, (i < grid_len b)%nat → (j < grid_len b)%nat → before (i, j) pos →
           cell (grid b) i j ≠ 0.
Proof.
  unfold first_empty_cell. intros ([k p] & Hfind & ->)%fmap_Some. simpl.
  apply list_find_Some in Hfind as (Hk & Hp & Hfirst).
  destruct p as [i j]. simpl.
  apply row_major_lookup in Hk as (Hi & Hj & ->).
  split_and!; [done|done|by apply is_empty_cell_true|].
  intros i' j' Hi' Hj' Hb Hz.
  apply (Hfirst (i' * grid_len b + j')%nat (i', j')).
  - by apply row_major_lookup.
  - unfold before in Hb. simpl in Hb. nia.
  - by apply is_empty_cell_true.
Qed.

Lemma first_empty_cell_None (b : GameBoard) :
  first_empty_cell b = None →
  ∀ i j, (i < grid_len b)%nat → (j < grid_len b)%nat → cell (grid b) i j ≠ 0.
Proof.
  unfold first_empty_cell. intros Hfind%fmap_None i j Hi Hj Hz.
  apply list_find_None in Hfind.
  apply (proj1 (Forall_lookup _ _) Hfind (i * grid_len b + j)%nat (i, j)).
  - by apply row_major_lookup.
  - by apply is_empty_cell_true.
Qed.

(** What the reply does to the board: a 4 at the first empty cell and
    nothing else, or nothing at all when no cell is empty. *)
Lemma worst_case_reply_spec (b : GameBoard) :
  wf_board b →
  match first_empty_cell b with
  | Some pos =>
      (fst pos < grid_len b)%nat ∧ (snd pos < grid_len b)%nat
      ∧ cell (grid b) (fst pos) (snd pos) = 0
      ∧ (∀ i j, (i < grid_len b)%nat → (j < grid_len b)%nat → before (i, j) pos →
                cell (grid b) i j ≠ 0)
      ∧ (∀ i j, cell (grid (worst_case_reply b)) i j
                = if decide ((i, j) = pos) then 4 else cell (grid b) i j)
  | None =>
      (∀ i j, (i < grid_len b)%nat → (j < grid_len b)%nat → cell (grid b) i j ≠ 0)
      ∧ worst_case_reply b = b
  end.
Proof.
  intros Hb. unfold worst_case_reply.
  destruct (first_empty_cell b) as [pos|] eqn:Hfirst.
  - destruct (first_empty_cell_Some b pos Hfirst) as (Hi & Hj & Hz & Hbefore).
    split_and!; try done.
    destruct (insert_tile_inside b pos 4 Hb Hi Hj) as (b' & Hins & _ & _ & Hcells).
    unfold inserted. rewrite Hins. exact Hcells.
  - split; [|done]. by apply first_empty_cell_None.
Qed.

Section minimax_facts.
Context {F : Type} (ops : float_ops F).

Lemma minimax_maximizing (b : GameBoard) (d : nat) :
  minimax ops b (S d) true
  = if bool_decide (length (get_available_moves b) = 0%nat)
    then ut0 (eval_board ops b (length (get_available_cells b)))
    else foldl (fun max_eval move =>
                  py_max ops max_eval
                    (minimax ops (worst_case_reply (moved (clone b) move)) d false))
               (neg_inf ops) (get_available_moves b).
Proof.
  cbn [minimax]. case_bool_decide; [done|].
  apply foldl_ext_in. intros max_eval move _. cbv zeta.
  by rewrite worst_case_reply_code.
Qed.

Lemma minimax_move_unfold (b : GameBoard) (max_depth : nat) :
  minimax_move ops b max_depth
  = fst (foldl (fun best move =>
                  if fgt ops (move_score ops b max_depth move) (snd best)
                  then (Some move, move_score ops b max_depth move) else best)
               (None, neg_inf ops) (get_available_moves b)).
Proof.
  unfold minimax_move. f_equal.
  apply foldl_ext_in. intros best move _. cbv zeta.
  by rewrite worst_case_reply_code.
Qed.

Lemma minimax_move_strict (b : GameBoard) (max_depth : nat)
  (l1 l2 : list nat) (m : nat) :
  get_available_moves b = l1 ++ m :: l2 →
  fgt ops (move_score ops b max_depth m) (neg_inf ops) = true →
  (∀ m', m' ∈ l1 →
     fgt ops (move_score ops b max_depth m) (move_score ops b max_depth m') = true) →
  (∀ m', m' ∈ l2 →
     fgt ops (move_score ops b max_depth m') (move_score ops b max_depth m) = false) →
  minimax_move ops b max_depth = Some m.
Proof.
  intros Hmoves H0 H1 H2. rewrite minimax_move_unfold, Hmoves.
  rewrite (keep_last_best
             (fun st move => fgt ops (move_score ops b max_depth move) (snd st))
             (fun move => (Some move, move_score ops b max_depth move))); done.
Qed.
End minimax_facts.

(** C8.  In the maximizing layer of Minimax and in the top-level loop of
    [minimax_move], the board handed to the minimizing layer after a legal
    move is the moved clone with a 4 written at its first empty cell in
    row-major order, and the moved clone itself when no cell is empty; no
    other cell changes and no other placement is tried.  The top-level
    loop replaces the move it keeps only by a move with a strictly greater
    score, so the move returned has a score strictly greater than every
    legal move before it and no legal move after it has a strictly greater
    one. *)
Theorem minimax_fixed_reply {F} (ops : float_ops F) (b : GameBoard) :
  wf_board b →
  (∀ d, minimax ops b (S d) true
        = if bool_decide (length (get_available_moves b) = 0%nat)
          then ut0 (eval_board ops b (length (get_available_cells b)))
          else foldl (fun max_eval move =>
                        py_max ops max_eval
                          (minimax ops (worst_case_reply (moved (clone b) move)) d false))
                     (neg_inf ops) (get_available_moves b))
  ∧ (∀ max_depth,
       (1 ≤ max_depth)%nat →
       minimax_move ops b max_depth
       = fst (foldl (fun best move =>
                       if fgt ops (move_score ops b max_depth move) (snd best)
                       then (Some move, move_score ops b max_depth move) else best)
                    (None, neg_inf ops) (get_available_moves b)))
  ∧ (∀ move,
       match first_empty_cell (moved (clone b) move) with
       | Some pos =>
           (fst pos < grid_len b)%nat ∧ (snd pos < grid_len b)%nat
           ∧ cell (grid (moved (clone b) move)) (fst pos) (snd pos) = 0
           ∧ (∀ i j, (i < grid_len b)%nat → (j < grid_len b)%nat →
                     before (i, j) pos →
                     cell (grid (moved (clone b) move)) i j ≠ 0)
           ∧ (∀ i j, cell (grid (worst_case_reply (moved (clone b) move))) i j
                     = if decide ((i, j) = pos) then 4
                       else cell (grid (moved (clone b) move)) i j)
       | None =>
           (∀ i j, (i < grid_len b)%nat → (j < grid_len b)%nat →
                   cell (grid (moved (clone b) move)) i j ≠ 0)
           ∧ worst_case_reply (moved (clone b) move) = moved (clone b) move
       end)
  ∧ (∀ max_depth l1 l2 m,
       (1 ≤ max_depth)%nat →
       get_available_moves b = l1 ++ m :: l2 →
       fgt ops (move_score ops b max_depth m) (neg_inf ops) = true →
       (∀ m', m' ∈ l1 →
          fgt ops (move_score ops b max_depth m) (move_score ops b max_depth m') = true) →
       (∀ m', m' ∈ l2 →
          fgt ops (move_score ops b max_depth m') (move_score ops b max_depth m) = false) →
       minimax_move ops b max_depth = Some m).
Proof.
  intros Hb. split_and!.
  - apply minimax_maximizing.
  - intros max_depth _. apply minimax_move_unfold.
  - intros move.
    apply (worst_case_reply_spec (moved (clone b) move)).
    apply wf_moved. by rewrite clone_eq.
  - intros max_depth l1 l2 m _. apply minimax_move_strict.
Qed.

Lemma minimax_fixed_reply_witness :
  minimax_move binary64 tie_board 3 = Some Right.
Proof.
  refine (proj2 (proj2 (proj2 (minimax_fixed_reply binary64 tie_board wf_tie_board)))
            3%nat [Left] [] Right _ _ _ _ _).
  - lia.
  - vm_compute. reflexivity.
  - vm_compute. reflexivity.
  - intros m' ->%list_elem_of_singleton. vm_compute. reflexivity.
  - intros m' Hm'. by apply elem_of_nil in Hm'.
Defined.

(** ** Expectimax on board objects *)

(** ** Boards as objects *)

Lemma heap_le_refl (h : Heap) : heap_le h h.
Proof. by split. Qed.

Lemma heap_le_trans (h1 h2 h3 : Heap) : heap_le h1 h2 → heap_le h2 h3 → heap_le h1 h3.
Proof. intros [? ?] [? ?]. split; by etrans. Qed.

Lemma snapshot_le (h h' : Heap) p b :
  heap_le h h' → snapshot h p = Some b → snapshot h' p = Some b.
Proof.
  intros [Ha Hb]. unfold snapshot.
  destruct (boards h !! p) as [o|] eqn:Ho; [|done].
  destruct (arrays h !! base (obj_grid o)) as [buffer|] eqn:Hbuf; [|done].
  intros [= <-].
  rewrite (prefix_lookup_Some _ _ _ _ Ho Hb).
  by rewrite (prefix_lookup_Some _ _ _ _ Hbuf Ha).
Qed.

Lemma snapshot_Some (h : Heap) p b :
  snapshot h p = Some b →
  ∃ v buffer, boards h !! p = Some (MkBoardObj (grid_len b) v)
              ∧ arrays h !! base v = Some buffer
              ∧ grid b = seen buffer v.
Proof.
  unfold snapshot.
  destruct (boards h !! p) as [[n v]|] eqn:Ho; [|done]. simpl.
  destruct (arrays h !! base v) as [buffer|] eqn:Hbuf; [|done].
  intros [= <-]. by exists v, buffer.
Qed.

Lemma snapshot_intro (h : Heap) p n v buffer :
  boards h !! p = Some (MkBoardObj n v) → arrays h !! base v = Some buffer →
  snapshot h p = Some {| grid_len := n; grid := seen buffer v |}.
Proof. intros Ho Hbuf. unfold snapshot. rewrite Ho. simpl. by rewrite Hbuf. Qed.

Lemma lookup_snoc_here {A} (l : list A) x : (l ++ [x]) !! length l = Some x.
Proof. by rewrite lookup_app_r, Nat.sub_diag by lia. Qed.

Lemma lookup_snoc_old {A} (l : list A) x i y :
  l !! i = Some y → (l ++ [x]) !! i = Some y.
Proof. intros H. by apply lookup_app_l_Some. Qed.

Lemma prefix_snoc {A} (l k : list A) x : l `prefix_of` k → l `prefix_of` k ++ [x].
Proof. intros H. etrans; [exact H|]. by apply prefix_app_r. Qed.

Lemma prefix_insert_beyond {A} (l k : list A) i x :
  l `prefix_of` k → (length l ≤ i)%nat → l `prefix_of` <[i := x]> k.
Proof.
  intros [t ->] Hi. rewrite insert_app_r_alt by done. by apply prefix_app_r.
Qed.

Section object_facts.
Context {F : Type} (ops : float_ops F) {World : Type}.

Lemma bind_Some {A B} (c : Py (World:=World) A) (f : A → Py B) s a s' :
  c s = Some (a, s') → bind c f s = f a s'.
Proof. intros H. unfold bind. by rewrite H. Qed.

Lemma bind_bind {A B C} (c : Py (World:=World) A) (f : A → Py B) (g : B → Py C) s :
  bind (bind c f) g s = bind c (fun a => bind (f a) g) s.
Proof. unfold bind. by destruct (c s) as [[a s']|]. Qed.

Lemma bind_ret {A B} (a : A) (f : A → Py (World:=World) B) s :
  bind (ret a) f s = f a s.
Proof. done. Qed.

Lemma load_run (h : Heap) (w : World) p b :
  snapshot h p = Some b → load p (h, w) = Some (b, (h, w)).
Proof.
  intros (v & buffer & Ho & Hbuf & Hg)%snapshot_Some.
  unfold load, bind, get_object, read_array, ret. simpl.
  rewrite Ho. simpl. rewrite Hbuf. destruct b. simpl in *. by subst.
Qed.

Lemma clone_run (h : Heap) (w : World) p b :
  snapshot h p = Some b →
  clone_obj p (h, w)
  = Some (length (boards h),
          (MkHeap (arrays h ++ [np_zeros (grid_len b) (grid_len b); grid b])
             (boards h ++ [MkBoardObj (grid_len b) (whole (S (length (arrays h))))]),
           w)).
Proof.
  intros (v & buffer & Ho & Hbuf & Hg)%snapshot_Some.
  unfold clone_obj, init_obj, bind, get_object, new_array, new_object, read_array,
    set_grid, ret. simpl.
  rewrite Ho. simpl. rewrite (lookup_snoc_old _ _ _ _ Hbuf). simpl.
  rewrite lookup_snoc_here. simpl.
  rewrite length_app. simpl. rewrite Nat.add_1_r.
  rewrite <- Hg, <- app_assoc. simpl.
  rewrite insert_app_r_alt, Nat.sub_diag by done. done.
Qed.

Lemma clone_snapshot (h : Heap) p b :
  snapshot h p = Some b →
  snapshot (MkHeap (arrays h ++ [np_zeros (grid_len b) (grid_len b); grid b])
              (boards h ++ [MkBoardObj (grid_len b) (whole (S (length (arrays h))))]))
    (length (boards h)) = Some b.
Proof.
  intros _. unfold snapshot. simpl. rewrite lookup_snoc_here. simpl.
  rewrite lookup_app_r by lia.
  replace (S (length (arrays h)) - length (arrays h))%nat with 1%nat by lia.
  simpl. by destruct b.
Qed.

Lemma clone_le (h : Heap) (b : GameBoard) :
  heap_le h
    (MkHeap (arrays h ++ [np_zeros (grid_len b) (grid_len b); grid b])
       (boards h ++ [MkBoardObj (grid_len b) (whole (S (length (arrays h))))])).
Proof. split; simpl; by apply prefix_app_r. Qed.

Lemma update_grid_run (f : View → Py View) q (h h' : Heap) (w : World) n v g :
  boards h !! q = Some (MkBoardObj n v) →
  f v (h, w) = Some (g, (h', w)) → boards h' = boards h →
  update_grid q f (h, w)
  = Some (tt, (MkHeap (arrays h') (<[q := MkBoardObj n g]> (boards h)), w)).
Proof.
  intros Ho Hf Hb. unfold update_grid, bind, get_object, set_grid. simpl.
  rewrite Ho. simpl. rewrite Hf. simpl. by rewrite Hb, Ho.
Qed.

Lemma update_grid_slice (f : View → View) q (h : Heap) (w : World) n v :
  boards h !! q = Some (MkBoardObj n v) →
  update_grid q (fun g => ret (f g)) (h, w)
  = Some (tt, (MkHeap (arrays h) (<[q := MkBoardObj n (f v)]> (boards h)), w)).
Proof. intros Ho. by apply (update_grid_run _ q h h w n v (f v)). Qed.

Lemma heap_insert_id (h : Heap) z (o : ndarray) :
  arrays h !! z = Some o → MkHeap (<[z := o]> (arrays h)) (boards h) = h.
Proof. intros Hz. rewrite list_insert_id by done. by destruct h. Qed.

Lemma get_item_run (h : Heap) (w : World) a buffer i j :
  arrays h !! base a = Some buffer →
  get_item a i j (h, w) = Some (cell (seen buffer a) i j, (h, w)).
Proof.
  intros Ha. unfold get_item, bind, read_array, ret. cbn. by rewrite Ha.
Qed.

Lemma set_item_run (h : Heap) (w : World) z (o : ndarray) i j x :
  arrays h !! z = Some o →
  set_item (whole z) i j x (h, w)
  = Some (tt, (MkHeap (<[z := <[i := <[j := x]> (default [] (o !! i))]> o]> (arrays h))
                 (boards h), w)).
Proof.
  intros Hz. unfold set_item, bind, read_array, write_array. cbn.
  rewrite Hz. cbn. by rewrite Hz.
Qed.

(** The row that the inner loop of [justify_left] leaves in [out]. *)
Lemma insert_row_step (o : ndarray) i c x (st : nat * list Z) :
  <[i := snd st]> (<[i := <[c := x]> (default [] (o !! i))]> o) = <[i := snd st]> o.
Proof. apply list_insert_insert_eq. Qed.

Lemma justify_inner_run (a : View) z buffer i (js : list nat) :
  base a ≠ z →
  ∀ c (o : ndarray) (h : Heap) (w : World),
    arrays h !! base a = Some buffer → arrays h !! z = Some o →
    for_each js c
      (fun c j =>
         let* x := get_item a i j in
         if negb (x =? 0)
         then let* _ := set_item (whole z) i c x in ret (S c)
         else ret c) (h, w)
    = Some (fst (foldl (justify_step (default [] (seen buffer a !! i)))
                   (c, default [] (o !! i)) js),
            (MkHeap (<[z := <[i := snd (foldl (justify_step (default [] (seen buffer a !! i)))
                                         (c, default [] (o !! i)) js)]> o]>
                       (arrays h))
               (boards h), w)).
Proof.
  intros Hne. induction js as [|j js IH]; intros c o h w Ha Hz.
  - cbn. unfold ret. do 3 f_equal.
    destruct (o !! i) as [r|] eqn:Hi; cbn.
    + rewrite (list_insert_id o) by done. by rewrite heap_insert_id.
    + rewrite (list_insert_ge o) by (by apply lookup_ge_None). by rewrite heap_insert_id.
  - cbn [for_each foldl].
    rewrite bind_bind, (bind_Some _ _ _ _ _ (get_item_run h w a buffer i j Ha)).
    unfold justify_step at 2 4. fold (cell (seen buffer a) i j).
    destruct (negb (cell (seen buffer a) i j =? 0)); cbn [fst snd]; rewrite ?bind_bind.
    + rewrite (bind_Some _ _ _ _ _ (set_item_run h w z o i c _ Hz)), bind_ret.
      set (o1 := <[i := <[c := cell (seen buffer a) i j]> (default [] (o !! i))]> o).
      assert (z < length (arrays h))%nat as Hlt by (by eapply lookup_lt_Some).
      rewrite (IH (S c) o1); cbn [arrays boards].
      * assert (default [] (o1 !! i)
                = <[c := cell (seen buffer a) i j]> (default [] (o !! i))) as ->.
        { unfold o1. destruct (o !! i) as [r|] eqn:Hi.
          - rewrite list_lookup_insert_eq by (by eapply lookup_lt_Some). done.
          - rewrite list_insert_ge by (by apply lookup_ge_None). by rewrite Hi. }
        rewrite list_insert_insert_eq. unfold o1. by rewrite list_insert_insert_eq.
      * by rewrite list_lookup_insert_ne by done.
      * by apply list_lookup_insert_eq.
    + rewrite bind_ret. by apply IH.
Qed.

Lemma justify_outer_run (a : View) z buffer (rows : list nat) :
  base a ≠ z →
  ∀ (o : ndarray) (h : Heap) (w : World),
    arrays h !! base a = Some buffer → arrays h !! z = Some o →
    for_each rows tt
      (fun _ i =>
         let* _ :=
           for_each (seq 0 (shape1 (seen buffer a))) 0%nat
             (fun c j =>
                let* x := get_item a i j in
                if negb (x =? 0)
                then let* _ := set_item (whole z) i c x in ret (S c)
                else ret c) in
         ret tt) (h, w)
    = Some (tt,
            (MkHeap (<[z := foldl (fun o i =>
                                      <[i := justify_row (shape1 (seen buffer a))
                                               (default [] (seen buffer a !! i))
                                               (default [] (o !! i))]> o)
                               o rows]> (arrays h))
               (boards h), w)).
Proof.
  intros Hne. induction rows as [|i rows IH]; intros o h w Ha Hz.
  - cbn. unfold ret. by rewrite heap_insert_id.
  - cbn [for_each foldl].
    rewrite bind_bind,
      (bind_Some _ _ _ _ _ (justify_inner_run a z buffer i _ Hne 0%nat o h w Ha Hz)),
      bind_ret.
    fold (justify_row (shape1 (seen buffer a))
                             (default [] (seen buffer a !! i)) (default [] (o !! i))).
    assert (z < length (arrays h))%nat as Hlt by (by eapply lookup_lt_Some).
    rewrite (IH (<[i := justify_row (shape1 (seen buffer a))
                           (default [] (seen buffer a !! i)) (default [] (o !! i))]> o));
      cbn [arrays boards].
    + by rewrite list_insert_insert_eq.
    + by rewrite list_lookup_insert_ne by done.
    + by apply list_lookup_insert_eq.
Qed.

(** [justify_left] on arrays, one row after the other. *)
Lemma justify_rows_shift m (r : list Z) (a : ndarray) (o0 : list Z) n :
  ∀ k (out : ndarray),
    foldl (fun o i => <[i := justify_row m (default [] ((r :: a) !! i))
                              (default [] (o !! i))]> o)
      (o0 :: out) (seq (S k) n)
    = o0 :: foldl (fun o i => <[i := justify_row m (default [] (a !! i))
                                       (default [] (o !! i))]> o)
              out (seq k n).
Proof.
  induction n as [|n IH]; intros k out; [done|].
  cbn [seq foldl]. by rewrite <- IH.
Qed.

Lemma justify_rows_nil m (a : ndarray) (l : list nat) :
  foldl (fun o i => <[i := justify_row m (default [] (a !! i))
                            (default [] (o !! i))]> o) [] l = [].
Proof. induction l as [|i l IH]; [done|]. exact IH. Qed.

Lemma justify_rows_foldl m (a out : ndarray) :
  justify_rows m a out
  = foldl (fun o i => <[i := justify_row m (default [] (a !! i))
                              (default [] (o !! i))]> o)
      out (seq 0 (length a)).
Proof.
  revert out. induction a as [|r a IH]; intros out; [by destruct out|].
  destruct out as [|o0 out]; [by rewrite justify_rows_nil|].
  cbn [justify_rows length seq foldl].
  change (<[0%nat := ?x]> (o0 :: out)) with (x :: out).
  rewrite (justify_rows_shift m r a _ (length a) 0%nat out).
  by rewrite IH.
Qed.

Lemma justify_left_run (h : Heap) (w : World) a z buffer out :
  arrays h !! base a = Some buffer → arrays h !! z = Some out → base a ≠ z →
  justify_left_obj a (whole z) (h, w)
  = Some (whole z,
          (MkHeap (<[z := justify_left (seen buffer a) out]> (arrays h)) (boards h), w)).
Proof.
  intros Ha Hz Hne. unfold justify_left_obj.
  assert (read_array a (h, w) = Some (seen buffer a, (h, w))) as Hr
    by (unfold read_array; cbn; by rewrite Ha).
  rewrite (bind_Some _ _ _ _ _ Hr).
  rewrite (bind_Some _ _ _ _ _ (justify_outer_run a z buffer _ Hne out h w Ha Hz)).
  unfold ret, justify_left. by rewrite justify_rows_foldl.
Qed.

Lemma merge_run (h : Heap) (w : World) z buffer :
  arrays h !! z = Some buffer →
  merge_obj (whole z) (h, w)
  = Some (whole z, (MkHeap (<[z := merge buffer]> (arrays h)) (boards h), w)).
Proof.
  intros Hz. unfold merge_obj, bind, read_array, write_array, ret. simpl.
  rewrite Hz. simpl. by rewrite Hz.
Qed.

Lemma compress_run (h : Heap) (w : World) q n v buffer z1 z2 out1 out2 :
  boards h !! q = Some (MkBoardObj n v) →
  arrays h !! base v = Some buffer →
  arrays h !! z1 = Some out1 → arrays h !! z2 = Some out2 →
  base v ≠ z1 → z1 ≠ z2 →
  compress_obj q z1 z2 (h, w)
  = Some (tt,
          (MkHeap (<[z2 := compress out1 out2 (seen buffer v)]>
                     (<[z1 := merge (justify_left (seen buffer v) out1)]> (arrays h)))
             (<[q := MkBoardObj n (whole z2)]> (boards h)),
           w)).
Proof.
  intros Ho Hbuf H1 H2 Hn1 Hn2.
  pose proof (lookup_lt_Some _ _ _ Ho) as Hq.
  pose proof (lookup_lt_Some _ _ _ H1) as Hz1.
  unfold compress_obj.
  erewrite bind_Some;
    [|eapply update_grid_run; [exact Ho|by apply justify_left_run|done]].
  erewrite bind_Some;
    [|eapply update_grid_run;
       [simpl; by apply list_lookup_insert_eq
       |apply merge_run; simpl; by apply list_lookup_insert_eq
       |done]].
  simpl. rewrite !list_insert_insert_eq.
  erewrite update_grid_run;
    [|simpl; by apply list_lookup_insert_eq
     |apply justify_left_run; simpl;
       [by apply list_lookup_insert_eq
       |by rewrite list_lookup_insert_ne
       |done]
     |done].
  simpl. by rewrite !list_insert_insert_eq.
Qed.

Ltac lookup_here :=
  simpl; apply list_lookup_insert_eq; rewrite ?length_insert; done.

Lemma seen_sliced (buffer : ndarray) (v : View) (o : view_op) :
  seen buffer (sliced v o) = apply_view (seen buffer v) o.
Proof. unfold seen, sliced. simpl. by rewrite foldl_snoc. Qed.

(** The body of [move] on an object: two new buffers, a new reference in
    the object, and the grid of the pure [move] behind it. *)
Lemma move_grid_run (h : Heap) (w : World) q dir b :
  snapshot h q = Some b →
  ∃ z1 z2 o',
    move_grid_obj q dir (h, w)
    = Some (tt, (MkHeap (arrays h ++ [z1; z2]) (<[q := o']> (boards h)), w))
    ∧ snapshot (MkHeap (arrays h ++ [z1; z2]) (<[q := o']> (boards h))) q
      = Some (moved b dir).
Proof.
  intros (v & buffer & Ho & Hbuf & Hg)%snapshot_Some.
  pose proof (lookup_lt_Some _ _ _ Ho) as Hq.
  pose proof (lookup_lt_Some _ _ _ Hbuf) as Hv.
  set (n := grid_len b) in *. set (Z := np_zeros n n).
  set (A := arrays h ++ [Z; Z]).
  assert (A !! base v = Some buffer) as HA by (by apply lookup_app_l_Some).
  assert (A !! length (arrays h) = Some Z) as H1
    by (unfold A; by rewrite lookup_app_r, Nat.sub_diag by lia).
  assert (A !! S (length (arrays h)) = Some Z) as H2.
  { unfold A. rewrite lookup_app_r by lia.
    by replace (S (length (arrays h)) - length (arrays h))%nat with 1%nat by lia. }
  assert (∀ x y, <[S (length (arrays h)) := y]> (<[length (arrays h) := x]> A)
                 = arrays h ++ [x; y]) as Hins.
  { intros x y. unfold A.
    rewrite (insert_app_r_alt _ _ (length (arrays h))), Nat.sub_diag by lia. simpl.
    rewrite insert_app_r_alt by lia.
    by replace (S (length (arrays h)) - length (arrays h))%nat with 1%nat by lia. }
  assert (move_grid_obj q dir (h, w)
          = (match dir with
             | 0%nat =>
                 let* _ := update_grid q (fun g => ret (sliced (sliced g FlipCols) Transposed)) in
                 let* _ := compress_obj q (length (arrays h)) (S (length (arrays h))) in
                 update_grid q (fun g => ret (sliced (sliced g Transposed) FlipCols))
             | 1%nat =>
                 let* _ := update_grid q (fun g => ret (sliced (sliced g Transposed) FlipCols)) in
                 let* _ := compress_obj q (length (arrays h)) (S (length (arrays h))) in
                 update_grid q (fun g => ret (sliced (sliced g FlipCols) Transposed))
             | 2%nat => compress_obj q (length (arrays h)) (S (length (arrays h)))
             | 3%nat =>
                 let* _ := update_grid q (fun g => ret (sliced g FlipCols)) in
                 let* _ := update_grid q (fun g => ret (sliced g FlipRows)) in
                 let* _ := compress_obj q (length (arrays h)) (S (length (arrays h))) in
                 let* _ := update_grid q (fun g => ret (sliced g FlipCols)) in
                 update_grid q (fun g => ret (sliced g FlipRows))
             | _ => ret tt
             end) (MkHeap A (boards h), w)) as ->.
  { unfold move_grid_obj, bind at 1, get_object. simpl. rewrite Ho.
    unfold bind at 1, new_array. simpl. unfold bind at 1. simpl.
    rewrite length_app. simpl. rewrite Nat.add_1_r.
    unfold A. by rewrite <- app_assoc. }
  destruct dir as [|[|[|[|dir]]]].
  - erewrite bind_Some; [|by apply update_grid_slice].
    erewrite bind_Some;
      [|eapply compress_run; simpl;
         [lookup_here|exact HA|exact H1|exact H2|simpl; lia|lia]].
    erewrite update_grid_slice by (lookup_here).
    simpl. rewrite !list_insert_insert_eq, Hins.
    eexists _, _, _. split; [reflexivity|].
    erewrite snapshot_intro;
      [|lookup_here
       |simpl; rewrite lookup_app_r by lia;
        by replace (S (length (arrays h)) - length (arrays h))%nat with 1%nat by lia].
    unfold moved, move. simpl. f_equal. f_equal.
    rewrite !seen_sliced. simpl. by rewrite Hg.
  - erewrite bind_Some; [|by apply update_grid_slice].
    erewrite bind_Some;
      [|eapply compress_run; simpl;
         [lookup_here|exact HA|exact H1|exact H2|simpl; lia|lia]].
    erewrite update_grid_slice by (lookup_here).
    simpl. rewrite !list_insert_insert_eq, Hins.
    eexists _, _, _. split; [reflexivity|].
    erewrite snapshot_intro;
      [|lookup_here
       |simpl; rewrite lookup_app_r by lia;
        by replace (S (length (arrays h)) - length (arrays h))%nat with 1%nat by lia].
    unfold moved, move. simpl. f_equal. f_equal.
    rewrite !seen_sliced. simpl. by rewrite Hg.
  - erewrite compress_run; [|exact Ho|exact HA|exact H1|exact H2|lia|lia].
    rewrite Hins.
    eexists _, _, _. split; [reflexivity|].
    erewrite snapshot_intro;
      [|lookup_here
       |simpl; rewrite lookup_app_r by lia;
        by replace (S (length (arrays h)) - length (arrays h))%nat with 1%nat by lia].
    unfold moved, move. simpl. f_equal. f_equal. by rewrite Hg.
  - erewrite bind_Some; [|by apply update_grid_slice].
    erewrite bind_Some; [|apply update_grid_slice; lookup_here].
    erewrite bind_Some;
      [|eapply compress_run; simpl;
         [lookup_here|exact HA|exact H1|exact H2|simpl; lia|lia]].
    erewrite bind_Some; [|apply update_grid_slice; lookup_here].
    erewrite update_grid_slice by (lookup_here).
    simpl. rewrite !list_insert_insert_eq, Hins.
    eexists _, _, _. split; [reflexivity|].
    erewrite snapshot_intro;
      [|lookup_here
       |simpl; rewrite lookup_app_r by lia;
        by replace (S (length (arrays h)) - length (arrays h))%nat with 1%nat by lia].
    unfold moved, move. simpl. f_equal. f_equal.
    rewrite !seen_sliced. simpl. by rewrite Hg.
  - exists Z, Z, (MkBoardObj n v). rewrite list_insert_id by done.
    split; [reflexivity|].
    erewrite snapshot_intro; [|exact Ho|exact HA].
    unfold moved, move. simpl. by rewrite Hg.
Qed.

Lemma snapshot_frame (h : Heap) q o' (k : list ndarray) p b :
  snapshot h p = Some b → p ≠ q →
  snapshot (MkHeap (arrays h ++ k) (<[q := o']> (boards h))) p = Some b.
Proof.
  intros (v & buffer & Ho & Hbuf & Hg)%snapshot_Some Hne.
  destruct b as [n g]. simpl in *. subst g.
  apply snapshot_intro; simpl.
  - by rewrite list_lookup_insert_ne.
  - by apply lookup_app_l_Some.
Qed.

(** *** Computations that only add to the heap *)

Lemma returns_ret {A} (a : A) (h : Heap) (w : World) (post : A → Heap → Prop) :
  post a h → returns (ret a) h w post.
Proof. intros H. exists a, h. split_and!; [done|apply heap_le_refl|done]. Qed.

Lemma returns_bind {A B} (c : Py A) (f : A → Py B) (h : Heap) (w : World)
  (mid : A → Heap → Prop) (post : B → Heap → Prop) :
  returns c h w mid →
  (∀ a h', heap_le h h' → mid a h' → returns (f a) h' w post) →
  returns (bind c f) h w post.
Proof.
  intros (a & h1 & Hc & Hle & Hmid) Hf.
  destruct (Hf a h1 Hle Hmid) as (r & h2 & Hr & Hle2 & Hpost).
  exists r, h2. split_and!; [|by eapply heap_le_trans|done].
  by rewrite (bind_Some _ _ _ _ _ Hc).
Qed.

Lemma returns_assoc {A B C} (c : Py A) (f : A → Py B) (g : B → Py C)
  (h : Heap) (w : World) (post : C → Heap → Prop) :
  returns (bind (bind c f) g) h w post →
  returns (bind c (fun a => bind (f a) g)) h w post.
Proof.
  intros (r & h' & Hr & H). exists r, h'. split; [|done].
  rewrite <- Hr. unfold bind. destruct (c (h, w)) as [[a s]|]; done.
Qed.

Lemma returns_impl {A} (c : Py A) (h : Heap) (w : World) (P Q : A → Heap → Prop) :
  returns c h w P → (∀ a h', heap_le h h' → P a h' → Q a h') → returns c h w Q.
Proof.
  intros (a & h' & Hc & Hle & HP) HPQ. exists a, h'. split_and!; [done|done|].
  by apply HPQ.
Qed.

(** A loop whose body only adds to the heap: [inv done acc h'] holds of
    the elements gone through, the state of the loop and the heap. *)
Lemma for_each_returns {A B} (body : A → B → Py A) (inv : list B → A → Heap → Prop)
  (l : list B) (a : A) (h : Heap) (w : World) :
  inv [] a h →
  (∀ done x rest acc h1,
     l = done ++ x :: rest → heap_le h h1 → inv done acc h1 →
     returns (body acc x) h1 w (fun acc' h2 => inv (done ++ [x]) acc' h2)) →
  returns (for_each l a body) h w (inv l).
Proof.
  intros H0 Hstep.
  assert (∀ rest done acc h1,
            l = done ++ rest → heap_le h h1 → inv done acc h1 →
            ∃ r h', for_each rest acc body (h1, w) = Some (r, (h', w))
                    ∧ heap_le h h' ∧ inv l r h') as Hloop.
  { induction rest as [|x rest IH]; intros done acc h1 Hl Hle Hinv.
    - rewrite app_nil_r in Hl. subst done. by exists acc, h1.
    - destruct (Hstep done x rest acc h1 Hl Hle Hinv) as (acc' & h2 & Hb & Hle2 & Hinv2).
      destruct (IH (done ++ [x]) acc' h2) as (r & h' & Hr & Hle' & Hinv');
        [by rewrite <- app_assoc|by eapply heap_le_trans|done|].
      exists r, h'. split_and!; [|done|done].
      cbn [for_each]. by rewrite (bind_Some _ _ _ _ _ Hb). }
  destruct (Hloop l [] a h) as (r & h' & Hr & Hle & Hinv); [done|apply heap_le_refl|done|].
  by exists r, h'.
Qed.

(** *** The methods that read *)

Lemma load_returns (h : Heap) (w : World) p b :
  snapshot h p = Some b → returns (load p) h w (fun r h' => r = b ∧ h' = h).
Proof.
  intros Hs. exists b, h. split_and!; [by apply load_run|apply heap_le_refl|done|done].
Qed.

Lemma get_available_cells_run (h : Heap) (w : World) p b :
  snapshot h p = Some b →
  get_available_cells_obj p (h, w) = Some (get_available_cells b, (h, w)).
Proof.
  intros Hs. unfold get_available_cells_obj.
  by rewrite (bind_Some _ _ _ _ _ (load_run h w p b Hs)).
Qed.

Lemma eval_board_run (h : Heap) (w : World) p b n_empty :
  snapshot h p = Some b →
  eval_board_obj ops p n_empty (h, w) = Some (eval_board ops b n_empty, (h, w)).
Proof.
  intros Hs. unfold eval_board_obj.
  by rewrite (bind_Some _ _ _ _ _ (load_run h w p b Hs)).
Qed.

Lemma static_eval_run (h : Heap) (w : World) p b :
  snapshot h p = Some b →
  returns (let* cells := get_available_cells_obj p in
           let* u := eval_board_obj ops p (length cells) in
           ret (None, u)) h w
    (fun r _ => r = static_eval ops b).
Proof.
  intros Hs. exists (static_eval ops b), h. split_and!; [|apply heap_le_refl|done].
  rewrite (bind_Some _ _ _ _ _ (get_available_cells_run h w p b Hs)).
  by rewrite (bind_Some _ _ _ _ _ (eval_board_run h w p b _ Hs)).
Qed.

(** *** A move tried on a clone *)

(** [clone] and [move] on the clone, as [maximize] does: the board given
    is left as it is and the clone holds the moved board. *)
Lemma clone_move_returns (h : Heap) (w : World) p b m :
  snapshot h p = Some b →
  returns (let* m_board := clone_obj p in
           let* _ := move_obj m_board m false in
           ret m_board) h w
    (fun q h' => snapshot h' q = Some (moved b m)).
Proof.
  intros Hs.
  pose proof (clone_run h w p b Hs) as Hc.
  pose proof (clone_snapshot h p b Hs) as Hs1.
  set (h1 := MkHeap (arrays h ++ [np_zeros (grid_len b) (grid_len b); grid b])
               (boards h ++ [MkBoardObj (grid_len b) (whole (S (length (arrays h))))]))
    in *.
  destruct (move_grid_run h1 w (length (boards h)) m b Hs1) as (z1 & z2 & o' & Hm & Hs2).
  eexists _, _. split_and!.
  - rewrite (bind_Some _ _ _ _ _ Hc). unfold move_obj.
    rewrite (bind_Some _ _ _ _ _ (bind_Some _ _ _ _ _ Hm)). reflexivity.
  - split; simpl.
    + rewrite <- app_assoc. by apply prefix_app_r.
    + apply prefix_insert_beyond; [by apply prefix_app_r|done].
  - exact Hs2.
Qed.

(** [clone] and [move(x, True)] on the clone, as [get_available_moves]
    does: the board given is left as it is, and the value returned is that
    of the pure [move]. *)
Lemma clone_probe_returns (h : Heap) (w : World) p b x :
  snapshot h p = Some b →
  returns (let* board_clone := clone_obj p in
           move_obj board_clone x true) h w
    (fun r _ => r = snd (move (clone b) x true)).
Proof.
  intros Hs.
  pose proof (clone_run h w p b Hs) as Hc.
  pose proof (clone_snapshot h p b Hs) as Hs1.
  set (h1 := MkHeap (arrays h ++ [np_zeros (grid_len b) (grid_len b); grid b])
               (boards h ++ [MkBoardObj (grid_len b) (whole (S (length (arrays h))))]))
    in *.
  set (q := length (boards h)) in *.
  pose proof (clone_run h1 w q b Hs1) as Hc2.
  pose proof (clone_snapshot h1 q b Hs1) as Hs2.
  set (h2 := MkHeap (arrays h1 ++ [np_zeros (grid_len b) (grid_len b); grid b])
               (boards h1 ++ [MkBoardObj (grid_len b) (whole (S (length (arrays h1))))]))
    in *.
  assert (snapshot h2 q = Some b) as Hq
    by (eapply snapshot_le; [apply clone_le|exact Hs1]).
  destruct (move_grid_run h2 w q x b Hq) as (z1 & z2 & o' & Hm & Hs3).
  set (h3 := MkHeap (arrays h2 ++ [z1; z2]) (<[q := o']> (boards h2))) in *.
  assert (snapshot h3 (length (boards h1)) = Some b) as Hclone.
  { apply snapshot_frame; [exact Hs2|]. unfold h1, q. simpl. rewrite length_app. simpl. lia. }
  eexists _, h3. split_and!.
  - rewrite (bind_Some _ _ _ _ _ Hc). unfold move_obj.
    rewrite (bind_Some _ _ _ _ _ Hc2).
    rewrite (bind_Some _ _ _ _ _ Hm).
    rewrite (bind_Some _ _ _ _ _ (load_run h3 w _ b Hclone)).
    rewrite (bind_Some _ _ _ _ _ (load_run h3 w q _ Hs3)). reflexivity.
  - split; unfold h3, h2, h1; simpl.
    + rewrite <- !app_assoc. by apply prefix_app_r.
    + apply prefix_insert_beyond; [|done]. rewrite <- app_assoc. by apply prefix_app_r.
  - rewrite clone_eq. reflexivity.
Qed.

Lemma get_available_moves_returns (h : Heap) (w : World) p b :
  snapshot h p = Some b →
  returns (get_available_moves_obj p) h w (fun r _ => r = get_available_moves b).
Proof.
  intros Hs. unfold get_available_moves_obj.
  eapply returns_bind; [by apply load_returns|].
  intros b' h' _ [-> ->]. cbv zeta.
  eapply returns_impl.
  - apply (for_each_returns _
             (fun done acc h1 =>
                acc = foldl (fun available_moves x =>
                               if negb (flag (get_available_from_zeros (grid b)) x)
                               then match snd (move (clone b) x true) with
                                    | Some true => available_moves ++ [x]
                                    | _ => available_moves
                                    end
                               else available_moves ++ [x]) [] done)).
    + done.
    + intros done x rest acc h1 _ Hle ->.
      rewrite foldl_snoc.
      destruct (negb (flag (get_available_from_zeros (grid b)) x)).
      * apply returns_assoc. eapply returns_bind.
        { apply (clone_probe_returns h1 w p b x). by eapply snapshot_le. }
        intros r h2 _ ->. by apply returns_ret.
      * by apply returns_ret.
  - intros r h1 _ ->. reflexivity.
Qed.

(** *** A tile placed on a clone *)

Lemma returns_two_steps {A B C} (c1 : Py A) (c2 : A → Py B) (k : A → B → Py C)
  (h h1 h2 : Heap) (w : World) a x (post : C → Heap → Prop) :
  c1 (h, w) = Some (a, (h1, w)) → c2 a (h1, w) = Some (x, (h2, w)) →
  heap_le h h2 → returns (k a x) h2 w post →
  returns (bind c1 (fun a => bind (c2 a) (k a))) h w post.
Proof.
  intros H1 H2 Hle (r & h3 & Hr & Hle3 & Hpost).
  exists r, h3. split_and!; [|by eapply heap_le_trans|done].
  by rewrite (bind_Some _ _ _ _ _ H1), (bind_Some _ _ _ _ _ H2).
Qed.

Lemma insert_tile_run (h : Heap) (w : World) q n a buffer pos v b' :
  boards h !! q = Some (MkBoardObj n (whole a)) → arrays h !! a = Some buffer →
  insert_tile {| grid_len := n; grid := buffer |} pos v = Some b' →
  insert_tile_obj q pos v (h, w)
  = Some (tt, (MkHeap (<[a := grid b']> (arrays h)) (boards h), w)).
Proof.
  intros Ho Ha. unfold insert_tile. simpl.
  unfold insert_tile_obj, bind, get_object, read_array, write_array, raise. simpl.
  rewrite Ho. cbn. rewrite Ha. simpl.
  destruct (buffer !! fst pos) as [r|]; [|done].
  case_bool_decide; [|done]. intros [= <-]. simpl. by rewrite Ha.
Qed.

(** [clone] and [insert_tile] on the clone, as [chance] does. *)
Lemma clone_insert_run (h : Heap) (w : World) p b pos v b' :
  snapshot h p = Some b → insert_tile b pos v = Some b' →
  ∃ h1 h2,
    clone_obj p (h, w) = Some (length (boards h), (h1, w))
    ∧ insert_tile_obj (length (boards h)) pos v (h1, w) = Some (tt, (h2, w))
    ∧ heap_le h h2
    ∧ snapshot h2 (length (boards h)) = Some b'.
Proof.
  intros Hs Hins.
  pose proof (clone_run h w p b Hs) as Hc.
  set (a := S (length (arrays h))) in *.
  set (h1 := MkHeap (arrays h ++ [np_zeros (grid_len b) (grid_len b); grid b])
               (boards h ++ [MkBoardObj (grid_len b) (whole a)])) in *.
  assert (boards h1 !! length (boards h) = Some (MkBoardObj (grid_len b) (whole a))) as Ho
    by apply lookup_snoc_here.
  assert (arrays h1 !! a = Some (grid b)) as Ha.
  { unfold h1, a. simpl. rewrite lookup_app_r by lia.
    by replace (S (length (arrays h)) - length (arrays h))%nat with 1%nat by lia. }
  assert (insert_tile {| grid_len := grid_len b; grid := grid b |} pos v = Some b') as Hins'
    by (by destruct b).
  pose proof (insert_tile_run h1 w _ _ _ _ pos v b' Ho Ha Hins') as Hi.
  eexists h1, _. split_and!; [exact Hc|exact Hi| |].
  - split; simpl.
    + apply prefix_insert_beyond; [by apply prefix_app_r|unfold a; lia].
    + by apply prefix_app_r.
  - assert (grid_len b' = grid_len b) as Hlen.
    { unfold insert_tile in Hins. destruct (grid b !! fst pos); [|done].
      case_bool_decide; [|done]. by injection Hins as <-. }
    transitivity (Some {| grid_len := grid_len b; grid := seen (grid b') (whole a) |}).
    + apply (snapshot_intro _ _ _ (whole a)); [exact Ho|].
      simpl. apply list_lookup_insert_eq. by eapply lookup_lt_Some.
    + destruct b'. simpl in *. by subst.
Qed.

Lemma elem_of_possible_tiles (cells : list (nat * nat)) (t : nat * nat * Z * F) :
  t ∈ possible_tiles ops cells → fst (fst t) ∈ cells.
Proof.
  unfold possible_tiles. intros (c & Ht & Hc)%list_elem_of_bind.
  apply elem_of_cons in Ht as [->|Ht]; [done|].
  by apply list_elem_of_singleton in Ht as ->.
Qed.

(** *** maximize and chance on objects *)

Lemma fmap_moves_boards (b : GameBoard) (moves_boards : list (nat * nat)) (moves : list nat) :
  Forall2 (fun mb m => fst mb = m) moves_boards moves →
  (fun mb : nat * nat => (fst mb, moved (clone b) (fst mb))) <$> moves_boards
  = (fun m => (m, moved (clone b) m)) <$> moves.
Proof.
  induction 1 as [|mb m l k Hm _ IH]; [done|].
  rewrite !fmap_cons, IH. by subst.
Qed.

Lemma search_obj_run (fuel : nat) :
  (∀ p b depth max_depth h (w : World),
     snapshot h p = Some b → wf_board b →
     returns (maximize_obj ops fuel p depth max_depth) h w
       (fun r _ => r = maximize_fuel ops fuel b depth max_depth))
  ∧ (∀ p b depth h (w : World),
       snapshot h p = Some b → wf_board b →
       returns (chance_obj ops fuel p depth) h w
         (fun r _ => r = chance_fuel ops fuel b depth)).
Proof.
  induction fuel as [|fuel [IHm IHc]].
  { split.
    - intros p b depth max_depth h w Hs _. by apply static_eval_run.
    - intros p b depth h w Hs _. exists (chance_fuel ops 0 b depth), h.
      split_and!; [|apply heap_le_refl|done]. cbn [chance_obj].
      rewrite (bind_Some _ _ _ _ _ (get_available_cells_run h w p b Hs)).
      by apply eval_board_run. }
  split.
  - intros p b depth max_depth h w Hs Hb. cbn [maximize_obj].
    rewrite maximize_fuel_S. case_bool_decide; [by apply static_eval_run|].
    eapply returns_bind; [by apply get_available_moves_returns|].
    intros moves h1 Hle1 ->. cbv beta.
    eapply returns_bind.
    { apply (for_each_returns _
               (fun done acc h' =>
                  Forall2 (fun mb m => fst mb = m
                                       ∧ snapshot h' (snd mb) = Some (moved b m))
                    acc done)).
      - constructor.
      - intros done m rest acc h2 _ Hle2 Hinv.
        assert (snapshot h2 p = Some b) as Hs2
          by (eapply snapshot_le; [|exact Hs]; by eapply heap_le_trans).
        destruct (clone_move_returns h2 w p b m Hs2) as (q & h3 & Hq & Hle3 & Hs3).
        exists (acc ++ [(m, q)]), h3. split_and!; [|done|].
        + unfold bind in Hq |- *.
          destruct (clone_obj p (h2, w)) as [[q' s']|]; [|done].
          destruct (move_obj q' m false s') as [[r' s'']|]; [|done].
          unfold ret in *. by injection Hq as -> ->.
        + apply Forall2_app; [|by repeat constructor].
          eapply Forall2_impl; [exact Hinv|].
          intros mb m' [? ?]. split; [done|]. by eapply snapshot_le. }
    intros moves_boards h2 Hle2 Hmb. cbv beta.
    eapply returns_impl.
    + apply (for_each_returns _
               (fun done best _ =>
                  best = foldl (fun best mb =>
                                  let utility := chance_fuel ops fuel (snd mb) (depth + 1) in
                                  if fge ops (ut0 utility) (ut0 (snd best))
                                  then (Some (fst mb), utility) else best)
                           (no_move ops)
                           ((fun mb : nat * nat => (fst mb, moved (clone b) (fst mb)))
                              <$> done))).
      * done.
      * intros done mb rest best h3 Hl Hle3 ->.
        assert (mb ∈ moves_boards) as Hin
          by (rewrite Hl; apply elem_of_app; right; apply list_elem_of_here).
        apply list_elem_of_lookup in Hin as [i Hi].
        destruct (Forall2_lookup_l _ _ _ _ _ Hmb Hi) as (m & _ & Hm & Hsm).
        eapply returns_bind.
        { apply (IHc (snd mb) (moved b m) (depth + 1)%nat h3 w).
          - by eapply snapshot_le.
          - by apply wf_moved. }
        intros u h4 _ ->. apply returns_ret.
        rewrite fmap_app, foldl_app. cbn [fmap list_fmap foldl fst snd].
        cbv zeta. by rewrite clone_eq, Hm.
    + intros r h3 _ ->. f_equal. apply fmap_moves_boards.
      eapply Forall2_impl; [exact Hmb|]. by intros mb m [? _].
  - intros p b depth h w Hs Hb. cbn [chance_obj]. rewrite chance_fuel_S. cbv zeta.
    apply (returns_bind _ _ _ _ (fun r h' => r = get_available_cells b ∧ h' = h)).
    { exists (get_available_cells b), h.
      split_and!; [by apply get_available_cells_run|apply heap_le_refl|done|done]. }
    intros cells h1 _ [-> ->]. cbv beta.
    eapply returns_bind; [by apply load_returns|].
    intros b' h1 _ [-> ->]. cbv beta.
    destruct (_ && _).
    { exists (eval_board ops b (length (get_available_cells b))), h.
      split_and!; [by apply eval_board_run|apply heap_le_refl|done]. }
    case_bool_decide.
    { eapply returns_bind; [by apply (IHm p b)|].
      intros r h1 _ ->. by apply returns_ret. }
    eapply returns_impl.
    + apply (for_each_returns _
               (fun done utility_sum _ =>
                  utility_sum
                  = foldl (fun utility_sum t =>
                             accumulate ops utility_sum
                               (snd (maximize_fuel ops fuel
                                       (inserted (clone b) (fst (fst t)) (snd (fst t)))
                                       (depth + 1) 3))
                               (snd t))
                      (zero_utility ops) done)).
      * done.
      * intros done t rest acc h1 Hl Hle1 ->.
        assert (fst (fst t) ∈ get_available_cells b) as Hpos.
        { apply elem_of_possible_tiles. rewrite Hl.
          apply elem_of_app. right. apply list_elem_of_here. }
        pose proof (insert_available_cell b (fst (fst t)) (snd (fst t)) Hb Hpos) as Hins.
        assert (snapshot h1 p = Some b) as Hs1 by (by eapply snapshot_le).
        destruct (clone_insert_run h1 w p b _ _ _ Hs1 Hins)
          as (h2 & h3 & Hc & Hi & Hle3 & Hs3).
        eapply returns_two_steps; [exact Hc|exact Hi|exact Hle3|].
        eapply returns_bind.
        { apply (IHm _ _ (depth + 1)%nat 3%nat h3 w Hs3). by apply wf_inserted. }
        intros r h4 _ ->. apply returns_ret.
        rewrite foldl_snoc. by rewrite clone_eq.
    + intros r h1 _ ->. reflexivity.
Qed.

End object_facts.

(** C9.  [get_move] under EXPECTIMAX, run on a board object whose grid is
    that of [b], returns the move of [maximize] on [b] whatever the state
    [w] of the random number generator, and leaves that state as it was.
    It works on clones: every array and every board object that existed
    before the call is unchanged after it ([heap_le]), the board it was
    given among them.  So a second call on the same object returns the same
    move, and so does a call on any other object with the same grid, in any
    heap and any state of the generator.  The bound on the recursion plays
    no part: from 7 on every bound gives this move. *)
Theorem expectimax_deterministic {F World} (ops : float_ops F)
  (minimax_move_obj mcts_move_obj : nat → M (Heap * World) (option nat))
  (h : Heap) (w : World) (p : nat) (b : GameBoard) :
  snapshot h p = Some b → wf_board b →
  ∃ h1 h2,
    get_move_obj ops minimax_move_obj mcts_move_obj EXPECTIMAX p (h, w)
    = Some (fst (maximize ops b 0 3), (h1, w))
    ∧ heap_le h h1 ∧ snapshot h1 p = Some b
    ∧ get_move_obj ops minimax_move_obj mcts_move_obj EXPECTIMAX p (h1, w)
      = Some (fst (maximize ops b 0 3), (h2, w))
    ∧ heap_le h1 h2
    ∧ (∀ (h' : Heap) (w' : World) (p' : nat) (b' : GameBoard),
         snapshot h' p' = Some b' → wf_board b' → grid b' = grid b →
         ∃ h'', get_move_obj ops minimax_move_obj mcts_move_obj EXPECTIMAX p' (h', w')
                = Some (fst (maximize ops b 0 3), (h'', w'))
                ∧ heap_le h' h'')
    ∧ (∀ fuel, (7 ≤ fuel)%nat →
         ∃ r h', maximize_obj ops fuel p 0 3 (h, w) = Some (r, (h', w))
                 ∧ fst r = fst (maximize ops b 0 3)).
Proof.
  intros Hs Hb.
  assert (∀ (h' : Heap) (w' : World) (p' : nat),
            snapshot h' p' = Some b →
            ∃ h'', get_move_obj ops minimax_move_obj mcts_move_obj EXPECTIMAX p' (h', w')
                   = Some (fst (maximize ops b 0 3), (h'', w'))
                   ∧ heap_le h' h'') as Hcall.
  { intros h' w' p' Hs'.
    destruct (proj1 (search_obj_run ops 8) p' b 0%nat 3%nat h' w' Hs' Hb)
      as (r & h'' & Hr & Hle & ->).
    exists h''. split; [|done]. unfold get_move_obj.
    by rewrite (bind_Some _ _ _ _ _ Hr). }
  destruct (Hcall h w p Hs) as (h1 & H1 & Hle1).
  assert (snapshot h1 p = Some b) as Hs1 by (by eapply snapshot_le).
  destruct (Hcall h1 w p Hs1) as (h2 & H2 & Hle2).
  exists h1, h2. split_and!; try done.
  - intros h' w' p' b' Hs' [Hlen' _] Hg. apply Hcall.
    destruct Hb as [Hlen _]. rewrite Hs'. f_equal.
    destruct b as [n g], b' as [n' g']. simpl in *. by subst.
  - intros fuel Hfuel.
    destruct (proj1 (search_obj_run ops fuel) p b 0%nat 3%nat h w Hs Hb)
      as (r & h' & Hr & _ & ->).
    exists (maximize_fuel ops fuel b 0 3), h'. split; [done|].
    by rewrite maximize_enough_fuel.
Qed.

Lemma expectimax_deterministic_witness :
  ∃ h1 h2 : Heap,
    get_move_obj binary64 (fun _ => ret None) (fun _ => ret None) EXPECTIMAX 0
      (MkHeap [grid tie_board] [MkBoardObj 4 (whole 0)], 0%nat)
    = Some (fst (maximize binary64 tie_board 0 3), (h1, 0%nat))
    ∧ get_move_obj binary64 (fun _ => ret None) (fun _ => ret None) EXPECTIMAX 0
        (h1, 0%nat)
      = Some (fst (maximize binary64 tie_board 0 3), (h2, 0%nat)).
Proof.
  destruct (expectimax_deterministic binary64 (fun _ => ret None) (fun _ => ret None)
              (MkHeap [grid tie_board] [MkBoardObj 4 (whole 0)]) 0%nat 0%nat tie_board)
    as (h1 & h2 & H1 & _ & _ & H2 & _).
  - reflexivity.
  - exact wf_tie_board.
  - exists h1, h2. split; assumption.
Defined.

(** * Further properties of the board engine *)

(** ** merge and justify_left on arrays *)

Lemma merge_rows_once n m (a : ndarray) :
  has_shape n m a → merge a = merge_once <$> a.
Proof.
  intros Ha. unfold merge. apply list_fmap_ext. intros i r Hr.
  pose proof (has_shape_lookup _ _ _ _ _ Ha Hr) as Hlen.
  pose proof (lookup_lt_Some _ _ _ Hr) as Hi.
  rewrite (has_shape_shape1 n m) by (done || destruct Ha; lia).
  rewrite <- Hlen. apply merge_row_once.
Qed.

(** X1.  On a rectangular array the loop of [merge] doubles a tile that
    equals its right neighbour, empties the neighbour and goes on behind
    the pair: no tile takes part in two merges of one pass. *)
Theorem merge_merges_once n m (a : ndarray) :
  has_shape n m a → merge a = merge_once <$> a ∧ has_shape n m (merge a).
Proof.
  intros Ha. split; [by apply (merge_rows_once n m)|by apply has_shape_merge].
Qed.

Lemma merge_merges_once_witness :
  merge [[2; 2; 2; 2]; [4; 4; 8; 0]] = merge_once <$> [[2; 2; 2; 2]; [4; 4; 8; 0]]
  ∧ has_shape 2 4 (merge [[2; 2; 2; 2]; [4; 4; 8; 0]]).
Proof.
  apply (merge_merges_once 2 4). split; [reflexivity|repeat constructor].
Defined.

Lemma justify_fold_over (suf pre done rest : list Z) :
  (length (tiles suf) ≤ length rest)%nat →
  foldl (justify_step (pre ++ suf)) (length done, done ++ rest)
        (seq (length pre) (length suf))
  = ((length done + length (tiles suf))%nat,
     done ++ tiles suf ++ drop (length (tiles suf)) rest).
Proof.
  revert pre done rest. induction suf as [|x suf IH]; intros pre done rest Hk.
  - simpl. f_equal. lia.
  - cbn [length seq foldl]. unfold justify_step at 2.
    rewrite item_app_length. cbn [fst snd].
    unfold tiles in *. rewrite filter_cons in *.
    replace (pre ++ x :: suf) with ((pre ++ [x]) ++ suf) by (by rewrite <- app_assoc).
    replace (S (length pre)) with (length (pre ++ [x])) by (rewrite length_app; simpl; lia).
    destruct (decide (x ≠ 0)) as [Hx|Hx].
    + assert ((x =? 0) = false) as -> by (by apply Z.eqb_neq).
      cbn [negb]. cbn [length] in Hk.
      destruct rest as [|y rest]; [simpl in Hk; lia|].
      replace (<[length done:=x]> (done ++ y :: rest)) with ((done ++ [x]) ++ rest).
      2:{ rewrite insert_app_r_alt by lia. rewrite Nat.sub_diag. simpl.
          by rewrite <- app_assoc. }
      replace (S (length done)) with (length (done ++ [x])) by (rewrite length_app; simpl; lia).
      rewrite IH by (simpl in Hk; lia). rewrite length_app. simpl.
      f_equal; [lia|]. by rewrite <- app_assoc.
    + assert (x = 0) as -> by (destruct (decide (x = 0)); [done|contradiction]).
      cbn [negb Z.eqb]. by rewrite IH.
Qed.

Lemma justify_row_overwrite m (r o : list Z) :
  length r = m → length o = m → justify_row m r o = overwrite_row r o.
Proof.
  intros <- Ho. unfold justify_row.
  pose proof (justify_fold_over r [] [] o) as H. simpl in H.
  rewrite H; [done|]. rewrite Ho. apply length_tiles_le.
Qed.

Lemma justify_rows_overwrite m (a out : ndarray) :
  Forall (fun r => length r = m) a → Forall (fun r => length r = m) out →
  length a = length out →
  justify_rows m a out = zip_with overwrite_row a out.
Proof.
  revert out. induction a as [|r a IH]; intros [|o out] Ha Ho Hlen;
    simpl in *; try lia; [done|].
  inversion Ha; inversion Ho; subst.
  rewrite justify_row_overwrite by done. f_equal. apply IH; (done || lia).
Qed.

Lemma overwrite_row_zeros m (r : list Z) :
  overwrite_row r (replicate m 0) = pack m r.
Proof. unfold overwrite_row, pack. by rewrite drop_replicate. Qed.

Lemma zip_overwrite_zeros m (a : ndarray) :
  zip_with overwrite_row a (replicate (length a) (replicate m 0)) = pack m <$> a.
Proof.
  induction a as [|r a IH]; [done|].
  cbn [length replicate zip_with]. rewrite fmap_cons.
  by rewrite overwrite_row_zeros, IH.
Qed.

(** X2.  [justify_left(a, out)] on two arrays of one shape puts into each
    row of [out] the tiles of the row of [a], in their order, and leaves
    the cells of [out] behind them as they were; with [out] all zeros the
    row is the tiles followed by zeros. *)
Theorem justify_left_overwrites n m (a out : ndarray) :
  has_shape n m a → has_shape n m out →
  justify_left a out = zip_with overwrite_row a out
  ∧ justify_left a (np_zeros n m) = pack m <$> a.
Proof.
  intros Ha Ho.
  assert (∀ out', has_shape n m out' →
            justify_left a out' = zip_with overwrite_row a out') as H.
  { intros out' Ho'. destruct (decide (n = 0)%nat) as [->|Hn].
    - destruct Ha as [Ha _], Ho' as [Ho' _]. destruct a; [|done]. by destruct out'.
    - unfold justify_left. rewrite (has_shape_shape1 n m) by (done || lia).
      apply justify_rows_overwrite; [apply Ha|apply Ho'|].
      destruct Ha, Ho'. congruence. }
  split; [by apply H|].
  rewrite H by apply has_shape_zeros.
  unfold np_zeros. destruct Ha as [<- _]. apply zip_overwrite_zeros.
Qed.

Lemma justify_left_overwrites_witness :
  justify_left [[0; 2; 0; 4]; [0; 0; 8; 0]] [[1; 1; 1; 1]; [0; 0; 0; 0]]
  = zip_with overwrite_row [[0; 2; 0; 4]; [0; 0; 8; 0]] [[1; 1; 1; 1]; [0; 0; 0; 0]]
  ∧ justify_left [[0; 2; 0; 4]; [0; 0; 8; 0]] (np_zeros 2 4)
    = pack 4 <$> [[0; 2; 0; 4]; [0; 0; 8; 0]].
Proof.
  apply (justify_left_overwrites 2 4);
    (split; [reflexivity|repeat constructor]).
Defined.

(** ** The zero scan misses nothing *)

Lemma flag_insert_here (v : list bool) j :
  (j < length v)%nat → flag (<[j := true]> v) j = true.
Proof. intros H. unfold flag. by rewrite list_lookup_insert_eq. Qed.

Lemma flag_lt (v : list bool) j : flag v j = true → (j < length v)%nat.
Proof.
  unfold flag. intros H. destruct (v !! j) eqn:E; [|done].
  by eapply lookup_lt_Some.
Qed.

Lemma flag_insert_keeps (v : list bool) j j' :
  flag v j' = true → flag (<[j := true]> v) j' = true.
Proof.
  intros H. destruct (decide (j = j')) as [->|Hne].
  - apply flag_insert_here. by apply flag_lt.
  - unfold flag in *. by rewrite list_lookup_insert_ne.
Qed.

Lemma scan_le_refl s : scan_le s s.
Proof. by split. Qed.

Lemma scan_le_trans s1 s2 s3 : scan_le s1 s2 → scan_le s2 s3 → scan_le s1 s3.
Proof.
  intros [] []. split; try (intros; auto; fail); congruence.
Qed.

Lemma row_le_refl s : row_le s s.
Proof. by split. Qed.

Lemma row_le_trans s1 s2 s3 : row_le s1 s2 → row_le s2 s3 → row_le s1 s3.
Proof. intros [] []. split; auto. Qed.

Lemma scan_zero_le s j : scan_le s (scan_zero s j) ∧ row_le s (scan_zero s j).
Proof.
  split; split; simpl; try done.
  - intros ->. done.
  - intros ->. done.
  - intros j'. apply flag_insert_keeps.
  - apply length_insert.
Qed.

Lemma scan_tile_le s j : scan_le s (scan_tile s j) ∧ row_le s (scan_tile s j).
Proof.
  split; split; simpl; try done.
  - intros ->. done.
  - intros ->. done.
  - intros j'. apply flag_insert_keeps.
  - apply length_insert.
Qed.

Lemma scan_cell_le r s j : scan_le s (scan_cell r s j) ∧ row_le s (scan_cell r s j).
Proof.
  unfold scan_cell.
  destruct (item r j =? 0); destruct (0 <? item r j);
    try (split; [apply scan_le_refl|apply row_le_refl]);
    try apply scan_zero_le; try apply scan_tile_le.
  destruct (scan_zero_le s j), (scan_tile_le (scan_zero s j) j).
  split; [by eapply scan_le_trans|by eapply row_le_trans].
Qed.

Lemma scan_cells_le r s js :
  scan_le s (foldl (scan_cell r) s js) ∧ row_le s (foldl (scan_cell r) s js).
Proof.
  revert s. induction js as [|j js IH]; intros s; simpl.
  - split; [apply scan_le_refl|apply row_le_refl].
  - destruct (scan_cell_le r s j), (IH (scan_cell r s j)).
    split; [by eapply scan_le_trans|by eapply row_le_trans].
Qed.

Lemma scan_row_le m s r : scan_le s (scan_row m s r).
Proof.
  unfold scan_row.
  match goal with |- scan_le _ (foldl _ ?s0 _) =>
    apply (scan_le_trans s s0); [by split|apply scan_cells_le] end.
Qed.

Lemma scan_rows_le m s (l : ndarray) : scan_le s (foldl (scan_row m) s l).
Proof.
  revert s. induction l as [|r l IH]; intros s; simpl; [apply scan_le_refl|].
  eapply scan_le_trans; [apply scan_row_le|apply IH].
Qed.

Lemma seq_middle m j :
  (j < m)%nat → seq 0 m = seq 0 j ++ j :: seq (S j) (m - S j).
Proof.
  intros H. replace m with (j + S (m - S j))%nat at 1 by lia.
  by rewrite seq_app.
Qed.

(** What the scan of one cell sets. *)
Lemma scan_cell_zero r s j :
  item r j = 0 → scan_cell r s j = scan_zero s j.
Proof. intros H. unfold scan_cell. by rewrite H. Qed.

Lemma scan_cell_tile r s j :
  0 < item r j → scan_cell r s j = scan_tile s j.
Proof.
  intros H. unfold scan_cell.
  assert ((item r j =? 0) = false) as -> by (apply Z.eqb_neq; lia).
  by assert ((0 <? item r j) = true) as -> by (by apply Z.ltb_lt).
Qed.

(** The scan of a row up to cell [k] has seen a zero, or a tile, that lies
    before [k]. *)
Lemma scan_cells_saw_0 r s k j :
  (j < k)%nat → item r j = 0 → saw_0 (foldl (scan_cell r) s (seq 0 k)) = true.
Proof.
  intros Hj Hz. rewrite (seq_middle k j Hj), foldl_app. cbn [foldl].
  apply (le_s0 _ _ (proj2 (scan_cells_le r _ _))).
  by rewrite scan_cell_zero.
Qed.

Lemma scan_cells_saw_1 r s k j :
  (j < k)%nat → 0 < item r j → saw_1 (foldl (scan_cell r) s (seq 0 k)) = true.
Proof.
  intros Hj Hz. rewrite (seq_middle k j Hj), foldl_app. cbn [foldl].
  apply (le_s1 _ _ (proj2 (scan_cells_le r _ _))).
  by rewrite scan_cell_tile.
Qed.

Lemma scan_row_left m s r j0 j1 :
  (j0 < j1 < m)%nat → item r j0 = 0 → 0 < item r j1 →
  lc (scan_row m s r) = true.
Proof.
  intros [Hj Hm] H0 H1. unfold scan_row.
  rewrite (seq_middle m j1 Hm), foldl_app. cbn [foldl].
  apply (le_lc _ _ (proj1 (scan_cells_le r _ _))).
  rewrite scan_cell_tile by done. simpl.
  rewrite (scan_cells_saw_0 r _ j1 j0) by done. apply orb_true_r.
Qed.

Lemma scan_row_right m s r j0 j1 :
  (j0 < j1 < m)%nat → 0 < item r j0 → item r j1 = 0 →
  rc (scan_row m s r) = true.
Proof.
  intros [Hj Hm] H0 H1. unfold scan_row.
  rewrite (seq_middle m j1 Hm), foldl_app. cbn [foldl].
  apply (le_rc _ _ (proj1 (scan_cells_le r _ _))).
  rewrite scan_cell_zero by done. simpl.
  rewrite (scan_cells_saw_1 r _ j1 j0) by done. apply orb_true_r.
Qed.

(** After the scan of a row the column of each of its zeros, and of each of
    its tiles, is marked. *)
Lemma scan_row_marks_0 m s r j :
  (j < m)%nat → length (v_saw_0 s) = m → item r j = 0 →
  flag (v_saw_0 (scan_row m s r)) j = true.
Proof.
  intros Hj Hlen Hz. unfold scan_row.
  rewrite (seq_middle m j Hj), foldl_app. cbn [foldl].
  apply (le_v0 _ _ (proj1 (scan_cells_le r _ _))).
  rewrite scan_cell_zero by done. simpl. apply flag_insert_here.
  rewrite (le_len0 _ _ (proj1 (scan_cells_le r _ _))). simpl. lia.
Qed.

Lemma scan_row_marks_1 m s r j :
  (j < m)%nat → length (v_saw_1 s) = m → 0 < item r j →
  flag (v_saw_1 (scan_row m s r)) j = true.
Proof.
  intros Hj Hlen Hz. unfold scan_row.
  rewrite (seq_middle m j Hj), foldl_app. cbn [foldl].
  apply (le_v1 _ _ (proj1 (scan_cells_le r _ _))).
  rewrite scan_cell_tile by done. simpl. apply flag_insert_here.
  rewrite (le_len1 _ _ (proj1 (scan_cells_le r _ _))). simpl. lia.
Qed.

Lemma scan_row_up m s r j :
  (j < m)%nat → flag (v_saw_0 s) j = true → 0 < item r j →
  uc (scan_row m s r) = true.
Proof.
  intros Hj Hf Ht. unfold scan_row.
  rewrite (seq_middle m j Hj), foldl_app. cbn [foldl].
  apply (le_uc _ _ (proj1 (scan_cells_le r _ _))).
  rewrite scan_cell_tile by done. simpl.
  rewrite (le_v0 _ _ (proj1 (scan_cells_le r _ _))) by done. apply orb_true_r.
Qed.

Lemma scan_row_down m s r j :
  (j < m)%nat → flag (v_saw_1 s) j = true → item r j = 0 →
  dc (scan_row m s r) = true.
Proof.
  intros Hj Hf Ht. unfold scan_row.
  rewrite (seq_middle m j Hj), foldl_app. cbn [foldl].
  apply (le_dc _ _ (proj1 (scan_cells_le r _ _))).
  rewrite scan_cell_zero by done. simpl.
  rewrite (le_v1 _ _ (proj1 (scan_cells_le r _ _))) by done. apply orb_true_r.
Qed.

(** The scan of the rows [l] from a state whose marks have length [m]. *)
Lemma scan_rows_marks_0 m s (l : ndarray) i r j :
  l !! i = Some r → (j < m)%nat → length (v_saw_0 s) = m → item r j = 0 →
  flag (v_saw_0 (foldl (scan_row m) s l)) j = true.
Proof.
  intros Hr Hj Hlen Hz.
  rewrite <- (take_drop_middle l i r Hr), foldl_app. cbn [foldl].
  apply (le_v0 _ _ (scan_rows_le m _ _)).
  apply scan_row_marks_0; [done| |done].
  by rewrite (le_len0 _ _ (scan_rows_le m s _)).
Qed.

Lemma scan_rows_marks_1 m s (l : ndarray) i r j :
  l !! i = Some r → (j < m)%nat → length (v_saw_1 s) = m → 0 < item r j →
  flag (v_saw_1 (foldl (scan_row m) s l)) j = true.
Proof.
  intros Hr Hj Hlen Hz.
  rewrite <- (take_drop_middle l i r Hr), foldl_app. cbn [foldl].
  apply (le_v1 _ _ (scan_rows_le m _ _)).
  apply scan_row_marks_1; [done| |done].
  by rewrite (le_len1 _ _ (scan_rows_le m s _)).
Qed.

Lemma lookup2_item (a : ndarray) i j v :
  lookup2 a i j = Some v → ∃ r, a !! i = Some r ∧ item r j = v ∧ (j < length r)%nat.
Proof.
  unfold lookup2. intros H. destruct (a !! i) as [r|]; [|done]. simpl in H.
  exists r. split_and!; [done|by apply item_lookup|by eapply lookup_lt_Some].
Qed.

Lemma get_available_from_zeros_complete n (a : ndarray) :
  has_shape n n a →
  (can_up a → flag (get_available_from_zeros a) Up = true)
  ∧ (can_down a → flag (get_available_from_zeros a) Down = true)
  ∧ (can_left a → flag (get_available_from_zeros a) Left = true)
  ∧ (can_right a → flag (get_available_from_zeros a) Right = true).
Proof.
  intros Ha. destruct (decide (n = 0)%nat) as [->|Hn].
  { destruct Ha as [Ha _]. destruct a; [|done].
    split_and!; intros (? & ? & ? & _ & H & H');
      first [by inversion H|by destruct H as (? & H & _); inversion H]. }
  pose proof (has_shape_shape1 n n a Ha ltac:(lia)) as Hm.
  unfold get_available_from_zeros. rewrite Hm. unfold flag. simpl.
  split_and!.
  - intros (i0 & i1 & j & Hi & H0 & (w & H1 & Hw)).
    apply lookup2_item in H0 as (r0 & Hr0 & Hz & Hj).
    apply lookup2_item in H1 as (r1 & Hr1 & Ht & _).
    rewrite (has_shape_lookup _ _ _ _ _ Ha Hr0) in Hj.
    rewrite <- (take_drop_middle a i1 r1 Hr1), foldl_app. cbn [foldl].
    apply (le_uc _ _ (scan_rows_le n _ _)).
    apply (scan_row_up n _ r1 j); [done| |lia].
    apply (scan_rows_marks_0 n _ _ i0 r0); [|done|apply length_replicate|done].
    rewrite lookup_take_lt by done. done.
  - intros (i0 & i1 & j & Hi & (w & H0 & Hw) & H1).
    apply lookup2_item in H0 as (r0 & Hr0 & Ht & Hj).
    apply lookup2_item in H1 as (r1 & Hr1 & Hz & _).
    rewrite (has_shape_lookup _ _ _ _ _ Ha Hr0) in Hj.
    rewrite <- (take_drop_middle a i1 r1 Hr1), foldl_app. cbn [foldl].
    apply (le_dc _ _ (scan_rows_le n _ _)).
    apply (scan_row_down n _ r1 j); [done| |done].
    apply (scan_rows_marks_1 n _ _ i0 r0); [|done|apply length_replicate|lia].
    rewrite lookup_take_lt by done. done.
  - intros (i & j0 & j1 & Hj & H0 & (w & H1 & Hw)).
    apply lookup2_item in H0 as (r & Hr & Hz & _).
    apply lookup2_item in H1 as (r' & Hr' & Ht & Hj1).
    assert (r' = r) as -> by congruence.
    rewrite (has_shape_lookup _ _ _ _ _ Ha Hr) in Hj1.
    rewrite <- (take_drop_middle a i r Hr), foldl_app. cbn [foldl].
    apply (le_lc _ _ (scan_rows_le n _ _)).
    apply (scan_row_left n _ r j0 j1); [lia|done|lia].
  - intros (i & j0 & j1 & Hj & (w & H0 & Hw) & H1).
    apply lookup2_item in H0 as (r & Hr & Ht & _).
    apply lookup2_item in H1 as (r' & Hr' & Hz & Hj1).
    assert (r' = r) as -> by congruence.
    rewrite (has_shape_lookup _ _ _ _ _ Ha Hr) in Hj1.
    rewrite <- (take_drop_middle a i r Hr), foldl_app. cbn [foldl].
    apply (le_rc _ _ (scan_rows_le n _ _)).
    apply (scan_row_right n _ r j0 j1); [lia|lia|done].
Qed.

(** X3.  Each flag of [get_available_from_zeros] is set exactly when, in
    its direction, some empty cell has a positive tile behind it: Up when a
    column has a zero above a tile, Down a tile above a zero, Left a row
    with a zero left of a tile, Right a tile left of a zero. *)
Theorem get_available_from_zeros_exact n (a : ndarray) :
  has_shape n n a →
  (flag (get_available_from_zeros a) Up = true ↔ can_up a)
  ∧ (flag (get_available_from_zeros a) Down = true ↔ can_down a)
  ∧ (flag (get_available_from_zeros a) Left = true ↔ can_left a)
  ∧ (flag (get_available_from_zeros a) Right = true ↔ can_right a).
Proof.
  intros Ha.
  destruct (get_available_from_zeros_sound n a Ha) as (S1 & S2 & S3 & S4).
  destruct (get_available_from_zeros_complete n a Ha) as (C1 & C2 & C3 & C4).
  by split_and!.
Qed.

Lemma get_available_from_zeros_exact_witness :
  (flag (get_available_from_zeros [[2; 0]; [0; 4]]) Up = true ↔ can_up [[2; 0]; [0; 4]])
  ∧ (flag (get_available_from_zeros [[2; 0]; [0; 4]]) Down = true
     ↔ can_down [[2; 0]; [0; 4]])
  ∧ (flag (get_available_from_zeros [[2; 0]; [0; 4]]) Left = true
     ↔ can_left [[2; 0]; [0; 4]])
  ∧ (flag (get_available_from_zeros [[2; 0]; [0; 4]]) Right = true
     ↔ can_right [[2; 0]; [0; 4]]).
Proof.
  apply (get_available_from_zeros_exact 2). split; [reflexivity|repeat constructor].
Defined.

(** ** When a row is moved *)

Lemma merge_once_ind (P : list Z → Prop) :
  P [] → (∀ x, P [x]) →
  (∀ x t, x ≠ 0 → P t → P (x :: x :: t)) →
  (∀ x y t, (x =? y) && negb (x =? 0) = false → P (y :: t) → P (x :: y :: t)) →
  ∀ r, P r.
Proof.
  intros Hnil Hone Hpair Hskip r.
  remember (length r) as n eqn:Hn. revert r Hn.
  induction (lt_wf n) as [n _ IH]. intros r ->.
  destruct r as [|x [|y t]]; [done|done|].
  destruct ((x =? y) && negb (x =? 0)) eqn:Hc.
  - apply andb_true_iff in Hc as [->%Z.eqb_eq Hx%negb_true_iff%Z.eqb_neq].
    apply Hpair; [done|]. apply (IH (length t)); [simpl; lia|done].
  - apply Hskip; [done|]. apply (IH (length (y :: t))); [simpl; lia|done].
Qed.

Lemma merge_once_pair x (t : list Z) :
  x ≠ 0 → merge_once (x :: x :: t) = x * 2 :: 0 :: merge_once t.
Proof.
  intros Hx. cbn [merge_once]. rewrite Z.eqb_refl.
  by assert ((x =? 0) = false) as -> by (by apply Z.eqb_neq).
Qed.

Lemma merge_once_skip x y (t : list Z) :
  (x =? y) && negb (x =? 0) = false →
  merge_once (x :: y :: t) = x :: merge_once (y :: t).
Proof. intros Hc. cbn [merge_once]. by rewrite Hc. Qed.

Lemma tiles_cons_nonzero x (r : list Z) : x ≠ 0 → tiles (x :: r) = x :: tiles r.
Proof. intros H. unfold tiles. by rewrite filter_cons_True. Qed.

Lemma tiles_cons_zero (r : list Z) : tiles (0 :: r) = tiles r.
Proof. unfold tiles. by rewrite filter_cons_False by (intros H; by apply H). Qed.

Lemma length_merge_once (r : list Z) : length (merge_once r) = length r.
Proof. by rewrite <- merge_row_once, length_merge_row. Qed.

(** A merge costs a tile; a row that [merge_once] changes loses one. *)
Lemma tiles_merge_once (r : list Z) :
  (length (tiles (merge_once r)) ≤ length (tiles r))%nat
  ∧ (merge_once r ≠ r → (length (tiles (merge_once r)) < length (tiles r))%nat).
Proof.
  induction r as [| |x t Hx [IH1 IH2]|x y t Hc [IH1 IH2]] using merge_once_ind.
  - done.
  - done.
  - rewrite merge_once_pair by done.
    rewrite (tiles_cons_nonzero (x * 2)) by lia. rewrite tiles_cons_zero.
    rewrite !(tiles_cons_nonzero x) by done. simpl.
    split; [lia|]. intros _. lia.
  - rewrite merge_once_skip by done.
    destruct (decide (x = 0)) as [->|Hx].
    + rewrite !tiles_cons_zero. split; [done|].
      intros H. apply IH2. congruence.
    + rewrite !(tiles_cons_nonzero x) by done. cbn [length]. split; [lia|].
      intros H. apply -> Nat.succ_lt_mono. apply IH2. congruence.
Qed.

Lemma merge_once_changes (r : list Z) : merge_once r ≠ r → has_pair r.
Proof.
  induction r as [| |x t Hx IH|x y t Hc IH] using merge_once_ind; try done.
  - intros _. by exists 0%nat, x.
  - rewrite merge_once_skip by done. intros H.
    destruct IH as (j & w & H1 & H2 & Hw); [congruence|].
    by exists (S j), w.
Qed.

Lemma merge_once_pair_changes (r : list Z) : has_pair r → merge_once r ≠ r.
Proof.
  induction r as [| |x t Hx IH|x y t Hc IH] using merge_once_ind.
  - by intros (j & w & H & _).
  - intros (j & w & _ & H & _). by destruct j.
  - intros _. rewrite merge_once_pair by done. intros [= H _]. lia.
  - rewrite merge_once_skip by done. intros (j & w & H1 & H2 & Hw) [= H].
    destruct j as [|j].
    + simpl in H1, H2. injection H1 as ->. injection H2 as ->.
      rewrite Z.eqb_refl in Hc.
      by assert ((w =? 0) = false) as Hw' by (by apply Z.eqb_neq); rewrite Hw' in Hc.
    + apply IH; [|done]. by exists j, w.
Qed.

Lemma tiles_app (r s : list Z) : tiles (r ++ s) = tiles r ++ tiles s.
Proof. apply filter_app. Qed.

Lemma tiles_replicate_0 k : tiles (replicate k 0) = [].
Proof. induction k as [|k IH]; [done|]. simpl. by rewrite tiles_cons_zero. Qed.

Lemma tiles_tiles (r : list Z) : tiles (tiles r) = tiles r.
Proof.
  induction r as [|x r IH]; [done|].
  destruct (decide (x = 0)) as [->|Hx].
  - by rewrite tiles_cons_zero.
  - by rewrite !tiles_cons_nonzero, IH.
Qed.

Lemma tiles_pack m (r : list Z) : tiles (pack m r) = tiles r.
Proof.
  unfold pack. by rewrite tiles_app, tiles_replicate_0, app_nil_r, tiles_tiles.
Qed.

Lemma pack_cons_nonzero m x (r : list Z) :
  x ≠ 0 → pack (S m) (x :: r) = x :: pack m r.
Proof. intros H. unfold pack. by rewrite tiles_cons_nonzero. Qed.

Lemma tiles_all (r : list Z) : length (tiles r) = length r → tiles r = r.
Proof.
  induction r as [|x r IH]; [done|].
  destruct (decide (x = 0)) as [->|Hx].
  - rewrite tiles_cons_zero. pose proof (length_tiles_le r). simpl. lia.
  - rewrite tiles_cons_nonzero by done. simpl. intros H. f_equal. apply IH. lia.
Qed.

Lemma pack_full m (r : list Z) :
  length r = m → length (tiles r) = m → pack m r = r.
Proof.
  intros Hr Ht. unfold pack. rewrite Ht, Nat.sub_diag, app_nil_r.
  apply tiles_all. lia.
Qed.

Lemma pack_zeros m : pack m (replicate m 0) = replicate m 0.
Proof. unfold pack. rewrite tiles_replicate_0. simpl. by rewrite Nat.sub_0_r. Qed.

(** A row that is not all zeros has a tile. *)
Lemma row_has_tile (r : list Z) :
  r ≠ replicate (length r) 0 → ∃ j w, r !! j = Some w ∧ w ≠ 0.
Proof.
  induction r as [|x r IH]; [done|]. intros H.
  destruct (decide (x = 0)) as [->|Hx].
  - destruct IH as (j & w & Hj & Hw); [simpl in H; congruence|].
    by exists (S j), w.
  - by exists 0%nat, x.
Qed.

Lemma pack_changes m (r : list Z) : length r = m → pack m r ≠ r → has_gap r.
Proof.
  revert m. induction r as [|x r IH]; intros m Hm H.
  - simpl in Hm. subst. done.
  - simpl in Hm. subst m.
    destruct (decide (x = 0)) as [->|Hx].
    + destruct (row_has_tile r) as (j & w & Hj & Hw).
      { intros Hz. apply H.
        assert (0 :: r = replicate (S (length r)) 0) as -> by (simpl; by f_equal).
        apply pack_zeros. }
      exists 0%nat, (S j), w. split_and!; [lia|done|done|done].
    + rewrite pack_cons_nonzero in H by done.
      destruct (IH (length r)) as (j0 & j1 & w & Hj & H0 & H1 & Hw);
        [done|congruence|].
      exists (S j0), (S j1), w. split_and!; [lia|done|done|done].
Qed.

Lemma pack_gap_changes m (r : list Z) : has_gap r → pack m r ≠ r.
Proof.
  intros (j0 & j1 & w & Hj & H0 & H1 & Hw) Heq. rewrite <- Heq in H0, H1.
  by pose proof (pack_after_zero _ _ _ _ _ Hj H0 H1).
Qed.

Lemma pack_idem m (r : list Z) : pack m (pack m r) = pack m r.
Proof. unfold pack at 1. by rewrite tiles_pack. Qed.

Lemma left_row_fixed n (r : list Z) :
  pack n (merge_once (pack n r)) = r → pack n r = r ∧ merge_once r = r.
Proof.
  intros Heq.
  assert (merge_once (pack n r) = pack n r) as Hm.
  { destruct (decide (merge_once (pack n r) = pack n r)) as [|Hne]; [done|exfalso].
    apply (proj2 (tiles_merge_once (pack n r))) in Hne.
    apply (f_equal tiles) in Heq. rewrite tiles_pack in Heq.
    rewrite Heq, tiles_pack in Hne. lia. }
  rewrite Hm, pack_idem in Heq. split; [done|]. by rewrite Heq in Hm.
Qed.

(** The move to the left changes a row exactly when the row has a zero
    before a tile or two equal tiles side by side. *)
Lemma left_row_changes_iff n (r : list Z) :
  length r = n → left_row n r ≠ r ↔ has_gap r ∨ has_pair r.
Proof.
  intros Hr. rewrite left_row_spec by done. split.
  - intros H. destruct (decide (pack n r = r)) as [Hp|Hp].
    + right. apply merge_once_changes. intros Hm.
      apply H. by rewrite Hp, Hm.
    + left. by apply (pack_changes n).
  - intros [Hg|Hp] [Hpk Hm]%left_row_fixed.
    + by apply (pack_gap_changes n r Hg).
    + by apply (merge_once_pair_changes r Hp).
Qed.

(** ** When a move is legal *)

Lemma cell_orient n dir (a : ndarray) i j :
  has_shape n n a → (i < n)%nat → (j < n)%nat →
  cell (orient dir a) i j
  = match dir with
    | 0%nat => cell a j (n - S i)
    | 1%nat => cell a (n - S j) i
    | 2%nat => cell a i j
    | _ => cell a (n - S i) (n - S j)
    end.
Proof.
  intros Ha Hi Hj. destruct dir as [|[|[|dir]]]; simpl; [| |done|].
  - rewrite (cell_transpose n) by (by apply has_shape_flip_cols || done).
    by rewrite (cell_flip_cols n n) by (done || lia).
  - rewrite (cell_flip_cols n n) by (by apply has_shape_transpose || done).
    by rewrite (cell_transpose n) by (done || lia).
  - rewrite (cell_flip_rows n n) by (by apply has_shape_flip_cols || done).
    by rewrite (cell_flip_cols n n) by (done || lia).
Qed.

Lemma cell_restore n dir (a : ndarray) i j :
  has_shape n n a → (i < n)%nat → (j < n)%nat →
  cell (restore dir a) i j
  = match dir with
    | 0%nat => cell a (n - S j) i
    | 1%nat => cell a j (n - S i)
    | 2%nat => cell a i j
    | _ => cell a (n - S i) (n - S j)
    end.
Proof.
  intros Ha Hi Hj. destruct dir as [|[|[|dir]]]; simpl; [| |done|].
  - rewrite (cell_flip_cols n n) by (by apply has_shape_transpose || done).
    by rewrite (cell_transpose n) by (done || lia).
  - rewrite (cell_transpose n) by (by apply has_shape_flip_cols || done).
    by rewrite (cell_flip_cols n n) by (done || lia).
  - rewrite (cell_flip_rows n n) by (by apply has_shape_flip_cols || done).
    by rewrite (cell_flip_cols n n) by (done || lia).
Qed.

Lemma fmap_changed {A} `{EqDecision A} (f : A → A) (l : list A) :
  f <$> l ≠ l ↔ ∃ i x, l !! i = Some x ∧ f x ≠ x.
Proof.
  split.
  - induction l as [|x l IH]; [done|]. intros H.
    destruct (decide (f x = x)) as [Hx|Hx].
    + destruct IH as (i & y & Hi & Hy).
      { intros Hl. apply H. rewrite fmap_cons. congruence. }
      by exists (S i), y.
    + by exists 0%nat, x.
  - intros (i & x & Hi & Hx) Heq. apply Hx.
    assert ((f <$> l) !! i = Some (f x)) as H by (by rewrite list_lookup_fmap, Hi).
    rewrite Heq, Hi in H. congruence.
Qed.

Lemma row_gap_rows n (V : ndarray) :
  has_shape n n V → row_gap V n ↔ ∃ i r, V !! i = Some r ∧ has_gap r.
Proof.
  intros HV. split.
  - intros (i & j0 & j1 & (Hi & Hj & Hj1) & H0 & H1).
    destruct (has_shape_cell_lookup n n V i j0 HV Hi ltac:(lia)) as (r & Hr & Hc0).
    destruct (has_shape_cell_lookup n n V i j1 HV Hi Hj1) as (r' & Hr' & Hc1).
    assert (r' = r) as -> by congruence.
    exists i, r. split; [done|]. exists j0, j1, (cell V i j1).
    split_and!; [done|by rewrite Hc0, H0|done|done].
  - intros (i & r & Hr & (j0 & j1 & w & Hj & H0 & H1 & Hw)).
    pose proof (has_shape_lookup _ _ _ _ _ HV Hr) as Hlen.
    pose proof (lookup_lt_Some _ _ _ Hr). pose proof (lookup_lt_Some _ _ _ H1).
    destruct HV as [Hn _].
    exists i, j0, j1. split_and!; try lia.
    + by rewrite (cell_lookup _ _ _ _ _ Hr H0).
    + by rewrite (cell_lookup _ _ _ _ _ Hr H1).
Qed.

Lemma row_pair_rows n (V : ndarray) :
  has_shape n n V → row_pair V n ↔ ∃ i r, V !! i = Some r ∧ has_pair r.
Proof.
  intros HV. split.
  - intros (i & j & (Hi & Hj) & H0 & H1).
    destruct (has_shape_cell_lookup n n V i j HV Hi ltac:(lia)) as (r & Hr & Hc0).
    destruct (has_shape_cell_lookup n n V i (S j) HV Hi Hj) as (r' & Hr' & Hc1).
    assert (r' = r) as -> by congruence.
    exists i, r. split; [done|]. exists j, (cell V i j).
    split_and!; [done|by rewrite Hc1, H1|done].
  - intros (i & r & Hr & (j & x & H0 & H1 & Hx)).
    pose proof (has_shape_lookup _ _ _ _ _ HV Hr) as Hlen.
    pose proof (lookup_lt_Some _ _ _ Hr). pose proof (lookup_lt_Some _ _ _ H1).
    destruct HV as [Hn _].
    exists i, j. split_and!; try lia.
    + by rewrite (cell_lookup _ _ _ _ _ Hr H0).
    + by rewrite (cell_lookup _ _ _ _ _ Hr H0), (cell_lookup _ _ _ _ _ Hr H1).
Qed.

Lemma rows_changed_iff n (V : ndarray) :
  has_shape n n V → left_row n <$> V ≠ V ↔ row_gap V n ∨ row_pair V n.
Proof.
  intros HV. rewrite fmap_changed, (row_gap_rows n), (row_pair_rows n) by done.
  split.
  - intros (i & r & Hr & Hne).
    assert (length r = n) as Hlen by (by eapply has_shape_lookup).
    apply (left_row_changes_iff n r Hlen) in Hne as [Hg|Hp].
    + left. by exists i, r.
    + right. by exists i, r.
  - intros [(i & r & Hr & H)|(i & r & Hr & H)]; exists i, r; (split; [done|]);
      (apply left_row_changes_iff; [by eapply has_shape_lookup|]); [by left|by right].
Qed.

Lemma legal_oriented (b : GameBoard) dir :
  wf_board b → (dir < 4)%nat →
  legal b dir
  ↔ row_gap (orient dir (grid b)) (grid_len b)
    ∨ row_pair (orient dir (grid b)) (grid_len b).
Proof.
  intros Hb Hd. rewrite <- rows_changed_iff by by apply has_shape_orient.
  unfold legal. rewrite (clone_eq b).
  by rewrite moved_fixed_iff by done.
Qed.

Lemma row_gap_orient (b : GameBoard) dir :
  wf_board b → (dir < 4)%nat →
  row_gap (orient dir (grid b)) (grid_len b) ↔ can_slide b dir.
Proof.
  destruct b as [n g]. unfold wf_board. simpl. intros Hg Hd.
  destruct dir as [|[|[|[|dir]]]]; [| | | |lia]; simpl;
    unfold row_gap, zero_above_tile, tile_above_zero, zero_left_of_tile,
      tile_left_of_zero; simpl; [| |done|].
  - split.
    + intros (i & j0 & j1 & Hlt & H0 & H1).
      rewrite (cell_orient n 0 g) in H0, H1 by (done || lia).
      exists j0, j1, (n - S i)%nat. split_and!; (lia || done).
    + intros (i0 & i1 & j & Hlt & H0 & H1).
      exists (n - S j)%nat, i0, i1.
      rewrite !(cell_orient n 0 g) by (done || lia).
      replace (n - S (n - S j))%nat with j by lia. split_and!; (lia || done).
  - split.
    + intros (i & j0 & j1 & Hlt & H0 & H1).
      rewrite (cell_orient n 1 g) in H0, H1 by (done || lia).
      exists (n - S j1)%nat, (n - S j0)%nat, i. split_and!; (lia || done).
    + intros (i0 & i1 & j & Hlt & H0 & H1).
      exists j, (n - S i1)%nat, (n - S i0)%nat.
      rewrite !(cell_orient n 1 g) by (done || lia).
      replace (n - S (n - S i1))%nat with i1 by lia.
      replace (n - S (n - S i0))%nat with i0 by lia. split_and!; (lia || done).
  - split.
    + intros (i & j0 & j1 & Hlt & H0 & H1).
      rewrite (cell_orient n 3 g) in H0, H1 by (done || lia).
      exists (n - S i)%nat, (n - S j1)%nat, (n - S j0)%nat.
      split_and!; (lia || done).
    + intros (i & j0 & j1 & Hlt & H0 & H1).
      exists (n - S i)%nat, (n - S j1)%nat, (n - S j0)%nat.
      rewrite !(cell_orient n 3 g) by (done || lia).
      replace (n - S (n - S i))%nat with i by lia.
      replace (n - S (n - S j1))%nat with j1 by lia.
      replace (n - S (n - S j0))%nat with j0 by lia. split_and!; (lia || done).
Qed.

Lemma row_pair_orient (b : GameBoard) dir :
  wf_board b → (dir < 4)%nat →
  row_pair (orient dir (grid b)) (grid_len b) ↔ can_merge b dir.
Proof.
  destruct b as [n g]. unfold wf_board. simpl. intros Hg Hd.
  destruct dir as [|[|[|[|dir]]]]; [| | | |lia]; simpl;
    unfold row_pair, equal_in_row, equal_in_column; simpl; [| |done|].
  - split.
    + intros (i & j & Hlt & H0 & H1).
      rewrite !(cell_orient n 0 g) in H1 by (done || lia).
      rewrite (cell_orient n 0 g) in H0 by (done || lia).
      exists j, (n - S i)%nat. split_and!; (lia || done).
    + intros (i & j & Hlt & H0 & H1).
      exists (n - S j)%nat, i.
      rewrite !(cell_orient n 0 g) by (done || lia).
      replace (n - S (n - S j))%nat with j by lia. split_and!; (lia || done).
  - split.
    + intros (i & j & Hlt & H0 & H1).
      rewrite !(cell_orient n 1 g) in H1 by (done || lia).
      rewrite (cell_orient n 1 g) in H0 by (done || lia).
      exists (n - S (S j))%nat, i.
      replace (S (n - S (S j)))%nat with (n - S j)%nat by lia.
      split_and!; [lia|lia|congruence|congruence].
    + intros (i & j & Hlt & H0 & H1).
      exists j, (n - S (S i))%nat.
      rewrite !(cell_orient n 1 g) by (done || lia).
      replace (n - S (S (n - S (S i))))%nat with i by lia.
      replace (n - S (n - S (S i)))%nat with (S i) by lia.
      split_and!; [lia|lia|congruence|congruence].
  - split.
    + intros (i & j & Hlt & H0 & H1).
      rewrite !(cell_orient n 3 g) in H1 by (done || lia).
      rewrite (cell_orient n 3 g) in H0 by (done || lia).
      exists (n - S i)%nat, (n - S (S j))%nat.
      replace (S (n - S (S j)))%nat with (n - S j)%nat by lia.
      split_and!; [lia|lia|congruence|congruence].
    + intros (i & j & Hlt & H0 & H1).
      exists (n - S i)%nat, (n - S (S j))%nat.
      rewrite !(cell_orient n 3 g) by (done || lia).
      replace (n - S (n - S i))%nat with i by lia.
      replace (n - S (S (n - S (S j))))%nat with j by lia.
      replace (n - S (n - S (S j)))%nat with (S j) by lia.
      split_and!; [lia|lia|congruence|congruence].
Qed.

Lemma legal_iff (b : GameBoard) dir :
  wf_board b → (dir < 4)%nat → legal b dir ↔ can_slide b dir ∨ can_merge b dir.
Proof.
  intros Hb Hd.
  by rewrite legal_oriented, row_gap_orient, row_pair_orient.
Qed.

Lemma available_moves_filter (b : GameBoard) :
  wf_board b → get_available_moves b = filter (legal b) (seq 0 4).
Proof.
  intros Hb. unfold get_available_moves, dirs, generate_dirs.
  cbn [seq foldl].
  rewrite !available_step by (done || lia).
  rewrite !filter_cons, filter_nil.
  repeat case_decide; reflexivity.
Qed.

Lemma elem_of_available_moves (b : GameBoard) dir :
  wf_board b →
  dir ∈ get_available_moves b ↔ can_slide b dir ∨ can_merge b dir.
Proof.
  intros Hb. rewrite available_moves_filter by done.
  rewrite list_elem_of_filter, elem_of_seq. split.
  - intros [Hl Hd]. apply legal_iff; (done || lia).
  - intros H. assert (dir < 4)%nat as Hd.
    { destruct dir as [|[|[|[|dir]]]]; try lia. by destruct H. }
    split; [|lia]. by apply legal_iff.
Qed.

Lemma cells_dec n (P : nat → nat → Prop) 
  (Hdec : ∀ i j, Decision (P i j)) :
  (∀ i j, (i < n)%nat → (j < n)%nat → P i j)
  ∨ (∃ i j, (i < n)%nat ∧ (j < n)%nat ∧ ¬ P i j).
Proof.
  destruct (decide (Forall (fun i => Forall (fun j => P i j) (seq 0 n)) (seq 0 n)))
    as [Hall|Hex].
  - left. intros i j Hi Hj. rewrite Forall_forall in Hall.
    specialize (Hall i). rewrite Forall_forall in Hall.
    apply Hall; apply elem_of_seq; lia.
  - right. apply not_Forall_Exists in Hex; [|solve_decision].
    apply Exists_exists in Hex as (i & Hi & Hex).
    apply not_Forall_Exists in Hex; [|solve_decision].
    apply Exists_exists in Hex as (j & Hj & Hex).
    apply elem_of_seq in Hi, Hj. exists i, j. split_and!; (lia || done).
Qed.

Lemma no_moves_iff (b : GameBoard) :
  wf_board b →
  get_available_moves b = [] ↔ ∀ dir, ¬ (can_slide b dir ∨ can_merge b dir).
Proof.
  intros Hb. split.
  - intros Hnil dir H. apply elem_of_available_moves in H; [|done].
    rewrite Hnil in H. by apply elem_of_nil in H.
  - intros H. destruct (get_available_moves b) as [|d l] eqn:E; [done|].
    exfalso. apply (H d). apply elem_of_available_moves; [done|].
    rewrite E. apply list_elem_of_here.
Qed.

Lemma blocked_board (b : GameBoard) :
  (∀ dir, ¬ (can_slide b dir ∨ can_merge b dir))
  ↔ all_empty b ∨ (full b ∧ no_equal_neighbours b).
Proof.
  set (n := grid_len b). set (g := grid b). split.
  - intros H.
    assert (¬ zero_above_tile b) as Hu by (intros X; apply (H 0%nat); by left).
    assert (¬ tile_above_zero b) as Hd by (intros X; apply (H 1%nat); by left).
    assert (¬ zero_left_of_tile b) as Hl by (intros X; apply (H 2%nat); by left).
    assert (¬ tile_left_of_zero b) as Hr by (intros X; apply (H 3%nat); by left).
    assert (¬ equal_in_column b) as Hc by (intros X; apply (H 0%nat); by right).
    assert (¬ equal_in_row b) as Hw by (intros X; apply (H 2%nat); by right).
    destruct (cells_dec n (fun i j => cell g i j = 0) (fun i j => decide (cell g i j = 0))) as [Hz|(i & j & Hi & Hj & Hij)];
      [by left|].
    destruct (cells_dec n (fun i j => cell g i j ≠ 0) (fun i j => decide (cell g i j ≠ 0)))
      as [Hf|(i' & j' & Hi' & Hj' & Hij')].
    + right. split; [done|]. split.
      * intros x y Hx Hy Heq. apply Hw. exists x, y.
        split_and!; [done|done| |done]. apply Hf; (done || lia).
      * intros x y Hx Hy Heq. apply Hc. exists x, y.
        split_and!; [done|done| |done]. apply Hf; (done || lia).
    + exfalso. apply dec_stable in Hij'.
      destruct (decide (cell g i j' = 0)) as [Hm|Hm].
      * destruct (Nat.lt_total j j') as [Hlt|[->|Hlt]]; [| done |].
        -- apply Hr. exists i, j, j'. split_and!; (done || lia).
        -- apply Hl. exists i, j', j. split_and!; (done || lia).
      * destruct (Nat.lt_total i i') as [Hlt|[->|Hlt]]; [| done |].
        -- apply Hd. exists i, i', j'. split_and!; (done || lia).
        -- apply Hu. exists i', i, j'. split_and!; (done || lia).
  - intros [He|[Hf [Hw Hc]]] dir [Hs|Hm].
    + destruct dir as [|[|[|[|dir]]]]; [| | | |done];
        destruct Hs as (x & y & z & Hlt & H0 & H1);
        first [apply H1; apply He; lia | apply H0; apply He; lia].
    + destruct dir as [|[|[|[|dir]]]]; [| | | |done];
        destruct Hm as (x & y & Hlt & H0 & H1); apply H0; apply He; lia.
    + destruct dir as [|[|[|[|dir]]]]; [| | | |done];
        destruct Hs as (x & y & z & Hlt & H0 & H1);
        first [refine (Hf _ _ _ _ H0); lia | refine (Hf _ _ _ _ H1); lia].
    + destruct dir as [|[|[|[|dir]]]]; [| | | |done];
        destruct Hm as (x & y & Hlt & H0 & H1);
        first [refine (Hw x y _ _ H1); lia | refine (Hc x y _ _ H1); lia].
Qed.

(** X4.  [move(dir)] changes the grid exactly when, in that direction, an
    empty cell has a tile behind it or two equal tiles are neighbours. *)
Theorem move_changes_iff (b : GameBoard) (dir : nat) :
  wf_board b → (dir < 4)%nat →
  grid (moved b dir) ≠ grid b ↔ can_slide b dir ∨ can_merge b dir.
Proof.
  intros Hb Hd. rewrite <- legal_iff by done. unfold legal. by rewrite clone_eq.
Qed.

Lemma move_changes_iff_witness :
  wf_board tie_board ∧ (Left < 4)%nat
  ∧ (grid (moved tie_board Left) ≠ grid tie_board
     ↔ can_slide tie_board Left ∨ can_merge tie_board Left).
Proof.
  assert (wf_board tie_board) as Hb by apply wf_tie_board.
  assert (Left < 4)%nat as Hd by (unfold Left; lia).
  split; [exact Hb|split; [exact Hd|]].
  exact (move_changes_iff tie_board Left Hb Hd).
Defined.

(** X5.  [get_available_moves()] lists a direction exactly when a tile can
    slide or merge in it: its shortcut through [get_available_from_zeros]
    neither adds nor loses a direction. *)
Theorem get_available_moves_exact (b : GameBoard) (dir : nat) :
  wf_board b →
  dir ∈ get_available_moves b ↔ can_slide b dir ∨ can_merge b dir.
Proof. apply elem_of_available_moves. Qed.

Lemma get_available_moves_exact_witness :
  wf_board tie_board
  ∧ (Right ∈ get_available_moves tie_board
     ↔ can_slide tie_board Right ∨ can_merge tie_board Right).
Proof.
  assert (wf_board tie_board) as Hb by apply wf_tie_board.
  split; [exact Hb|].
  exact (get_available_moves_exact tie_board Right Hb).
Defined.

(** X6.  [get_available_moves()] is empty, which is when the game ends,
    exactly on a board with no tile at all and on a board with no empty
    cell and no two equal neighbours. *)
Theorem no_moves_left_iff (b : GameBoard) :
  wf_board b →
  get_available_moves b = []
  ↔ all_empty b ∨ (full b ∧ no_equal_neighbours b).
Proof.
  intros Hb. by rewrite no_moves_iff, blocked_board.
Qed.

Lemma no_moves_left_iff_witness :
  wf_board (new_board 4)
  ∧ (get_available_moves (new_board 4) = []
     ↔ all_empty (new_board 4)
       ∨ (full (new_board 4) ∧ no_equal_neighbours (new_board 4))).
Proof.
  assert (wf_board (new_board 4)) as Hb by (apply has_shape_zeros).
  split; [exact Hb|].
  exact (no_moves_left_iff (new_board 4) Hb).
Defined.

(** ** The four directions as rows and columns *)

Lemma transpose_flip_cols n (a : ndarray) :
  has_shape n n a → transpose (flip_cols a) = flip_rows (transpose a).
Proof.
  intros Ha. apply (ndarray_ext n n).
  - by apply has_shape_transpose, has_shape_flip_cols.
  - by apply has_shape_flip_rows, has_shape_transpose.
  - intros i j Hi Hj.
    rewrite (cell_transpose n) by (by apply has_shape_flip_cols || done).
    rewrite (cell_flip_cols n n) by done.
    rewrite (cell_flip_rows n n) by (by apply has_shape_transpose || done).
    by rewrite (cell_transpose n) by (done || lia).
Qed.

Lemma transpose_flip_rows n (a : ndarray) :
  has_shape n n a → transpose (flip_rows a) = flip_cols (transpose a).
Proof.
  intros Ha. apply (ndarray_ext n n).
  - by apply has_shape_transpose, has_shape_flip_rows.
  - by apply has_shape_flip_cols, has_shape_transpose.
  - intros i j Hi Hj.
    rewrite (cell_transpose n) by (by apply has_shape_flip_rows || done).
    rewrite (cell_flip_rows n n) by done.
    rewrite (cell_flip_cols n n) by (by apply has_shape_transpose || done).
    by rewrite (cell_transpose n) by (done || lia).
Qed.

Lemma flip_cols_left_rows n (a : ndarray) :
  flip_cols (left_row n <$> flip_cols a) = right_row n <$> a.
Proof. unfold flip_cols. by rewrite <- !list_fmap_compose. Qed.

Lemma grid_moved_right (b : GameBoard) :
  wf_board b → grid (moved b Right) = right_row (grid_len b) <$> grid b.
Proof.
  intros Hb. rewrite grid_moved by (done || (unfold Right; lia)). simpl.
  rewrite <- flip_cols_left_rows. unfold flip_rows, flip_cols.
  by rewrite !fmap_reverse, reverse_involutive.
Qed.

Lemma grid_moved_up (b : GameBoard) :
  wf_board b →
  grid (moved b Up)
  = transpose (left_row (grid_len b) <$> transpose (grid b)).
Proof.
  intros Hb. rewrite grid_moved by (done || (unfold Up; lia)). simpl.
  rewrite (transpose_flip_cols (grid_len b)) by done.
  unfold flip_rows. rewrite fmap_reverse.
  fold (flip_rows (left_row (grid_len b) <$> transpose (grid b))).
  rewrite (transpose_flip_rows (grid_len b))
    by by apply has_shape_left_rows, has_shape_transpose.
  apply flip_cols_involutive.
Qed.

Lemma grid_moved_down (b : GameBoard) :
  wf_board b →
  grid (moved b Down)
  = transpose (right_row (grid_len b) <$> transpose (grid b)).
Proof.
  intros Hb. rewrite grid_moved by (done || (unfold Down; lia)). simpl.
  by rewrite flip_cols_left_rows.
Qed.

(** X7.  [move] treats the four directions alike: Right is the move Left
    on every row read backwards, Up is the move Left on every column and
    Down the move Right on every column. *)
Theorem move_directions (b : GameBoard) :
  wf_board b →
  grid (moved b Left) = left_row (grid_len b) <$> grid b
  ∧ grid (moved b Right) = right_row (grid_len b) <$> grid b
  ∧ grid (moved b Up) = transpose (left_row (grid_len b) <$> transpose (grid b))
  ∧ grid (moved b Down) = transpose (right_row (grid_len b) <$> transpose (grid b)).
Proof.
  intros Hb. split_and!.
  - by apply grid_moved_left.
  - by apply grid_moved_right.
  - by apply grid_moved_up.
  - by apply grid_moved_down.
Qed.

Lemma move_directions_witness :
  wf_board tie_board
  ∧ grid (moved tie_board Left) = left_row 4 <$> grid tie_board
  ∧ grid (moved tie_board Right) = right_row 4 <$> grid tie_board
  ∧ grid (moved tie_board Up) = transpose (left_row 4 <$> transpose (grid tie_board))
  ∧ grid (moved tie_board Down) = transpose (right_row 4 <$> transpose (grid tie_board)).
Proof.
  assert (wf_board tie_board) as Hb by apply wf_tie_board.
  split; [exact Hb|]. exact (move_directions tie_board Hb).
Defined.

(** ** A legal move frees a cell *)

Lemma tiles_lt (r : list Z) j :
  r !! j = Some 0 → (length (tiles r) < length r)%nat.
Proof.
  revert j. induction r as [|x r IH]; intros j H; [done|].
  destruct j as [|j]; simpl in H.
  - injection H as ->. rewrite tiles_cons_zero.
    pose proof (length_tiles_le r). simpl. lia.
  - specialize (IH _ H). pose proof (length_tiles_le (x :: r)).
    destruct (decide (x = 0)) as [->|Hx].
    + rewrite tiles_cons_zero. simpl. lia.
    + rewrite tiles_cons_nonzero by done. simpl. lia.
Qed.

Lemma pack_last m (r : list Z) :
  (length (tiles r) < m)%nat → item (pack m r) (m - 1) = 0.
Proof.
  intros H. apply item_lookup. unfold pack.
  rewrite lookup_app_r by lia. apply lookup_replicate_2. lia.
Qed.

Lemma left_row_changed_last n (r : list Z) :
  length r = n → left_row n r ≠ r → item (left_row n r) (n - 1) = 0.
Proof.
  intros Hr Hne. rewrite left_row_spec in * by done.
  apply pack_last.
  pose proof (length_tiles_le r) as Hle.
  destruct (tiles_merge_once (pack n r)) as [H1 H2].
  rewrite tiles_pack in H1, H2.
  destruct (decide (pack n r = r)) as [Hp|Hp].
  - assert (merge_once (pack n r) ≠ pack n r) as Hm.
    { intros Hm. apply Hne. by rewrite Hm, pack_idem. }
    specialize (H2 Hm). lia.
  - apply (pack_changes n r Hr) in Hp as (j0 & j1 & w & _ & H0 & _).
    apply tiles_lt in H0. lia.
Qed.

Lemma cell_restore_onto n dir (a : ndarray) i j :
  has_shape n n a → (i < n)%nat → (j < n)%nat →
  ∃ x y, (x < n)%nat ∧ (y < n)%nat ∧ cell (restore dir a) x y = cell a i j.
Proof.
  intros Ha Hi Hj. destruct dir as [|[|[|dir]]].
  - exists j, (n - S i)%nat. rewrite (cell_restore n) by (done || lia).
    replace (n - S (n - S i))%nat with i by lia. split_and!; (lia || done).
  - exists (n - S j)%nat, i. rewrite (cell_restore n) by (done || lia).
    replace (n - S (n - S j))%nat with j by lia. split_and!; (lia || done).
  - by exists i, j.
  - exists (n - S i)%nat, (n - S j)%nat. rewrite (cell_restore n) by (done || lia).
    replace (n - S (n - S i))%nat with i by lia.
    replace (n - S (n - S j))%nat with j by lia. split_and!; (lia || done).
Qed.

Lemma legal_frees_cell (b : GameBoard) dir :
  wf_board b → (dir < 4)%nat → legal b dir →
  ∃ pos, pos ∈ get_available_cells (moved b dir).
Proof.
  intros Hb Hd Hl. unfold legal in Hl. rewrite clone_eq in Hl.
  rewrite moved_fixed_iff in Hl by done.
  set (n := grid_len b) in *. set (V := orient dir (grid b)) in *.
  assert (has_shape n n V) as HV by (by apply has_shape_orient).
  apply fmap_changed in Hl as (i & r & Hr & Hne).
  pose proof (has_shape_lookup _ _ _ _ _ HV Hr) as Hlen.
  pose proof (lookup_lt_Some _ _ _ Hr) as Hi.
  assert (0 < n)%nat as Hn.
  { destruct n; [|lia]. destruct r; [|done]. by destruct Hne. }
  assert (cell (left_row n <$> V) i (n - 1) = 0) as Hc.
  { unfold cell. rewrite list_lookup_fmap, Hr. simpl.
    by apply left_row_changed_last. }
  destruct (cell_restore_onto n dir (left_row n <$> V) i (n - 1))
    as (x & y & Hx & Hy & Hxy);
    [by apply has_shape_left_rows|destruct HV; lia|lia|].
  exists (x, y). apply elem_of_available_cells. cbn [fst snd].
  split_and!; [done|done|].
  rewrite grid_moved by done. fold n V. by rewrite Hxy.
Qed.

(** X8.  After a move that [get_available_moves()] lists, the board has an
    empty cell, so that a tile can always be added after a legal move. *)
Theorem legal_move_frees_cell (b : GameBoard) (dir : nat) :
  wf_board b → dir ∈ get_available_moves b →
  get_available_cells (moved b dir) ≠ [].
Proof.
  intros Hb Hd. rewrite available_moves_filter in Hd by done.
  apply list_elem_of_filter in Hd as [Hl Hd]. apply elem_of_seq in Hd.
  destruct (legal_frees_cell b dir Hb ltac:(lia) Hl) as (pos & Hpos).
  intros Hnil. rewrite Hnil in Hpos. by apply elem_of_nil in Hpos.
Qed.

Lemma legal_move_frees_cell_witness :
  wf_board tie_board ∧ Left ∈ get_available_moves tie_board
  ∧ get_available_cells (moved tie_board Left) ≠ [].
Proof.
  assert (wf_board tie_board) as Hb by apply wf_tie_board.
  assert (Left ∈ get_available_moves tie_board) as Hd.
  { vm_compute. apply list_elem_of_here. }
  split; [exact Hb|split; [exact Hd|]].
  exact (legal_move_frees_cell tie_board Left Hb Hd).
Defined.

(** ** A new board, and a tile put on a board *)

Lemma get_cell_value_inside (b : GameBoard) (pos : nat * nat) :
  wf_board b → (fst pos < grid_len b)%nat → (snd pos < grid_len b)%nat →
  get_cell_value b pos = Some (cell (grid b) (fst pos) (snd pos)).
Proof.
  intros Hb Hx Hy. unfold get_cell_value.
  destruct (has_shape_cell_lookup _ _ _ _ _ Hb Hx Hy) as (r & -> & Hc). done.
Qed.

Lemma get_cell_value_outside (b : GameBoard) (pos : nat * nat) :
  wf_board b → (grid_len b ≤ fst pos ∨ grid_len b ≤ snd pos)%nat →
  get_cell_value b pos = None.
Proof.
  intros Hb Hpos. unfold get_cell_value.
  destruct (grid b !! fst pos) as [r|] eqn:Hr; [|done].
  pose proof (has_shape_lookup _ _ _ _ _ Hb Hr) as Hlen.
  pose proof (lookup_lt_Some _ _ _ Hr) as Hlt. destruct Hb as [Hn _].
  apply lookup_ge_None_2. lia.
Qed.

Lemma cell_zeros n m i j : cell (np_zeros n m) i j = 0.
Proof.
  unfold cell, np_zeros, item.
  destruct (decide (i < n)%nat) as [Hi|Hi].
  - rewrite lookup_replicate_2 by done. simpl.
    destruct (decide (j < m)%nat) as [Hj|Hj].
    + by rewrite lookup_replicate_2.
    + by rewrite lookup_ge_None_2 by (rewrite length_replicate; lia).
  - by rewrite (lookup_ge_None_2 (replicate n (replicate m 0)) i)
      by (rewrite length_replicate; lia).
Qed.

Lemma length_row_major n : length (row_major n) = (n * n)%nat.
Proof.
  unfold row_major.
  assert (∀ l : list nat,
            length (l ≫= (fun x => (fun y => (x, y)) <$> seq 0 n)) = (length l * n)%nat)
    as H; [|by rewrite H, length_seq].
  intros l. induction l as [|x l IH]; [done|].
  rewrite bind_cons, length_app, IH, length_fmap, length_seq. simpl. lia.
Qed.

Lemma NoDup_row_major n : NoDup (row_major n).
Proof.
  apply NoDup_alt. intros k1 k2 [i j] H1 H2.
  apply row_major_lookup in H1 as (_ & _ & ->).
  by apply row_major_lookup in H2 as (_ & _ & ->).
Qed.

Lemma NoDup_available_cells (b : GameBoard) : NoDup (get_available_cells b).
Proof.
  rewrite get_available_cells_row_major. apply NoDup_filter, NoDup_row_major.
Qed.

Lemma filter_all {A} (P : A → Prop) `{∀ x, Decision (P x)} (l : list A) :
  (∀ x, x ∈ l → P x) → filter P l = l.
Proof.
  induction l as [|x l IH]; intros Hall; [done|].
  rewrite filter_cons_True by apply Hall, list_elem_of_here.
  f_equal. apply IH. intros y Hy. by apply Hall, list_elem_of_further.
Qed.

Lemma available_cells_new_board n : get_available_cells (new_board n) = row_major n.
Proof.
  rewrite get_available_cells_row_major. apply filter_all.
  intros [i j] _. apply is_empty_cell_true. apply cell_zeros.
Qed.

(** X9.  A board made by the constructor is a square of empty cells: every
    cell of the board reads 0 and reading a position outside the board
    fails, all [n * n] cells are available, in row-major order, and no
    move is. *)
Theorem new_board_empty (n : nat) :
  wf_board (new_board n)
  ∧ (∀ pos, get_cell_value (new_board n) pos
            = if bool_decide (fst pos < n ∧ snd pos < n)%nat then Some 0 else None)
  ∧ get_available_cells (new_board n) = row_major n
  ∧ length (get_available_cells (new_board n)) = (n * n)%nat
  ∧ get_available_moves (new_board n) = [].
Proof.
  assert (wf_board (new_board n)) as Hb by apply has_shape_zeros.
  split_and!.
  - done.
  - intros pos. case_bool_decide as Hpos.
    + rewrite get_cell_value_inside by (done || apply Hpos). f_equal. apply cell_zeros.
    + apply get_cell_value_outside; [done|]. simpl. lia.
  - apply available_cells_new_board.
  - by rewrite available_cells_new_board, length_row_major.
  - apply no_moves_iff; [done|]. apply blocked_board. left.
    intros i j _ _. apply cell_zeros.
Qed.

Lemma grid_sum_insert (a : ndarray) (r : list Z) i j v :
  a !! i = Some r → (j < length r)%nat →
  grid_sum (<[i := <[j := v]> r]> a) = grid_sum a - item r j + v.
Proof.
  intros Hr Hj. unfold grid_sum.
  rewrite list_fmap_insert.
  rewrite sumZ_insert by (rewrite length_fmap; by eapply lookup_lt_Some).
  rewrite sumZ_insert by done.
  assert (item (sumZ <$> a) i = sumZ r) as ->.
  { apply item_lookup. by rewrite list_lookup_fmap, Hr. }
  lia.
Qed.

Lemma insert_tile_Some (b : GameBoard) (pos : nat * nat) (value : Z) (b' : GameBoard) :
  wf_board b → insert_tile b pos value = Some b' →
  (fst pos < grid_len b)%nat ∧ (snd pos < grid_len b)%nat
  ∧ grid_sum (grid b') = grid_sum (grid b) - cell (grid b) (fst pos) (snd pos) + value.
Proof.
  intros Hb. unfold insert_tile.
  destruct (grid b !! fst pos) as [r|] eqn:Hr; [|done].
  case_bool_decide as Hj; [|done]. intros [= <-]. simpl.
  pose proof (has_shape_lookup _ _ _ _ _ Hb Hr) as Hlen.
  pose proof (lookup_lt_Some _ _ _ Hr) as Hi. destruct Hb as [Hn _].
  split_and!; [lia|lia|].
  rewrite (grid_sum_insert _ r) by done.
  unfold cell. by rewrite Hr.
Qed.

Lemma available_cells_inserted (b b' : GameBoard) (pos : nat * nat) (value : Z) :
  grid_len b' = grid_len b →
  (∀ i j, cell (grid b') i j
          = if decide ((i, j) = pos) then value else cell (grid b) i j) →
  value ≠ 0 →
  get_available_cells b' = filter (fun p => p ≠ pos) (get_available_cells b).
Proof.
  intros Hlen Hcell Hv. rewrite !get_available_cells_row_major, Hlen.
  rewrite list_filter_filter. apply list_filter_iff. intros [i j].
  rewrite !is_empty_cell_true, Hcell.
  destruct (decide ((i, j) = pos)) as [Heq|Hne]; split.
  - intros H. by destruct Hv.
  - by intros [Hne _].
  - done.
  - by intros [_ H].
Qed.

Lemma length_filter_ne {A} `{EqDecision A} (l : list A) (x : A) :
  NoDup l → x ∈ l → S (length (filter (fun y => y ≠ x) l)) = length l.
Proof.
  induction l as [|y l IH]; intros Hnd Hx; [by apply elem_of_nil in Hx|].
  apply NoDup_cons in Hnd as [Hy Hnd].
  destruct (decide (y = x)) as [->|Hne].
  - rewrite filter_cons_False by (intros H; by apply H).
    rewrite filter_all; [done|]. intros z Hz ->. by apply Hy.
  - rewrite filter_cons_True by done. simpl. f_equal. apply IH; [done|].
    apply elem_of_cons in Hx as [->|Hx]; [by destruct Hne|done].
Qed.

(** X10.  A tile put on an available cell takes that cell off the list of
    available cells and leaves the rest of the list as it was, so that the
    count of empty cells drops by one; the cell then reads the tile, and
    the sum of the board grows by it. *)
Theorem insert_tile_fills_cell (b : GameBoard) (pos : nat * nat) (value : Z) :
  wf_board b → pos ∈ get_available_cells b → value ≠ 0 →
  ∃ b', insert_tile b pos value = Some b'
        ∧ wf_board b'
        ∧ get_cell_value b' pos = Some value
        ∧ get_available_cells b' = filter (fun p => p ≠ pos) (get_available_cells b)
        ∧ S (length (get_available_cells b')) = length (get_available_cells b)
        ∧ grid_sum (grid b') = grid_sum (grid b) + value.
Proof.
  intros Hb Hpos Hv.
  pose proof Hpos as (Hx & Hy & Hz)%elem_of_available_cells.
  destruct (insert_tile_inside b pos value Hb Hx Hy) as (b' & Hins & Hb' & Hlen & Hcell).
  exists b'. split_and!; [done|done| | | |].
  - rewrite get_cell_value_inside by (done || by rewrite Hlen).
    rewrite Hcell. destruct pos. by rewrite decide_True.
  - by apply (available_cells_inserted b b' pos value).
  - rewrite (available_cells_inserted b b' pos value) by done.
    apply length_filter_ne; [apply NoDup_available_cells|done].
  - destruct (insert_tile_Some b pos value b' Hb Hins) as (_ & _ & ->). lia.
Qed.

Lemma insert_tile_fills_cell_witness :
  wf_board (new_board 2) ∧ (0%nat, 1%nat) ∈ get_available_cells (new_board 2)
  ∧ (2 ≠ 0)
  ∧ ∃ b', insert_tile (new_board 2) (0%nat, 1%nat) 2 = Some b'
          ∧ wf_board b'
          ∧ get_cell_value b' (0%nat, 1%nat) = Some 2
          ∧ get_available_cells b'
            = filter (fun p => p ≠ (0%nat, 1%nat)) (get_available_cells (new_board 2))
          ∧ S (length (get_available_cells b')) = length (get_available_cells (new_board 2))
          ∧ grid_sum (grid b') = grid_sum (grid (new_board 2)) + 2.
Proof.
  assert (wf_board (new_board 2)) as Hb by apply has_shape_zeros.
  assert ((0%nat, 1%nat) ∈ get_available_cells (new_board 2)) as Hpos.
  { vm_compute. apply list_elem_of_further, list_elem_of_here. }
  assert (2 ≠ 0) as Hv by lia.
  split; [exact Hb|split; [exact Hpos|split; [exact Hv|]]].
  exact (insert_tile_fills_cell (new_board 2) (0%nat, 1%nat) 2 Hb Hpos Hv).
Defined.

(** X11.  [insert_tile] fails, as the index error of the source, exactly
    for a position with a row or a column index that is not below the
    side of the board. *)
Theorem insert_tile_bounds (b : GameBoard) (pos : nat * nat) (value : Z) :
  wf_board b →
  insert_tile b pos value = None
  ↔ (grid_len b ≤ fst pos ∨ grid_len b ≤ snd pos)%nat.
Proof.
  intros Hb. split.
  - intros Hnone.
    destruct (decide (fst pos < grid_len b)%nat) as [Hx|Hx]; [|lia].
    destruct (decide (snd pos < grid_len b)%nat) as [Hy|Hy]; [|lia].
    destruct (insert_tile_inside b pos value Hb Hx Hy) as (b' & Hins & _).
    congruence.
  - by apply insert_tile_outside.
Qed.

Lemma insert_tile_bounds_witness :
  wf_board tie_board
  ∧ (insert_tile tie_board (4%nat, 0%nat) 2 = None
     ↔ (grid_len tie_board ≤ fst (4%nat, 0%nat)
        ∨ grid_len tie_board ≤ snd (4%nat, 0%nat))%nat).
Proof.
  assert (wf_board tie_board) as Hb by apply wf_tie_board.
  split; [exact Hb|].
  exact (insert_tile_bounds tie_board (4%nat, 0%nat) 2 Hb).
Defined.

(** ** The score of a move that changes nothing *)

Lemma calculate_move_score_same (b : GameBoard) (original_grid : ndarray) :
  grid b = original_grid → calculate_move_score b original_grid = 0.
Proof.
  intros <-. unfold calculate_move_score.
  generalize (seq 0 (grid_len b)) at 2. intros rows.
  induction rows as [|i rows IH] using rev_ind; [done|].
  rewrite foldl_app. cbn [foldl]. rewrite IH.
  generalize (seq 0 (grid_len b)). intros cols.
  induction cols as [|j cols IHc] using rev_ind; [done|].
  rewrite foldl_app. cbn [foldl]. rewrite IHc.
  by rewrite Z.ltb_irrefl.
Qed.

Lemma not_listed_fixed (b : GameBoard) dir :
  wf_board b → dir ∉ get_available_moves b → grid (moved b dir) = grid b.
Proof.
  intros Hb Hd. destruct (decide (dir < 4)%nat) as [Hlt|Hge].
  - destruct (decide (grid (moved b dir) = grid b)) as [|Hne]; [done|].
    destruct Hd. rewrite available_moves_filter by done.
    apply list_elem_of_filter. split; [|apply elem_of_seq; lia].
    unfold legal. by rewrite clone_eq.
  - unfold moved, move. simpl.
    destruct dir as [|[|[|[|dir]]]]; (lia || done).
Qed.

(** X12.  A direction that [get_available_moves()] does not list leaves
    the grid as it is when moved in, and [calculate_move_score] then gives
    0 for the move. *)
Theorem unlisted_move_changes_nothing (b : GameBoard) (dir : nat) :
  wf_board b → dir ∉ get_available_moves b →
  grid (moved b dir) = grid b
  ∧ calculate_move_score (moved b dir) (grid b) = 0.
Proof.
  intros Hb Hd. pose proof (not_listed_fixed b dir Hb Hd) as Hfix.
  split; [done|]. by apply calculate_move_score_same.
Qed.

Lemma unlisted_move_changes_nothing_witness :
  wf_board tie_board ∧ (Up ∉ get_available_moves tie_board)
  ∧ grid (moved tie_board Up) = grid tie_board
  ∧ calculate_move_score (moved tie_board Up) (grid tie_board) = 0.
Proof.
  assert (wf_board tie_board) as Hb by apply wf_tie_board.
  assert (Up ∉ get_available_moves tie_board) as Hd.
  { vm_compute. intros H. repeat (apply elem_of_cons in H as [H|H]; [discriminate H|]).
    by apply elem_of_nil in H. }
  split; [exact Hb|split; [exact Hd|]].
  exact (unlisted_move_changes_nothing tie_board Up Hb Hd).
Defined.

(** ** The move a search returns *)

(** A loop that only ever replaces its state by one named after the
    element at hand ends in its initial state's name or in the name of an
    element. *)
Lemma foldl_names {A S N} (f : S → A → S) (name : S → option N) (g : A → N)
  (l : list A) (st : S) :
  (∀ st x, name (f st x) = name st ∨ name (f st x) = Some (g x)) →
  name (foldl f st l) = name st ∨ ∃ x, x ∈ l ∧ name (foldl f st l) = Some (g x).
Proof.
  intros Hf. revert st. induction l as [|x l IH]; intros st; [by left|]. simpl.
  destruct (IH (f st x)) as [H|(y & Hy & H)].
  - destruct (Hf st x) as [H'|H'].
    + left. by rewrite H.
    + right. exists x. split; [apply list_elem_of_here|]. by rewrite H.
  - right. exists y. split; [by apply list_elem_of_further|done].
Qed.

Section search_moves.
Context {F : Type} (ops : float_ops F).

Lemma maximize_listed (b : GameBoard) depth max_depth m :
  fst (maximize ops b depth max_depth) = Some m → m ∈ get_available_moves b.
Proof.
  rewrite maximize_unfold. case_bool_decide; [done|].
  match goal with
  | |- fst (foldl ?f ?st ?l) = _ → _ =>
      destruct (foldl_names f fst fst l st) as [Hn|((m' & b') & Hin & Hn)]
  end.
  - intros best mb. cbv zeta. destruct (fge _ _ _); [by right|by left].
  - rewrite Hn. done.
  - rewrite Hn. simpl. intros [= <-].
    apply list_elem_of_fmap in Hin as (m'' & [= -> _] & Hm). done.
Qed.

Lemma maximize_stuck (b : GameBoard) depth max_depth :
  get_available_moves b = [] → fst (maximize ops b depth max_depth) = None.
Proof.
  intros H. rewrite maximize_unfold, H. by case_bool_decide.
Qed.

Lemma minimax_move_listed (b : GameBoard) max_depth m :
  minimax_move ops b max_depth = Some m → m ∈ get_available_moves b.
Proof.
  rewrite minimax_move_unfold.
  match goal with
  | |- fst (foldl ?f ?st ?l) = _ → _ =>
      destruct (foldl_names f fst id l st) as [H|(m' & Hin & H)]
  end.
  - intros best mb. destruct (fgt _ _ _); [by right|by left].
  - rewrite H. done.
  - rewrite H. by intros [= <-].
Qed.

Lemma minimax_move_stuck (b : GameBoard) max_depth :
  get_available_moves b = [] → minimax_move ops b max_depth = None.
Proof. intros H. by rewrite minimax_move_unfold, H. Qed.

Context {World : Type} (mcts_move : GameBoard → World → option nat * World).

Lemma get_move_listed (strategy : AIStrategy) (b : GameBoard) (w : World) m :
  strategy ≠ MCTS →
  fst (get_move ops mcts_move strategy b w) = Some m → m ∈ get_available_moves b.
Proof.
  intros Hs. destruct strategy; [| |done]; unfold get_move; cbn [fst].
  - apply maximize_listed.
  - apply minimax_move_listed.
Qed.

Lemma maximize_any_fuel fuel (b : GameBoard) depth max_depth :
  (7 ≤ fuel)%nat →
  maximize_fuel ops fuel b depth max_depth = maximize ops b depth max_depth.
Proof.
  intros Hf. destruct fuel as [|fuel]; [lia|].
  rewrite maximize_fuel_S, maximize_unfold.
  case_bool_decide; [done|].
  apply foldl_ext_in. intros best mb _. cbv zeta.
  by rewrite (chance_enough_fuel ops fuel) by lia.
Qed.
End search_moves.

(** X13.  Expectimax never answers with a direction the board does not
    list: the move [maximize] returns is one of [get_available_moves()],
    and it is None on a board with no move left. *)
Theorem maximize_returns_listed {F} (ops : float_ops F) (b : GameBoard)
  (depth max_depth : nat) :
  (∀ m, fst (maximize ops b depth max_depth) = Some m → m ∈ get_available_moves b)
  ∧ (get_available_moves b = [] → fst (maximize ops b depth max_depth) = None).
Proof.
  split.
  - intros m. apply maximize_listed.
  - apply maximize_stuck.
Qed.

Lemma maximize_returns_listed_witness :
  fst (maximize binary64 tie_board 0 3) = Some Right
  ∧ Right ∈ get_available_moves tie_board.
Proof.
  assert (fst (maximize binary64 tie_board 0 3) = Some Right) as H
    by (vm_compute; reflexivity).
  split; [exact H|].
  exact (proj1 (maximize_returns_listed binary64 tie_board 0 3) Right H).
Defined.

(** X14.  Minimax never answers with a direction the board does not list:
    the move [minimax_move] returns is one of [get_available_moves()], and
    it is None on a board with no move left. *)
Theorem minimax_move_returns_listed {F} (ops : float_ops F) (b : GameBoard)
  (max_depth : nat) :
  (∀ m, minimax_move ops b max_depth = Some m → m ∈ get_available_moves b)
  ∧ (get_available_moves b = [] → minimax_move ops b max_depth = None).
Proof.
  split.
  - intros m. apply minimax_move_listed.
  - apply minimax_move_stuck.
Qed.

Lemma minimax_move_returns_listed_witness :
  minimax_move binary64 tie_board 3 = Some Right
  ∧ Right ∈ get_available_moves tie_board.
Proof.
  assert (minimax_move binary64 tie_board 3 = Some Right) as H
    by (vm_compute; reflexivity).
  split; [exact H|].
  exact (proj1 (minimax_move_returns_listed binary64 tie_board 3) Right H).
Defined.

(** X15.  The recursion of [maximize] and [chance] ends whatever the board
    and the depths they are called with: seven nested calls are never
    exceeded, so that any larger bound on them gives the same result. *)
Theorem expectimax_recursion_bounded {F} (ops : float_ops F) (fuel : nat)
  (b : GameBoard) (depth max_depth : nat) :
  (7 ≤ fuel)%nat →
  maximize_fuel ops fuel b depth max_depth = maximize ops b depth max_depth
  ∧ chance_fuel ops fuel b depth = chance ops b depth.
Proof.
  intros H. split.
  - by apply maximize_any_fuel.
  - apply chance_enough_fuel. lia.
Qed.

Lemma expectimax_recursion_bounded_witness :
  (7 ≤ 9)%nat
  ∧ maximize_fuel binary64 9 tie_board 0 3 = maximize binary64 tie_board 0 3
  ∧ chance_fuel binary64 9 tie_board 0 = chance binary64 tie_board 0.
Proof.
  assert (7 ≤ 9)%nat as H by lia.
  split; [exact H|].
  exact (expectimax_recursion_bounded binary64 9 tie_board 0 3 H).
Defined.

(** ** What the cells of a board hold *)

Section cells.
Variable P : Z → Prop.
Hypothesis P_0 : P 0.

Lemma Forall_tiles (r : list Z) : Forall P r → Forall P (tiles r).
Proof.
  rewrite !Forall_forall. intros H x Hx. apply H.
  unfold tiles in Hx. by apply list_elem_of_filter in Hx as [_ Hx].
Qed.

Lemma Forall_pack m (r : list Z) : Forall P r → Forall P (pack m r).
Proof.
  intros H. unfold pack. apply Forall_app. split.
  - by apply Forall_tiles.
  - by apply Forall_replicate.
Qed.

Lemma P_item (r : list Z) j : Forall P r → P (item r j).
Proof.
  intros H. unfold item. destruct (r !! j) as [x|] eqn:E; [|done].
  simpl. by eapply (proj1 (Forall_lookup _ _) H).
Qed.

Lemma P_cell (a : ndarray) i j : all_cells P a → P (cell a i j).
Proof.
  intros H. unfold cell. apply P_item.
  destruct (a !! i) as [r|] eqn:E; [|by constructor].
  simpl. by eapply (proj1 (Forall_lookup _ _) H).
Qed.

Lemma all_cells_flip_cols (a : ndarray) : all_cells P a → all_cells P (flip_cols a).
Proof.
  intros H. unfold flip_cols. apply Forall_fmap.
  eapply Forall_impl; [exact H|]. intros r Hr. simpl. by apply Forall_reverse.
Qed.

Lemma all_cells_flip_rows (a : ndarray) : all_cells P a → all_cells P (flip_rows a).
Proof. intros H. by apply Forall_reverse. Qed.

Lemma all_cells_transpose (a : ndarray) : all_cells P a → all_cells P (transpose a).
Proof.
  intros H. unfold transpose. apply Forall_fmap, Forall_forall. intros j _. simpl.
  apply Forall_fmap. eapply Forall_impl; [exact H|]. intros r Hr. simpl.
  by apply P_item.
Qed.

Lemma all_cells_orient dir (a : ndarray) : all_cells P a → all_cells P (orient dir a).
Proof.
  intros H. destruct dir as [|[|[|dir]]]; simpl; [| |done|].
  - by apply all_cells_transpose, all_cells_flip_cols.
  - by apply all_cells_flip_cols, all_cells_transpose.
  - by apply all_cells_flip_rows, all_cells_flip_cols.
Qed.

Lemma all_cells_restore dir (a : ndarray) : all_cells P a → all_cells P (restore dir a).
Proof.
  intros H. destruct dir as [|[|[|dir]]]; simpl; [| |done|].
  - by apply all_cells_flip_cols, all_cells_transpose.
  - by apply all_cells_transpose, all_cells_flip_cols.
  - by apply all_cells_flip_rows, all_cells_flip_cols.
Qed.

Lemma all_cells_inserted (b b' : GameBoard) pos v :
  P v → all_cells P (grid b) → insert_tile b pos v = Some b' →
  all_cells P (grid b').
Proof.
  intros Hv H. unfold insert_tile.
  destruct (grid b !! fst pos) as [r|] eqn:Hr; [|done].
  case_bool_decide; [|done]. intros [= <-]. simpl.
  apply Forall_insert; [done|]. apply Forall_insert; [|done].
  by eapply (proj1 (Forall_lookup _ _) H).
Qed.

Hypothesis P_double : ∀ x, P x → P (x * 2).

Lemma Forall_merge_once (r : list Z) : Forall P r → Forall P (merge_once r).
Proof.
  induction r as [| |x t Hx IH|x y t Hc IH] using merge_once_ind; intros H.
  - done.
  - done.
  - rewrite merge_once_pair by done.
    apply Forall_cons in H as [Hx1 H]. apply Forall_cons in H as [_ H].
    repeat apply Forall_cons_2; auto.
  - rewrite merge_once_skip by done.
    apply Forall_cons in H as [Hx1 H]. apply Forall_cons_2; auto.
Qed.

Lemma Forall_left_row n (r : list Z) :
  length r = n → Forall P r → Forall P (left_row n r).
Proof.
  intros Hr H. rewrite left_row_spec by done.
  by apply Forall_pack, Forall_merge_once, Forall_pack.
Qed.

Lemma all_cells_moved (b : GameBoard) dir :
  wf_board b → all_cells P (grid b) → all_cells P (grid (moved b dir)).
Proof.
  intros Hb H. destruct (decide (dir < 4)%nat) as [Hd|Hd].
  - rewrite grid_moved by done. apply all_cells_restore.
    pose proof (has_shape_orient (grid_len b) dir (grid b) Hb) as [_ Hs].
    pose proof (all_cells_orient dir (grid b) H) as Ho.
    apply Forall_fmap, Forall_forall. intros r Hr. simpl.
    unfold all_cells in Ho. rewrite Forall_forall in Hs, Ho.
    apply Forall_left_row; [by apply Hs|by apply Ho].
  - unfold moved, move. simpl.
    destruct dir as [|[|[|[|dir]]]]; (lia || done).
Qed.
End cells.

Lemma tile_value_double x : tile_value x → tile_value (x * 2).
Proof.
  intros [->|[k ->]]; [by left|]. right. exists (S k).
  rewrite (Nat2Z.inj_succ (S k)), Z.pow_succ_r by lia. lia.
Qed.

Lemma tile_value_nonneg x : tile_value x → 0 ≤ x.
Proof. intros [->|[k ->]]; [done|]. apply Z.pow_nonneg. lia. Qed.

Lemma tile_value_2 : tile_value 2.
Proof. right. by exists 0%nat. Qed.

Lemma tile_value_4 : tile_value 4.
Proof. right. by exists 1%nat. Qed.

Lemma valid_moved (b : GameBoard) dir : valid_board b → valid_board (moved b dir).
Proof.
  intros [Hb H]. split; [by apply wf_moved|].
  apply all_cells_moved; [by left|apply tile_value_double|done|done].
Qed.

Lemma valid_insert_tile (b b' : GameBoard) pos v :
  valid_board b → tile_value v → insert_tile b pos v = Some b' → valid_board b'.
Proof.
  intros [Hb H] Hv Hins. split.
  - destruct (insert_tile_Some b pos v b' Hb Hins) as (Hx & Hy & _).
    destruct (insert_tile_inside b pos v Hb Hx Hy) as (b'' & Hins' & Hb' & _).
    congruence.
  - by apply (all_cells_inserted tile_value b b' pos v).
Qed.

Lemma valid_new_board n : valid_board (new_board n).
Proof.
  split; [apply has_shape_zeros|].
  apply Forall_replicate, Forall_replicate. by left.
Qed.

Lemma calculate_move_score_nonneg (b : GameBoard) (original_grid : ndarray) :
  all_cells (fun v => 0 ≤ v) (grid b) → 0 ≤ calculate_move_score b original_grid.
Proof.
  intros H. unfold calculate_move_score.
  generalize (seq 0 (grid_len b)) at 2. intros rows.
  induction rows as [|i rows IH] using rev_ind; [done|].
  rewrite foldl_app. cbn [foldl].
  revert IH. generalize (foldl
    (fun score i => foldl (fun score j =>
       if (cell original_grid i j <? cell (grid b) i j) && negb (cell (grid b) i j =? 0)
       then score + cell (grid b) i j else score) score (seq 0 (grid_len b))) 0 rows).
  intros s Hs. generalize (seq 0 (grid_len b)). intros cols.
  induction cols as [|j cols IHc] using rev_ind; [done|].
  rewrite foldl_app. cbn [foldl].
  pose proof (P_cell (fun v => 0 ≤ v) ltac:(done) (grid b) i j H) as Hc.
  cbv beta zeta in *. destruct (_ && _); lia.
Qed.

(** X16.  The cells of a board stay what the game puts there, 0 or a power
    of two from 2 on: a board of the constructor has them, and [move] in
    any direction and [insert_tile] with a 2 or a 4 keep them and the
    square shape of the grid; on such a board no move scores below 0. *)
Theorem tiles_stay_powers_of_two (b : GameBoard) :
  valid_board b →
  (∀ dir, valid_board (moved b dir)
          ∧ grid_len (moved b dir) = grid_len b
          ∧ 0 ≤ calculate_move_score (moved b dir) (grid b))
  ∧ (∀ pos v b', v = 2 ∨ v = 4 → insert_tile b pos v = Some b' →
                 valid_board b' ∧ grid_len b' = grid_len b).
Proof.
  intros Hv. split.
  - intros dir. pose proof (valid_moved b dir Hv) as [Hb' Hc]. split_and!.
    + by split.
    + done.
    + apply calculate_move_score_nonneg.
      eapply Forall_impl; [exact Hc|]. intros r Hr. simpl.
      eapply Forall_impl; [exact Hr|]. apply tile_value_nonneg.
  - intros pos v b' Hv2 Hins. split.
    + apply (valid_insert_tile b b' pos v); [done| |done].
      destruct Hv2 as [->| ->]; [apply tile_value_2|apply tile_value_4].
    + destruct Hv as [Hb _].
      destruct (insert_tile_Some b pos v b' Hb Hins) as (Hx & Hy & _).
      destruct (insert_tile_inside b pos v Hb Hx Hy) as (b'' & Hins' & _ & Hlen & _).
      congruence.
Qed.

Lemma valid_tie_board : valid_board tie_board.
Proof.
  split; [apply wf_tie_board|].
  repeat (apply Forall_cons_2 || apply Forall_nil_2);
    right; first [by exists 2%nat|by exists 4%nat|by exists 5%nat
                 |by exists 6%nat|by exists 7%nat].
Qed.

Lemma tiles_stay_powers_of_two_witness :
  valid_board tie_board
  ∧ (∀ dir, valid_board (moved tie_board dir)
            ∧ grid_len (moved tie_board dir) = grid_len tie_board
            ∧ 0 ≤ calculate_move_score (moved tie_board dir) (grid tie_board))
  ∧ (∀ pos v b', v = 2 ∨ v = 4 → insert_tile tie_board pos v = Some b' →
                 valid_board b' ∧ grid_len b' = grid_len tie_board).
Proof.
  assert (valid_board tie_board) as Hv by apply valid_tie_board.
  split; [exact Hv|].
  exact (tiles_stay_powers_of_two tie_board Hv).
Defined.

(** ** The highest tile *)

Lemma foldl_max_spec (l : list Z) (x : Z) :
  foldl Z.max x l ∈ x :: l ∧ ∀ y, y ∈ x :: l → y ≤ foldl Z.max x l.
Proof.
  revert x. induction l as [|z l IH]; intros x.
  - simpl. split; [apply list_elem_of_here|].
    intros y Hy. apply list_elem_of_singleton in Hy as ->. lia.
  - simpl. destruct (IH (Z.max x z)) as [Hin Hle]. split.
    + apply elem_of_cons in Hin as [Hin|Hin].
      * rewrite Hin. destruct (Z.max_spec x z) as [[_ ->]|[_ ->]].
        -- apply list_elem_of_further, list_elem_of_here.
        -- apply list_elem_of_here.
      * by do 2 apply list_elem_of_further.
    + intros y Hy.
      assert (Z.max x z ≤ foldl Z.max (Z.max x z) l) as Hm
        by apply Hle, list_elem_of_here.
      apply elem_of_cons in Hy as [->|Hy]; [lia|].
      apply elem_of_cons in Hy as [->|Hy]; [lia|].
      by apply Hle, list_elem_of_further.
Qed.

Lemma elem_of_concat (x : Z) (a : ndarray) :
  x ∈ concat a ↔ ∃ r, x ∈ r ∧ r ∈ a.
Proof.
  induction a as [|r a IH]; simpl.
  - split; [by intros H%elem_of_nil|]. by intros (r & _ & H%elem_of_nil).
  - rewrite elem_of_app, IH. split.
    + intros [H|(r' & Hx & Hr')].
      * exists r. split; [done|apply list_elem_of_here].
      * exists r'. split; [done|by apply list_elem_of_further].
    + intros (r' & Hx & Hr'). apply elem_of_cons in Hr' as [->|Hr'].
      * by left.
      * right. by exists r'.
Qed.

Lemma elem_of_cells n m (a : ndarray) x :
  has_shape n m a →
  x ∈ concat a ↔ ∃ i j, (i < n)%nat ∧ (j < m)%nat ∧ cell a i j = x.
Proof.
  intros Ha. rewrite elem_of_concat. split.
  - intros (r & Hx & Hr).
    apply list_elem_of_lookup in Hr as [i Hi].
    apply list_elem_of_lookup in Hx as [j Hj].
    pose proof (has_shape_lookup _ _ _ _ _ Ha Hi) as Hlen.
    pose proof (lookup_lt_Some _ _ _ Hi). pose proof (lookup_lt_Some _ _ _ Hj).
    destruct Ha as [Hn _].
    exists i, j. split_and!; [lia|lia|]. by apply (cell_lookup a i j r).
  - intros (i & j & Hi & Hj & <-).
    destruct (has_shape_cell_lookup n m a i j Ha Hi Hj) as (r & Hr & Hc).
    exists r. split; [by eapply list_elem_of_lookup_2|by eapply list_elem_of_lookup_2].
Qed.

Lemma np_amax_spec (a : ndarray) :
  match np_amax a with
  | None => concat a = []
  | Some m => m ∈ concat a ∧ ∀ y, y ∈ concat a → y ≤ m
  end.
Proof.
  unfold np_amax. destruct (concat a) as [|x l]; [done|].
  apply foldl_max_spec.
Qed.

Lemma concat_square_nil n (a : ndarray) :
  has_shape n n a → concat a = [] ↔ n = 0%nat.
Proof.
  intros Ha. split.
  - intros Hnil. destruct n as [|n]; [done|]. exfalso.
    assert (cell a 0 0 ∈ concat a) as Hin.
    { apply (elem_of_cells (S n) (S n)); [done|]. exists 0%nat, 0%nat. split_and!; (lia || done). }
    rewrite Hnil in Hin. by apply elem_of_nil in Hin.
  - intros ->. destruct Ha as [Ha _]. by destruct a.
Qed.

(** X17.  [get_max_tile()] returns a value that some cell of the board holds
    and that no cell exceeds; it fails, as [np.amax] does on an array with
    no element, only for a board of side 0. *)
Theorem get_max_tile_is_highest (b : GameBoard) :
  wf_board b →
  (get_max_tile b = None ↔ grid_len b = 0%nat)
  ∧ ∀ m, get_max_tile b = Some m →
         (∃ i j, (i < grid_len b)%nat ∧ (j < grid_len b)%nat ∧ cell (grid b) i j = m)
         ∧ ∀ i j, (i < grid_len b)%nat → (j < grid_len b)%nat → cell (grid b) i j ≤ m.
Proof.
  intros Hb. unfold get_max_tile. pose proof (np_amax_spec (grid b)) as Hs.
  destruct (np_amax (grid b)) as [m|]; split.
  - split; [done|]. intros Hn. destruct Hs as [Hin _].
    apply (concat_square_nil _ _ Hb) in Hn. rewrite Hn in Hin.
    by apply elem_of_nil in Hin.
  - intros m' [= <-]. destruct Hs as [Hin Hle]. split.
    + by apply (elem_of_cells (grid_len b) (grid_len b)).
    + intros i j Hi Hj. apply Hle.
      apply (elem_of_cells (grid_len b) (grid_len b)); [done|]. by exists i, j.
  - split; [|done]. intros _. by apply (concat_square_nil _ _ Hb).
  - done.
Qed.

Lemma get_max_tile_is_highest_witness :
  wf_board tie_board
  ∧ (get_max_tile tie_board = None ↔ grid_len tie_board = 0%nat)
  ∧ ∀ m, get_max_tile tie_board = Some m →
         (∃ i j, (i < grid_len tie_board)%nat ∧ (j < grid_len tie_board)%nat
                 ∧ cell (grid tie_board) i j = m)
         ∧ ∀ i j, (i < grid_len tie_board)%nat → (j < grid_len tie_board)%nat →
                  cell (grid tie_board) i j ≤ m.
Proof.
  assert (wf_board tie_board) as Hb by apply wf_tie_board.
  split; [exact Hb|].
  exact (get_max_tile_is_highest tie_board Hb).
Defined.

Lemma pack_keeps m (r : list Z) x :
  (length r ≤ m)%nat → x ∈ r → x ∈ pack m r.
Proof.
  intros Hlen Hx. unfold pack. apply elem_of_app.
  destruct (decide (x = 0)) as [->|Hne].
  - right. apply list_elem_of_lookup in Hx as [j Hj].
    apply tiles_lt in Hj.
    apply list_elem_of_lookup. exists 0%nat. apply lookup_replicate_2. lia.
  - left. unfold tiles. by apply list_elem_of_filter.
Qed.

Lemma merge_once_covers (r : list Z) x :
  x ∈ r → ∃ y, y ∈ merge_once r ∧ x ≤ y.
Proof.
  induction r as [| |x0 t Hx0 IH|x0 y0 t Hc IH] using merge_once_ind; intros Hx.
  - by apply elem_of_nil in Hx.
  - exists x. split; [done|lia].
  - rewrite merge_once_pair by done.
    assert (x = x0 ∨ x ∈ t) as [->|Ht].
    { apply elem_of_cons in Hx as [->|Hx]; [by left|].
      apply elem_of_cons in Hx as [->|Hx]; [by left|by right]. }
    + destruct (decide (0 ≤ x0)).
      * exists (x0 * 2). split; [apply list_elem_of_here|lia].
      * exists 0. split; [apply list_elem_of_further, list_elem_of_here|lia].
    + destruct (IH Ht) as (y & Hy & Hle). exists y.
      split; [by do 2 apply list_elem_of_further|done].
  - rewrite merge_once_skip by done.
    apply elem_of_cons in Hx as [->|Hx].
    + exists x0. split; [apply list_elem_of_here|lia].
    + destruct (IH Hx) as (y & Hy & Hle). exists y.
      split; [by apply list_elem_of_further|done].
Qed.

Lemma left_row_covers n (r : list Z) x :
  length r = n → x ∈ r → ∃ y, y ∈ left_row n r ∧ x ≤ y.
Proof.
  intros Hr Hx. rewrite left_row_spec by done.
  apply (pack_keeps n) in Hx; [|lia].
  apply merge_once_covers in Hx as (y & Hy & Hle).
  exists y. split; [|done]. apply pack_keeps; [|done].
  rewrite length_merge_once, length_pack; lia.
Qed.

Lemma cell_orient_onto n dir (a : ndarray) i j :
  has_shape n n a → (i < n)%nat → (j < n)%nat →
  ∃ x y, (x < n)%nat ∧ (y < n)%nat ∧ cell (orient dir a) x y = cell a i j.
Proof.
  intros Ha Hi Hj. destruct dir as [|[|[|dir]]].
  - exists (n - S j)%nat, i. rewrite (cell_orient n) by (done || lia).
    replace (n - S (n - S j))%nat with j by lia. split_and!; (lia || done).
  - exists j, (n - S i)%nat. rewrite (cell_orient n) by (done || lia).
    replace (n - S (n - S i))%nat with i by lia. split_and!; (lia || done).
  - by exists i, j.
  - exists (n - S i)%nat, (n - S j)%nat. rewrite (cell_orient n) by (done || lia).
    replace (n - S (n - S i))%nat with i by lia.
    replace (n - S (n - S j))%nat with j by lia. split_and!; (lia || done).
Qed.

Lemma moved_covers (b : GameBoard) dir x :
  wf_board b → x ∈ concat (grid b) →
  ∃ y, y ∈ concat (grid (moved b dir)) ∧ x ≤ y.
Proof.
  intros Hb Hx. destruct (decide (dir < 4)%nat) as [Hd|Hd].
  - set (n := grid_len b). set (V := orient dir (grid b)).
    assert (has_shape n n V) as HV by (by apply has_shape_orient).
    apply (elem_of_cells n n _ _ Hb) in Hx as (i & j & Hi & Hj & <-).
    destruct (cell_orient_onto n dir (grid b) i j Hb Hi Hj) as (i' & j' & Hi' & Hj' & <-).
    fold V.
    destruct (has_shape_cell_lookup n n V i' j' HV Hi' Hj') as (r & Hr & Hc).
    pose proof (has_shape_lookup _ _ _ _ _ HV Hr) as Hlen.
    destruct (left_row_covers n r (cell V i' j') Hlen) as (y & Hy & Hle);
      [by eapply list_elem_of_lookup_2|].
    exists y. split; [|done].
    assert (y ∈ concat (left_row n <$> V)) as Hin.
    { apply elem_of_concat. exists (left_row n r). split; [done|].
      apply list_elem_of_fmap. exists r. split; [done|].
      by eapply list_elem_of_lookup_2. }
    apply (elem_of_cells n n) in Hin as (k & l & Hk & Hl & <-);
      [|by apply has_shape_left_rows].
    destruct (cell_restore_onto n dir (left_row n <$> V) k l) as (p & q & Hp & Hq & <-);
      [by apply has_shape_left_rows|done|done|].
    rewrite grid_moved by done. fold n V.
    apply (elem_of_cells n n);
      [by apply has_shape_restore, has_shape_left_rows|].
    by exists p, q.
  - exists x. split; [|lia]. unfold moved, move. simpl.
    destruct dir as [|[|[|[|dir]]]]; (lia || done).
Qed.

(** X18.  A move never lowers the highest tile: [get_max_tile()] after
    [move] in any direction is at least what it was before. *)
Theorem move_keeps_max_tile (b : GameBoard) (dir : nat) (m : Z) :
  wf_board b → get_max_tile b = Some m →
  ∃ m', get_max_tile (moved b dir) = Some m' ∧ m ≤ m'.
Proof.
  intros Hb Hm. unfold get_max_tile in *.
  pose proof (np_amax_spec (grid b)) as Hs. rewrite Hm in Hs.
  destruct Hs as [Hin _].
  destruct (moved_covers b dir m Hb Hin) as (y & Hy & Hle).
  pose proof (np_amax_spec (grid (moved b dir))) as Hs'.
  destruct (np_amax (grid (moved b dir))) as [m'|].
  - exists m'. split; [done|]. destruct Hs' as [_ Hmax].
    specialize (Hmax y Hy). lia.
  - rewrite Hs' in Hy. by apply elem_of_nil in Hy.
Qed.

Lemma move_keeps_max_tile_witness :
  wf_board tie_board ∧ get_max_tile tie_board = Some 256
  ∧ ∃ m', get_max_tile (moved tie_board Left) = Some m' ∧ 256 ≤ m'.
Proof.
  assert (wf_board tie_board) as Hb by apply wf_tie_board.
  assert (get_max_tile tie_board = Some 256) as Hm by reflexivity.
  split; [exact Hb|split; [exact Hm|]].
  exact (move_keeps_max_tile tie_board Left 256 Hb Hm).
Defined.

(** ** The game loop *)

Lemma grid_sum_moved (b : GameBoard) dir :
  wf_board b → grid_sum (grid (moved b dir)) = grid_sum (grid b).
Proof.
  intros Hb. destruct (decide (dir < 4)%nat) as [Hd|Hd].
  - rewrite grid_moved by done.
    rewrite (grid_sum_restore (grid_len b))
      by (by apply has_shape_left_rows, has_shape_orient).
    rewrite grid_sum_fmap by apply sumZ_left_row.
    by apply (grid_sum_orient (grid_len b)).
  - unfold moved, move. simpl.
    destruct dir as [|[|[|[|dir]]]]; (lia || done).
Qed.

Lemma grid_sum_zeros n m : grid_sum (np_zeros n m) = 0.
Proof.
  unfold grid_sum, np_zeros. rewrite fmap_replicate, sumZ_replicate_0.
  apply sumZ_replicate_0.
Qed.

Lemma all_empty_cells (b : GameBoard) :
  all_empty b → get_available_cells b = row_major (grid_len b).
Proof.
  intros H. rewrite get_available_cells_row_major. apply filter_all.
  intros [i j] Hin. apply is_empty_cell_true.
  apply list_elem_of_lookup in Hin as [k Hk].
  apply row_major_lookup in Hk as (Hi & Hj & _). by apply H.
Qed.

Lemma full_cells (b : GameBoard) : full b → get_available_cells b = [].
Proof.
  intros H. destruct (get_available_cells b) as [|pos l] eqn:E; [done|].
  assert (pos ∈ get_available_cells b) as Hin by (rewrite E; apply list_elem_of_here).
  apply elem_of_available_cells in Hin as (Hi & Hj & Hz).
  by destruct (H _ _ Hi Hj).
Qed.

Lemma lowest_draw_in_range : randint_in_range lowest_draw.
Proof. intros a b w H. simpl. lia. Qed.

Section game_facts.
Context {World : Type} (randint : nat → nat → World → nat * World).
Hypothesis randint_ok : randint_in_range randint.

Lemma add_random_tile_full (b : GameBoard) (w : World) :
  get_available_cells b = [] → add_random_tile randint b w = Some (b, false, w).
Proof. intros H. unfold add_random_tile. by rewrite H. Qed.

Lemma add_random_tile_some (b : GameBoard) (w : World) :
  wf_board b → get_available_cells b ≠ [] →
  ∃ b' w' pos v,
    add_random_tile randint b w = Some (b', true, w')
    ∧ pos ∈ get_available_cells b
    ∧ (v = 2 ∨ v = 4)
    ∧ insert_tile b pos v = Some b'.
Proof.
  intros Hb Hne. unfold add_random_tile.
  destruct (get_available_cells b) as [|c cells] eqn:E; [done|].
  destruct (randint 0 10 w) as [r w1] eqn:E1.
  destruct (randint 0 (length (c :: cells) - 1) w1) as [k w2] eqn:E2.
  pose proof (randint_ok 0%nat (length (c :: cells) - 1)%nat w1 ltac:(lia)) as Hk.
  rewrite E2 in Hk. simpl in Hk.
  destruct (lookup_lt_is_Some_2 (c :: cells) k) as [pos Hpos]; [simpl; lia|].
  rewrite Hpos.
  assert (pos ∈ get_available_cells b) as Hin
    by (rewrite E; by eapply list_elem_of_lookup_2).
  set (v := if (r <? 9)%nat then 2 else 4).
  rewrite (insert_available_cell b pos v Hb Hin).
  exists (inserted b pos v), w2, pos, v. split_and!; [done|by rewrite <- E| |].
  - unfold v. destruct (r <? 9)%nat; [by left|by right].
  - by apply insert_available_cell.
Qed.

Lemma add_random_tile_spec (b : GameBoard) (w : World) :
  valid_board b → get_available_cells b ≠ [] →
  ∃ b' w' pos v,
    add_random_tile randint b w = Some (b', true, w')
    ∧ pos ∈ get_available_cells b
    ∧ (v = 2 ∨ v = 4)
    ∧ valid_board b'
    ∧ grid_len b' = grid_len b
    ∧ get_cell_value b' pos = Some v
    ∧ get_available_cells b' = filter (fun p => p ≠ pos) (get_available_cells b)
    ∧ S (length (get_available_cells b')) = length (get_available_cells b)
    ∧ grid_sum (grid b') = grid_sum (grid b) + v
    ∧ ∀ i j, (i, j) ≠ pos → cell (grid b') i j = cell (grid b) i j.
Proof.
  intros Hv Hne. pose proof Hv as [Hb _].
  destruct (add_random_tile_some b w Hb Hne)
    as (b' & w' & pos & v & Hadd & Hpos & Hv2 & Hins).
  assert (tile_value v) as Htv
    by (destruct Hv2 as [->| ->]; [apply tile_value_2|apply tile_value_4]).
  assert (v ≠ 0) as Hv0 by (destruct Hv2; lia).
  pose proof Hpos as (Hx & Hy & Hz)%elem_of_available_cells.
  destruct (insert_tile_inside b pos v Hb Hx Hy) as (b'' & Hins' & Hb' & Hlen & Hcell).
  assert (b'' = b') as -> by congruence.
  exists b', w', pos, v. split_and!; [done|done|done| |done| | | | |].
  - by apply (valid_insert_tile b b' pos v).
  - rewrite get_cell_value_inside by (done || by rewrite Hlen).
    rewrite Hcell. destruct pos. by rewrite decide_True.
  - by apply (available_cells_inserted b b' pos v).
  - rewrite (available_cells_inserted b b' pos v) by done.
    apply length_filter_ne; [apply NoDup_available_cells|done].
  - destruct (insert_tile_Some b pos v b' Hb Hins) as (_ & _ & ->). lia.
  - intros i j Hij. rewrite Hcell. by rewrite decide_False.
Qed.

Lemma init_matrix_spec (n : nat) (w : World) :
  (2 ≤ n)%nat →
  ∃ b w',
    init_matrix randint n w = Some (b, w')
    ∧ valid_board b
    ∧ grid_len b = n
    ∧ length (get_available_cells b) = (n * n - 2)%nat
    ∧ (grid_sum (grid b) = 4 ∨ grid_sum (grid b) = 6 ∨ grid_sum (grid b) = 8)
    ∧ get_available_moves b ≠ [].
Proof.
  intros Hn. unfold init_matrix.
  assert (4 ≤ n * n)%nat as Hnn by nia.
  pose proof (valid_new_board n) as Hv0.
  pose proof (available_cells_new_board n) as Hc0.
  destruct (add_random_tile_spec (new_board n) w Hv0)
    as (b1 & w1 & pos1 & v1 & -> & _ & Hv1 & Hb1 & Hl1 & _ & _ & Hlen1 & Hsum1 & _).
  { rewrite Hc0. intros H. apply (f_equal length) in H.
    rewrite length_row_major in H. simpl in H. lia. }
  rewrite Hc0, length_row_major in Hlen1.
  destruct (add_random_tile_spec b1 w1 Hb1)
    as (b2 & w2 & pos2 & v2 & -> & _ & Hv2 & Hb2 & Hl2 & _ & _ & Hlen2 & Hsum2 & _).
  { intros H. rewrite H in Hlen1. simpl in Hlen1. lia. }
  exists b2, w2. simpl in Hsum1. rewrite grid_sum_zeros in Hsum1.
  assert (grid_len b2 = n) as Hl by (by rewrite Hl2, Hl1).
  split_and!; [done|done|done|lia|destruct Hv1, Hv2; lia|].
  intros Hnil. destruct Hb2 as [Hwf _].
  pose proof (proj1 (no_moves_iff b2 Hwf) Hnil) as Hblocked.
  apply blocked_board in Hblocked as [He|[Hf _]].
  - apply all_empty_cells in He. rewrite He, length_row_major, Hl in Hlen2. lia.
  - apply full_cells in Hf. rewrite Hf in Hlen2. simpl in Hlen2. lia.
Qed.

Context {F : Type} (ops : float_ops F).
Context (mcts_move : GameBoard → World → option nat * World).

Lemma run_game_spec (strategy : AIStrategy) (g : GameGrid) (w : World) (dir : nat) :
  valid_board (board g) → game_over g = false → strategy ≠ MCTS →
  fst (get_move ops mcts_move strategy (board g) w) = Some dir →
  ∃ g' w' v pos,
    run_game ops mcts_move randint strategy g w = Some (g', w')
    ∧ (v = 2 ∨ v = 4)
    ∧ pos ∈ get_available_cells (moved (board g) dir)
    ∧ get_cell_value (board g') pos = Some v
    ∧ (∀ i j, (i, j) ≠ pos →
              cell (grid (board g')) i j = cell (grid (moved (board g) dir)) i j)
    ∧ valid_board (board g')
    ∧ grid_len (board g') = grid_len (board g)
    ∧ grid_sum (grid (board g')) = grid_sum (grid (board g)) + v
    ∧ S (length (get_available_cells (board g')))
      = length (get_available_cells (moved (board g) dir))
    ∧ score g' = score g + calculate_move_score (moved (board g) dir) (grid (board g))
    ∧ score g ≤ score g'
    ∧ move_count g' = move_count g + 1
    ∧ max_tile g ≤ max_tile g'
    ∧ (∀ i j, (i < grid_len (board g'))%nat → (j < grid_len (board g'))%nat →
              cell (grid (board g')) i j ≤ max_tile g')
    ∧ (game_over g' = true ↔ get_available_moves (board g') = []).
Proof.
  intros Hv Hgo Hs Hmove. pose proof Hv as [Hb Hcells].
  pose proof (get_move_listed ops mcts_move strategy (board g) w dir Hs Hmove) as Hdir.
  unfold run_game. rewrite Hgo.
  destruct (get_move ops mcts_move strategy (board g) w) as [mv w0] eqn:Em.
  simpl in Hmove. subst mv.
  pose proof (valid_moved (board g) dir Hv) as Hvm.
  pose proof (legal_frees_cell (board g) dir Hb) as Hfree.
  assert (get_available_cells (moved (board g) dir) ≠ []) as Hne.
  { rewrite available_moves_filter in Hdir by done.
    apply list_elem_of_filter in Hdir as [Hl Hd]. apply elem_of_seq in Hd.
    destruct (Hfree ltac:(lia) Hl) as (pos & Hpos).
    intros Hnil. rewrite Hnil in Hpos. by apply elem_of_nil in Hpos. }
  destruct (add_random_tile_spec (moved (board g) dir) w0 Hvm Hne)
    as (b' & w' & pos & v & -> & Hpos & Hv2 & Hvb' & Hlen & Hget & _ & Hcount & Hsum & Hrest).
  pose proof Hvb' as [Hb' Hcells'].
  pose proof (np_amax_spec (grid b')) as Hmax. unfold get_max_tile.
  destruct (np_amax (grid b')) as [m|].
  - destruct Hmax as [_ Hmax].
    eexists _, w', v, pos. split; [reflexivity|]. simpl.
    split_and!; try done.
    + rewrite Hsum. by rewrite grid_sum_moved.
    + assert (0 ≤ calculate_move_score (moved (board g) dir) (grid (board g))); [|lia].
      apply calculate_move_score_nonneg. destruct Hvm as [_ Hc].
      eapply Forall_impl; [exact Hc|]. intros r Hr. simpl.
      eapply Forall_impl; [exact Hr|]. apply tile_value_nonneg.
    + lia.
    + intros i j Hi Hj.
      assert (cell (grid b') i j ≤ m); [|lia]. apply Hmax.
      apply (elem_of_cells (grid_len b') (grid_len b')); [done|]. by exists i, j.
    + rewrite bool_decide_eq_true. apply length_zero_iff_nil.
  - exfalso. apply elem_of_available_cells in Hpos as (Hx & _).
    apply (concat_square_nil _ _ Hb') in Hmax.
    rewrite Hlen in Hmax. simpl in Hmax, Hx. lia.
Qed.
End game_facts.

(** X19.  [add_random_tile] returns False and leaves a board with no empty
    cell as it is; on any other board, with draws inside the bounds of
    [randint], it returns True after putting a 2 or a 4 on one cell that
    was empty: the count of empty cells drops by one and the sum of the
    board grows by the tile. *)
Theorem add_random_tile_adds_one {World}
  (randint : nat → nat → World → nat * World) (b : GameBoard) (w : World) :
  randint_in_range randint → valid_board b →
  (get_available_cells b = [] → add_random_tile randint b w = Some (b, false, w))
  ∧ (get_available_cells b ≠ [] →
     ∃ b' w' pos v,
       add_random_tile randint b w = Some (b', true, w')
       ∧ pos ∈ get_available_cells b
       ∧ (v = 2 ∨ v = 4)
       ∧ valid_board b'
       ∧ grid_len b' = grid_len b
       ∧ get_cell_value b' pos = Some v
       ∧ get_available_cells b' = filter (fun p => p ≠ pos) (get_available_cells b)
       ∧ S (length (get_available_cells b')) = length (get_available_cells b)
       ∧ grid_sum (grid b') = grid_sum (grid b) + v
       ∧ ∀ i j, (i, j) ≠ pos → cell (grid b') i j = cell (grid b) i j).
Proof.
  intros Hr Hv. split.
  - apply add_random_tile_full.
  - by apply add_random_tile_spec.
Qed.

Lemma add_random_tile_adds_one_witness :
  randint_in_range lowest_draw ∧ valid_board (new_board 2)
  ∧ (get_available_cells (new_board 2) = [] →
     add_random_tile lowest_draw (new_board 2) tt = Some (new_board 2, false, tt))
  ∧ (get_available_cells (new_board 2) ≠ [] →
     ∃ b' w' pos v,
       add_random_tile lowest_draw (new_board 2) tt = Some (b', true, w')
       ∧ pos ∈ get_available_cells (new_board 2)
       ∧ (v = 2 ∨ v = 4)
       ∧ valid_board b'
       ∧ grid_len b' = grid_len (new_board 2)
       ∧ get_cell_value b' pos = Some v
       ∧ get_available_cells b'
         = filter (fun p => p ≠ pos) (get_available_cells (new_board 2))
       ∧ S (length (get_available_cells b')) = length (get_available_cells (new_board 2))
       ∧ grid_sum (grid b') = grid_sum (grid (new_board 2)) + v
       ∧ ∀ i j, (i, j) ≠ pos → cell (grid b') i j = cell (grid (new_board 2)) i j).
Proof.
  assert (randint_in_range lowest_draw) as Hr by apply lowest_draw_in_range.
  assert (valid_board (new_board 2)) as Hv by apply valid_new_board.
  split; [exact Hr|split; [exact Hv|]].
  exact (add_random_tile_adds_one lowest_draw (new_board 2) tt Hr Hv).
Defined.

(** X20.  A game on a board of side 2 or more starts, with draws inside the
    bounds of [randint], from a board with exactly two tiles, each a 2 or a
    4, and at least one move is available on it. *)
Theorem init_matrix_two_tiles {World}
  (randint : nat → nat → World → nat * World) (n : nat) (w : World) :
  randint_in_range randint → (2 ≤ n)%nat →
  ∃ b w',
    init_matrix randint n w = Some (b, w')
    ∧ valid_board b
    ∧ grid_len b = n
    ∧ length (get_available_cells b) = (n * n - 2)%nat
    ∧ (grid_sum (grid b) = 4 ∨ grid_sum (grid b) = 6 ∨ grid_sum (grid b) = 8)
    ∧ get_available_moves b ≠ [].
Proof. intros Hr Hn. by apply init_matrix_spec. Qed.

Lemma init_matrix_two_tiles_witness :
  randint_in_range lowest_draw ∧ (2 ≤ 4)%nat
  ∧ ∃ b w',
      init_matrix lowest_draw 4 tt = Some (b, w')
      ∧ valid_board b
      ∧ grid_len b = 4%nat
      ∧ length (get_available_cells b) = (4 * 4 - 2)%nat
      ∧ (grid_sum (grid b) = 4 ∨ grid_sum (grid b) = 6 ∨ grid_sum (grid b) = 8)
      ∧ get_available_moves b ≠ [].
Proof.
  assert (randint_in_range lowest_draw) as Hr by apply lowest_draw_in_range.
  assert (2 ≤ 4)%nat as Hn by lia.
  split; [exact Hr|split; [exact Hn|]].
  exact (init_matrix_two_tiles lowest_draw 4 tt Hr Hn).
Defined.

(** X21.  One turn of the game loop, when Expectimax or Minimax names a
    move: the new board is the board moved in that direction with one 2 or
    4 written on a cell that the move left empty, every other cell being
    that of the moved board, so that the sum of the board grows by exactly
    that tile; the cells stay powers of two, the score does not go down,
    the move counter goes up by one, [max_tile] does not go down and bounds
    every cell, and the game is flagged as over exactly when no move is
    left on the new board. *)
Theorem run_game_turn {F World} (ops : float_ops F)
  (mcts_move : GameBoard → World → option nat * World)
  (randint : nat → nat → World → nat * World)
  (strategy : AIStrategy) (g : GameGrid) (w : World) (dir : nat) :
  randint_in_range randint →
  valid_board (board g) → game_over g = false → strategy ≠ MCTS →
  fst (get_move ops mcts_move strategy (board g) w) = Some dir →
  ∃ g' w' v pos,
    run_game ops mcts_move randint strategy g w = Some (g', w')
    ∧ (v = 2 ∨ v = 4)
    ∧ pos ∈ get_available_cells (moved (board g) dir)
    ∧ get_cell_value (board g') pos = Some v
    ∧ (∀ i j, (i, j) ≠ pos →
              cell (grid (board g')) i j = cell (grid (moved (board g) dir)) i j)
    ∧ valid_board (board g')
    ∧ grid_len (board g') = grid_len (board g)
    ∧ grid_sum (grid (board g')) = grid_sum (grid (board g)) + v
    ∧ S (length (get_available_cells (board g')))
      = length (get_available_cells (moved (board g) dir))
    ∧ score g' = score g + calculate_move_score (moved (board g) dir) (grid (board g))
    ∧ score g ≤ score g'
    ∧ move_count g' = move_count g + 1
    ∧ max_tile g ≤ max_tile g'
    ∧ (∀ i j, (i < grid_len (board g'))%nat → (j < grid_len (board g'))%nat →
              cell (grid (board g')) i j ≤ max_tile g')
    ∧ (game_over g' = true ↔ get_available_moves (board g') = []).
Proof. intros Hr. by apply run_game_spec. Qed.

Lemma run_game_turn_witness :
  randint_in_range lowest_draw
  ∧ valid_board (board (game_on tie_board))
  ∧ game_over (game_on tie_board) = false
  ∧ EXPECTIMAX ≠ MCTS
  ∧ fst (get_move binary64 (fun b w => (None, w)) EXPECTIMAX
           (board (game_on tie_board)) tt) = Some Right
  ∧ ∃ g' w' v pos,
      run_game binary64 (fun b w => (None, w)) lowest_draw EXPECTIMAX
        (game_on tie_board) tt = Some (g', w')
      ∧ (v = 2 ∨ v = 4)
      ∧ pos ∈ get_available_cells (moved (board (game_on tie_board)) Right)
      ∧ get_cell_value (board g') pos = Some v
      ∧ (∀ i j, (i, j) ≠ pos →
                cell (grid (board g')) i j
                = cell (grid (moved (board (game_on tie_board)) Right)) i j)
      ∧ valid_board (board g')
      ∧ grid_len (board g') = grid_len (board (game_on tie_board))
      ∧ grid_sum (grid (board g')) = grid_sum (grid (board (game_on tie_board))) + v
      ∧ S (length (get_available_cells (board g')))
        = length (get_available_cells (moved (board (game_on tie_board)) Right))
      ∧ score g' = score (game_on tie_board)
                   + calculate_move_score (moved (board (game_on tie_board)) Right)
                       (grid (board (game_on tie_board)))
      ∧ score (game_on tie_board) ≤ score g'
      ∧ move_count g' = move_count (game_on tie_board) + 1
      ∧ max_tile (game_on tie_board) ≤ max_tile g'
      ∧ (∀ i j, (i < grid_len (board g'))%nat → (j < grid_len (board g'))%nat →
                cell (grid (board g')) i j ≤ max_tile g')
      ∧ (game_over g' = true ↔ get_available_moves (board g') = []).
Proof.
  assert (randint_in_range lowest_draw) as Hr by apply lowest_draw_in_range.
  assert (valid_board (board (game_on tie_board))) as Hv by apply valid_tie_board.
  assert (game_over (game_on tie_board) = false) as Hgo by reflexivity.
  assert (EXPECTIMAX ≠ MCTS) as Hs by discriminate.
  assert (fst (get_move binary64 (fun b w => (None, w)) EXPECTIMAX
                 (board (game_on tie_board)) tt) = Some Right) as Hm
    by (vm_compute; reflexivity).
  split; [exact Hr|split; [exact Hv|split; [exact Hgo|split; [exact Hs|split; [exact Hm|]]]]].
  exact (run_game_turn binary64 (fun b w => (None, w)) lowest_draw EXPECTIMAX
           (game_on tie_board) tt Right Hr Hv Hgo Hs Hm).
Defined.

(** ** The minimizing layer on a board with no empty cell *)

Section minimax_full.
Context {F : Type} (ops : float_ops F).

Lemma minimax_minimizing_full (b : GameBoard) d :
  get_available_cells b = [] → get_available_moves b ≠ [] →
  minimax ops b (S d) false = pos_inf ops.
Proof.
  intros Hc Hm. cbn [minimax].
  rewrite bool_decide_false by (by destruct (get_available_moves b)).
  by rewrite Hc.
Qed.

Lemma inserted_last_cell (b : GameBoard) pos :
  wf_board b → get_available_cells b = [pos] →
  get_available_cells (inserted b pos 4) = [].
Proof.
  intros Hwf Hc.
  assert (pos ∈ get_available_cells b) as Hin
    by (rewrite Hc; apply list_elem_of_here).
  pose proof Hin as (Hx & Hy & _)%elem_of_available_cells.
  destruct (insert_tile_inside b pos 4 Hwf Hx Hy) as (b' & Hins & _ & Hlen & Hcell).
  unfold inserted. rewrite Hins. simpl.
  rewrite (available_cells_inserted b b' pos 4) by done.
  rewrite Hc. by rewrite filter_cons_False, filter_nil by (intros H; by apply H).
Qed.

Lemma move_score_full (b : GameBoard) m pos max_depth :
  wf_board b → get_available_cells (moved b m) = [pos] →
  get_available_moves (inserted (moved b m) pos 4) ≠ [] → (2 ≤ max_depth)%nat →
  move_score ops b max_depth m = pos_inf ops.
Proof.
  intros Hb Hc Hm Hd. unfold move_score. rewrite clone_eq.
  rewrite <- worst_case_reply_code, Hc.
  destruct max_depth as [|[|d]]; [lia|lia|]. simpl Nat.sub.
  apply minimax_minimizing_full; [|done].
  apply inserted_last_cell; [by apply wf_moved|done].
Qed.
End minimax_full.

(** X22.  The minimizing layer of Minimax takes the minimum over the empty
    cells, starting from plus infinity: on a board with no empty cell and
    a move left it returns plus infinity.  So [minimax_move] with a depth
    of 2 or more scores a move plus infinity when the move leaves one empty
    cell and a move is left once a 4 fills it. *)
Theorem minimax_full_board_scores_inf {F} (ops : float_ops F) (b : GameBoard)
  (m : nat) (pos : nat * nat) (max_depth : nat) :
  wf_board b → get_available_cells (moved b m) = [pos] →
  get_available_moves (inserted (moved b m) pos 4) ≠ [] → (2 ≤ max_depth)%nat →
  (∀ d, minimax ops (inserted (moved b m) pos 4) (S d) false = pos_inf ops)
  ∧ move_score ops b max_depth m = pos_inf ops.
Proof.
  intros Hb Hc Hm Hd. split; [|by apply (move_score_full ops b m pos)].
  intros d. apply minimax_minimizing_full; [|done].
  apply inserted_last_cell; [by apply wf_moved|done].
Qed.

Lemma minimax_full_board_scores_inf_witness :
  wf_board crowded_board
  ∧ get_available_cells (moved crowded_board Left) = [(0%nat, 3%nat)]
  ∧ get_available_moves (inserted (moved crowded_board Left) (0%nat, 3%nat) 4) ≠ []
  ∧ (2 ≤ 3)%nat
  ∧ (∀ d, minimax binary64 (inserted (moved crowded_board Left) (0%nat, 3%nat) 4)
            (S d) false = pos_inf binary64)
  ∧ move_score binary64 crowded_board 3 Left = pos_inf binary64.
Proof.
  assert (wf_board crowded_board) as Hb by wf_concrete.
  assert (get_available_cells (moved crowded_board Left) = [(0%nat, 3%nat)]) as Hc
    by reflexivity.
  assert (get_available_moves (inserted (moved crowded_board Left) (0%nat, 3%nat) 4) ≠ [])
    as Hm by (vm_compute; discriminate).
  assert (2 ≤ 3)%nat as Hd by lia.
  split; [exact Hb|split; [exact Hc|split; [exact Hm|split; [exact Hd|]]]].
  exact (minimax_full_board_scores_inf binary64 crowded_board Left (0%nat, 3%nat) 3
           Hb Hc Hm Hd).
Defined.

(** ** Counting the empty cells *)

Lemma has_shape_marks n m (a : ndarray) : has_shape n m a → has_shape n m (marks a).
Proof. apply has_shape_fmap. intros r Hr. by rewrite length_fmap. Qed.

Lemma cell_marks n m (a : ndarray) i j :
  has_shape n m a → (i < n)%nat → (j < m)%nat →
  cell (marks a) i j = empty_mark (cell a i j).
Proof.
  intros Ha Hi Hj.
  destruct (has_shape_cell_lookup n m a i j Ha Hi Hj) as (r & Hr & Hc).
  apply (cell_lookup _ _ _ (empty_mark <$> r)).
  - unfold marks. by rewrite list_lookup_fmap, Hr.
  - by rewrite list_lookup_fmap, Hc.
Qed.

Lemma marks_orient n dir (a : ndarray) :
  has_shape n n a → marks (orient dir a) = orient dir (marks a).
Proof.
  intros Ha. apply (ndarray_ext n n).
  - by apply has_shape_marks, has_shape_orient.
  - by apply has_shape_orient, has_shape_marks.
  - intros i j Hi Hj.
    rewrite (cell_marks n n) by (by apply has_shape_orient || done).
    rewrite !(cell_orient n) by (by apply has_shape_marks || done).
    destruct dir as [|[|[|dir]]]; by rewrite (cell_marks n n) by (done || lia).
Qed.

Lemma marks_restore n dir (a : ndarray) :
  has_shape n n a → marks (restore dir a) = restore dir (marks a).
Proof.
  intros Ha. apply (ndarray_ext n n).
  - by apply has_shape_marks, has_shape_restore.
  - by apply has_shape_restore, has_shape_marks.
  - intros i j Hi Hj.
    rewrite (cell_marks n n) by (by apply has_shape_restore || done).
    rewrite !(cell_restore n) by (by apply has_shape_marks || done).
    destruct dir as [|[|[|dir]]]; by rewrite (cell_marks n n) by (done || lia).
Qed.

Lemma empty_count_orient n dir (a : ndarray) :
  has_shape n n a → empty_count (orient dir a) = empty_count a.
Proof.
  intros Ha. unfold empty_count. rewrite (marks_orient n) by done.
  by apply (grid_sum_orient n), has_shape_marks.
Qed.

Lemma empty_count_restore n dir (a : ndarray) :
  has_shape n n a → empty_count (restore dir a) = empty_count a.
Proof.
  intros Ha. unfold empty_count. rewrite (marks_restore n) by done.
  by apply (grid_sum_restore n), has_shape_marks.
Qed.

Lemma sumZ_marks (r : list Z) :
  sumZ (empty_mark <$> r) = Z.of_nat (length r) - Z.of_nat (length (tiles r)).
Proof.
  induction r as [|x r IH]; [done|].
  rewrite fmap_cons, sumZ_cons, IH. unfold empty_mark.
  destruct (Z.eqb_spec x 0) as [->|Hx].
  - rewrite tiles_cons_zero. simpl length. lia.
  - rewrite tiles_cons_nonzero by done. simpl length. lia.
Qed.

Lemma tiles_left_row n (r : list Z) :
  length r = n → (length (tiles (left_row n r)) ≤ length (tiles r))%nat.
Proof.
  intros Hr. rewrite left_row_spec by done. rewrite tiles_pack.
  destruct (tiles_merge_once (pack n r)) as [H _]. by rewrite tiles_pack in H.
Qed.

Lemma length_left_row n (r : list Z) : length r = n → length (left_row n r) = n.
Proof.
  intros Hr. rewrite left_row_spec by done.
  rewrite length_pack; [done|]. rewrite length_merge_once, length_pack; lia.
Qed.

Lemma empty_count_left_rows n (V : ndarray) :
  has_shape n n V → empty_count V ≤ empty_count (left_row n <$> V).
Proof.
  intros [_ HV]. unfold empty_count, marks, grid_sum.
  induction V as [|r V IH]; [done|].
  apply Forall_cons in HV as [Hr HV]. specialize (IH HV).
  rewrite !fmap_cons, !sumZ_cons, !sumZ_marks.
  rewrite (length_left_row n r Hr), Hr.
  pose proof (tiles_left_row n r Hr). lia.
Qed.

Lemma length_bind_sum {A B} (g : A → list B) (l : list A) :
  Z.of_nat (length (l ≫= g)) = sumZ ((fun x => Z.of_nat (length (g x))) <$> l).
Proof.
  induction l as [|x l IH]; [done|].
  rewrite bind_cons, length_app, fmap_cons, sumZ_cons, <- IH. lia.
Qed.

Lemma sumZ_fmap_ext {A} (f g : A → Z) (l : list A) :
  (∀ x, x ∈ l → f x = g x) → sumZ (f <$> l) = sumZ (g <$> l).
Proof.
  intros H. f_equal. apply list_fmap_ext. intros i x Hx. apply H.
  by eapply list_elem_of_lookup_2.
Qed.

Lemma empty_count_cells (b : GameBoard) :
  wf_board b → Z.of_nat (length (get_available_cells b)) = empty_count (grid b).
Proof.
  intros Hb. set (n := grid_len b). unfold get_available_cells. fold n.
  rewrite length_bind_sum.
  unfold empty_count, grid_sum.
  pose proof (has_shape_marks n n (grid b) Hb) as Hm.
  assert (length (sumZ <$> marks (grid b)) = n) as Hlen
    by (rewrite length_fmap; apply Hm).
  rewrite <- (sumZ_item_seq (sumZ <$> marks (grid b))), Hlen.
  apply sumZ_fmap_ext. intros x Hx. apply elem_of_seq in Hx.
  rewrite length_bind_sum.
  destruct (lookup_lt_is_Some_2 (marks (grid b)) x) as [r Hr];
    [destruct Hm as [-> _]; lia|].
  pose proof (has_shape_lookup _ _ _ _ _ Hm Hr) as Hrn.
  assert (item (sumZ <$> marks (grid b)) x = sumZ r) as ->.
  { apply item_lookup. by rewrite list_lookup_fmap, Hr. }
  rewrite <- (sumZ_item_seq r), Hrn.
  apply sumZ_fmap_ext. intros y Hy. apply elem_of_seq in Hy.
  assert (item r y = empty_mark (cell (grid b) x y)) as ->.
  { rewrite <- (cell_marks n n) by (done || lia). unfold cell. by rewrite Hr. }
  unfold empty_mark. by destruct (cell (grid b) x y =? 0).
Qed.

Lemma empty_count_moved (b : GameBoard) dir :
  wf_board b → empty_count (grid b) ≤ empty_count (grid (moved b dir)).
Proof.
  intros Hb. destruct (decide (dir < 4)%nat) as [Hd|Hd].
  - rewrite grid_moved by done.
    rewrite (empty_count_restore (grid_len b))
      by (by apply has_shape_left_rows, has_shape_orient).
    rewrite <- (empty_count_orient (grid_len b) dir (grid b)) by done.
    by apply empty_count_left_rows, has_shape_orient.
  - assert (grid (moved b dir) = grid b) as ->; [|lia].
    unfold moved, move. simpl.
    destruct dir as [|[|[|[|dir]]]]; (lia || done).
Qed.

(** X23.  A move never fills a cell: after [move] in any direction
    [get_available_cells()] lists at least as many cells as before. *)
Theorem move_never_fills_a_cell (b : GameBoard) (dir : nat) :
  wf_board b →
  (length (get_available_cells b) ≤ length (get_available_cells (moved b dir)))%nat.
Proof.
  intros Hb. pose proof (empty_count_moved b dir Hb) as H.
  rewrite <- !empty_count_cells in H by (done || by apply wf_moved). lia.
Qed.

Lemma move_never_fills_a_cell_witness :
  wf_board tie_board
  ∧ (length (get_available_cells tie_board)
     ≤ length (get_available_cells (moved tie_board Left)))%nat.
Proof.
  assert (wf_board tie_board) as Hb by apply wf_tie_board.
  split; [exact Hb|].
  exact (move_never_fills_a_cell tie_board Left Hb).
Defined.
